(** * FLIP/PIC fluid solver of [src/FluidSim.ts]: model and verified properties

    The development embeds the TypeScript class [FluidSim], its
    [Particle] and the simulation part of the animation frame of
    [src/App.tsx] into Rocq and proves properties of the particle/grid
    transfer, the pressure relaxation, the particle separation, the
    constructor and the step sequence.

    ** Modelling conventions

    - A JavaScript number is an exact rational ([Qc], canonical fractions
      with Leibniz equality).  Rounding of IEEE doubles and of
      [Float32Array] stores is not modelled.  Whatever would leave the
      rationals in JavaScript (a quotient by zero, arithmetic on the
      [undefined] read outside an array) is the outcome [Err NotRational];
      so on every [Ok] path the model computes what the source computes
      in exact arithmetic.
    - [Math.sin], [Math.sqrt] and [Math.random] are parameters
      ([Math_sin], [Math_sqrt], [Math_random]): their true values are
      irrational or non-deterministic.
    - Typed arrays are lists; a store outside the array is ignored (as for
      a typed array), a read outside yields [None] (JavaScript
      [undefined]).  Index arithmetic is done in [Z].
    - Exceptions are outcomes: [RangeError] (negative typed-array length,
      oversized [set]), [TypeError] (field access on [undefined]);
      [Timeout] ends a [while] loop whose fuel is spent.  An allocation
      of any non-negative length succeeds: the memory limit of the
      engine is not modelled. *)

From Stdlib Require Import ZArith QArith Qcanon Qround Lia Lqa Zdivisibility.
From stdpp Require Import base numbers list list_monad option.

Local Open Scope Z_scope.

(** ** Outcomes *)

Inductive error := RangeError | TypeError | NotRational | Timeout.

Inductive outcome (A : Type) :=
  | Ok (a : A)
  | Err (e : error).
Arguments Ok {A} a.
Arguments Err {A} e.

#[export] Instance outcome_ret : MRet outcome := fun A a => Ok a.
#[export] Instance outcome_bind : MBind outcome := fun A B f m =>
  match m with
  | Ok a => f a
  | Err e => Err e
  end.

(** Counted loops [for (k = lo; k < hi; k++)]: pure and effectful. *)
Definition forZ {S : Type} (lo hi : Z) (body : Z -> S -> S) (s : S) : S :=
  foldl (fun acc k => body k acc) s (seqZ lo (hi - lo)).

Fixpoint iterM {S : Type} (body : Z -> S -> outcome S) (ks : list Z) (s : S)
  : outcome S :=
  match ks with
  | [] => Ok s
  | k :: ks' => s' ← body k s; iterM body ks' s'
  end.

Definition forZM {S : Type} (lo hi : Z) (body : Z -> S -> outcome S) (s : S)
  : outcome S :=
  iterM body (seqZ lo (hi - lo)) s.

(** [for (const p of list)] with an effectful body that rewrites [p]. *)
Fixpoint eachM {A : Type} (body : A -> outcome A) (l : list A)
  : outcome (list A) :=
  match l with
  | [] => Ok []
  | a :: l' => a' ← body a; r ← eachM body l'; Ok (a' :: r)
  end.

(** ** Numbers *)

Definition lit (n : Z) (d : positive) : Qc := Q2Qc (n # d).

Definition js_div (a b : Qc) : outcome Qc :=
  if decide (b = 0%Qc) then Err NotRational else Ok (a / b)%Qc.

Definition Math_max (a b : Qc) : Qc := if decide (a < b)%Qc then b else a.
Definition Math_min (a b : Qc) : Qc := if decide (b < a)%Qc then b else a.
Definition Math_abs (a : Qc) : Qc := if decide (a < 0)%Qc then (- a)%Qc else a.
Definition Math_floor (a : Qc) : Z := Qfloor a.
Definition Math_ceil (a : Qc) : Z := Qceiling a.

(** ** Arrays *)

Definition at_ {A : Type} (a : list A) (i : Z) : option A :=
  if decide (0 <= i) then a !! Z.to_nat i else None.

Definition wr {A : Type} (a : list A) (i : Z) (x : A) : list A :=
  if decide (0 <= i) then <[Z.to_nat i := x]> a else a.

(** [a[i] op= e]: read, combine, store; nothing happens outside the array. *)
Definition upd_at {A : Type} (a : list A) (i : Z) (f : A -> A) : list A :=
  match at_ a i with
  | Some x => wr a i (f x)
  | None => a
  end.

(** A read whose value enters arithmetic. *)
Definition rd (a : list Qc) (i : Z) : outcome Qc :=
  match at_ a i with
  | Some x => Ok x
  | None => Err NotRational
  end.

Definition fill {A : Type} (a : list A) (x : A) : list A :=
  replicate (length a) x.

(** [new Float32Array(n)] and the like. *)
Definition alloc {A : Type} (n : Z) (x : A) : outcome (list A) :=
  if decide (n < 0) then Err RangeError else Ok (replicate (Z.to_nat n) x).

(** [target.set(source)] *)
Definition array_set {A : Type} (target source : list A) : outcome (list A) :=
  if decide (length target < length source)%nat then Err RangeError
  else Ok (source ++ drop (length source) target).

(** ** Data *)

Inductive CellType := FLUID | AIR | SOLID.

#[export] Instance CellType_eq_dec : EqDecision CellType.
Proof. solve_decision. Defined.

Module Particle.

Record t := mk { x : Qc; y : Qc; u : Qc; v : Qc }.

Definition new (x0 y0 : Qc) : t := mk x0 y0 0%Qc 0%Qc.

#[export] Instance eq_dec : EqDecision t.
Proof. solve_decision. Defined.

End Particle.

Module FluidSim.

Record t := mk {
  density : Qc;
  gravity : Qc;
  overRelaxation : Qc;
  fNumX : Z;
  fNumY : Z;
  h : Qc;
  u : list Qc;
  v : list Qc;
  du : list Qc;
  dv : list Qc;
  uNew : list Qc;
  vNew : list Qc;
  uWeight : list Qc;
  vWeight : list Qc;
  pDensity : list Qc;
  cellType : list CellType;
  particles : list Particle.t;
  totalTime : Qc
}.

Definition set_u (a : list Qc) (s : t) : t :=
  mk (density s) (gravity s) (overRelaxation s) (fNumX s) (fNumY s) (h s)
     a (v s) (du s) (dv s) (uNew s) (vNew s) (uWeight s) (vWeight s)
     (pDensity s) (cellType s) (particles s) (totalTime s).
Definition set_v (a : list Qc) (s : t) : t :=
  mk (density s) (gravity s) (overRelaxation s) (fNumX s) (fNumY s) (h s)
     (u s) a (du s) (dv s) (uNew s) (vNew s) (uWeight s) (vWeight s)
     (pDensity s) (cellType s) (particles s) (totalTime s).
Definition set_du (a : list Qc) (s : t) : t :=
  mk (density s) (gravity s) (overRelaxation s) (fNumX s) (fNumY s) (h s)
     (u s) (v s) a (dv s) (uNew s) (vNew s) (uWeight s) (vWeight s)
     (pDensity s) (cellType s) (particles s) (totalTime s).
Definition set_dv (a : list Qc) (s : t) : t :=
  mk (density s) (gravity s) (overRelaxation s) (fNumX s) (fNumY s) (h s)
     (u s) (v s) (du s) a (uNew s) (vNew s) (uWeight s) (vWeight s)
     (pDensity s) (cellType s) (particles s) (totalTime s).
Definition set_uNew (a : list Qc) (s : t) : t :=
  mk (density s) (gravity s) (overRelaxation s) (fNumX s) (fNumY s) (h s)
     (u s) (v s) (du s) (dv s) a (vNew s) (uWeight s) (vWeight s)
     (pDensity s) (cellType s) (particles s) (totalTime s).
Definition set_vNew (a : list Qc) (s : t) : t :=
  mk (density s) (gravity s) (overRelaxation s) (fNumX s) (fNumY s) (h s)
     (u s) (v s) (du s) (dv s) (uNew s) a (uWeight s) (vWeight s)
     (pDensity s) (cellType s) (particles s) (totalTime s).
Definition set_uWeight (a : list Qc) (s : t) : t :=
  mk (density s) (gravity s) (overRelaxation s) (fNumX s) (fNumY s) (h s)
     (u s) (v s) (du s) (dv s) (uNew s) (vNew s) a (vWeight s)
     (pDensity s) (cellType s) (particles s) (totalTime s).
Definition set_vWeight (a : list Qc) (s : t) : t :=
  mk (density s) (gravity s) (overRelaxation s) (fNumX s) (fNumY s) (h s)
     (u s) (v s) (du s) (dv s) (uNew s) (vNew s) (uWeight s) a
     (pDensity s) (cellType s) (particles s) (totalTime s).
Definition set_pDensity (a : list Qc) (s : t) : t :=
  mk (density s) (gravity s) (overRelaxation s) (fNumX s) (fNumY s) (h s)
     (u s) (v s) (du s) (dv s) (uNew s) (vNew s) (uWeight s) (vWeight s)
     a (cellType s) (particles s) (totalTime s).
Definition set_cellType (a : list CellType) (s : t) : t :=
  mk (density s) (gravity s) (overRelaxation s) (fNumX s) (fNumY s) (h s)
     (u s) (v s) (du s) (dv s) (uNew s) (vNew s) (uWeight s) (vWeight s)
     (pDensity s) a (particles s) (totalTime s).
Definition set_particles (a : list Particle.t) (s : t) : t :=
  mk (density s) (gravity s) (overRelaxation s) (fNumX s) (fNumY s) (h s)
     (u s) (v s) (du s) (dv s) (uNew s) (vNew s) (uWeight s) (vWeight s)
     (pDensity s) (cellType s) a (totalTime s).
Definition set_totalTime (a : Qc) (s : t) : t :=
  mk (density s) (gravity s) (overRelaxation s) (fNumX s) (fNumY s) (h s)
     (u s) (v s) (du s) (dv s) (uNew s) (vNew s) (uWeight s) (vWeight s)
     (pDensity s) (cellType s) (particles s) a.

(** [sim.gravity = g]: the page components assign this public field
    between steps. *)
Definition set_gravity (g : Qc) (s : t) : t :=
  mk (density s) g (overRelaxation s) (fNumX s) (fNumY s) (h s)
     (u s) (v s) (du s) (dv s) (uNew s) (vNew s) (uWeight s) (vWeight s)
     (pDensity s) (cellType s) (particles s) (totalTime s).

(** [this.cellType[idx] === CellType.SOLID]; [undefined] is not solid. *)
Definition is_solid (s : t) (idx : Z) : bool :=
  bool_decide (at_ (cellType s) idx = Some SOLID).

(** *** Helpers for grid access *)

Definition getUIndex (s : t) (i j : Z) : Z := i + j * (fNumX s + 1).
Definition getVIndex (s : t) (i j : Z) : Z := i + j * fNumX s.
Definition getCellIndex (s : t) (i j : Z) : Z := i + j * fNumX s.

(** *** initGrid *)

Definition initGrid_cell (i j : Z) (s : t) : t :=
  let type :=
    if bool_decide (i = 0 \/ i = fNumX s - 1 \/ j = 0 \/ j = fNumY s - 1)
    then SOLID else AIR in
  set_cellType (wr (cellType s) (i + j * fNumX s) type) s.

Definition initGrid (s : t) : t :=
  forZ 0 (fNumX s) (fun i => forZ 0 (fNumY s) (fun j => initGrid_cell i j)) s.

(** *** enforceBoundaries *)

Definition enforce_cell (i j : Z) (s : t) : t :=
  let m := fNumX s in
  if is_solid s (i + j * m) then
    let s := set_u (wr (u s) (i + j * (m + 1)) 0%Qc) s in
    let s := set_u (wr (u s) (i + 1 + j * (m + 1)) 0%Qc) s in
    let s := set_v (wr (v s) (i + j * m) 0%Qc) s in
    set_v (wr (v s) (i + (j + 1) * m) 0%Qc) s
  else s.

Definition enforceBoundaries (s : t) : t :=
  let n := fNumY s in
  let m := fNumX s in
  forZ 0 n (fun j => forZ 0 m (fun i => enforce_cell i j)) s.

(** *** Splat and sample

    The bilinear stencil shared by [splatToGrid], [splatToScalarGrid] and
    [sampleGrid]: the clamped grid coordinates split into the index of the
    lower-left node and the fractions. The [isNaN] tests of the source
    guard the case in which [js_div] fails. *)

Record stencil := mkStencil { st_idx : Z; st_fx : Qc; st_fy : Qc }.

Definition locate (s : t) (x0 y0 ox oy : Qc) (cols rows : Z) : outcome stencil :=
  qx ← js_div x0 (h s);
  qy ← js_div y0 (h s);
  let gx := (qx - ox)%Qc in
  let gy := (qy - oy)%Qc in
  let gx := Math_max 0%Qc (Math_min gx (Qc_of_Z (cols - 2))) in
  let gy := Math_max 0%Qc (Math_min gy (Qc_of_Z (rows - 2))) in
  let ix := Math_floor gx in
  let iy := Math_floor gy in
  let fx := (gx - Qc_of_Z ix)%Qc in
  let fy := (gy - Qc_of_Z iy)%Qc in
  Ok (mkStencil (ix + iy * cols) fx fy).

Definition splatToGrid (s : t) (x0 y0 val : Qc) (grid weight : list Qc)
    (ox oy : Qc) (cols rows : Z) : outcome (list Qc * list Qc) :=
  c ← locate s x0 y0 ox oy cols rows;
  let fx := st_fx c in
  let fy := st_fy c in
  let w00 := ((1 - fx) * (1 - fy))%Qc in
  let w10 := (fx * (1 - fy))%Qc in
  let w01 := ((1 - fx) * fy)%Qc in
  let w11 := (fx * fy)%Qc in
  let idx := st_idx c in
  let grid := upd_at grid idx (fun g => g + val * w00)%Qc in
  let weight := upd_at weight idx (fun w => w + w00)%Qc in
  let grid := upd_at grid (idx + 1) (fun g => g + val * w10)%Qc in
  let weight := upd_at weight (idx + 1) (fun w => w + w10)%Qc in
  let grid := upd_at grid (idx + cols) (fun g => g + val * w01)%Qc in
  let weight := upd_at weight (idx + cols) (fun w => w + w01)%Qc in
  let grid := upd_at grid (idx + cols + 1) (fun g => g + val * w11)%Qc in
  let weight := upd_at weight (idx + cols + 1) (fun w => w + w11)%Qc in
  Ok (grid, weight).

Definition splatToScalarGrid (s : t) (x0 y0 val : Qc) (grid : list Qc)
    (ox oy : Qc) (cols rows : Z) : outcome (list Qc) :=
  c ← locate s x0 y0 ox oy cols rows;
  let fx := st_fx c in
  let fy := st_fy c in
  let idx := st_idx c in
  let grid := upd_at grid idx (fun g => g + val * (1 - fx) * (1 - fy))%Qc in
  let grid := upd_at grid (idx + 1) (fun g => g + val * fx * (1 - fy))%Qc in
  let grid := upd_at grid (idx + cols) (fun g => g + val * (1 - fx) * fy)%Qc in
  let grid := upd_at grid (idx + cols + 1) (fun g => g + val * fx * fy)%Qc in
  Ok grid.

Definition sampleGrid (s : t) (x0 y0 : Qc) (grid : list Qc)
    (ox oy : Qc) (cols rows : Z) : outcome Qc :=
  c ← locate s x0 y0 ox oy cols rows;
  let fx := st_fx c in
  let fy := st_fy c in
  let idx := st_idx c in
  g00 ← rd grid idx;
  g10 ← rd grid (idx + 1);
  g01 ← rd grid (idx + cols);
  g11 ← rd grid (idx + cols + 1);
  Ok (g00 * (1 - fx) * (1 - fy) +
      g10 * fx * (1 - fy) +
      g01 * (1 - fx) * fy +
      g11 * fx * fy)%Qc.

(** *** transferParticlesToGrid *)

Definition splat_particle (p : Particle.t) (s : t) : outcome t :=
  '(g, w) ← splatToGrid s (Particle.x p) (Particle.y p) (Particle.u p)
              (u s) (uWeight s) 0%Qc (lit 1 2) (fNumX s + 1) (fNumY s);
  let s := set_uWeight w (set_u g s) in
  '(g, w) ← splatToGrid s (Particle.x p) (Particle.y p) (Particle.v p)
              (v s) (vWeight s) (lit 1 2) 0%Qc (fNumX s) (fNumY s + 1);
  Ok (set_vWeight w (set_v g s)).

Fixpoint splat_particles (ps : list Particle.t) (s : t) : outcome t :=
  match ps with
  | [] => Ok s
  | p :: ps' => s' ← splat_particle p s; splat_particles ps' s'
  end.

(** [if (weight[i] > 0) grid[i] /= weight[i]] *)
Definition normalize_face (weight : list Qc) (i : Z) (grid : list Qc)
  : outcome (list Qc) :=
  match at_ weight i with
  | Some w =>
      if decide (0 < w)%Qc then
        match at_ grid i with
        | Some g => q ← js_div g w; Ok (wr grid i q)
        | None => Ok grid
        end
      else Ok grid
  | None => Ok grid
  end.

Definition normalize (grid weight : list Qc) : outcome (list Qc) :=
  forZM 0 (Z.of_nat (length grid)) (normalize_face weight) grid.

Definition transferParticlesToGrid (s : t) : outcome t :=
  let s := set_u (fill (u s) 0%Qc) s in
  let s := set_v (fill (v s) 0%Qc) s in
  let s := set_uWeight (fill (uWeight s) 0%Qc) s in
  let s := set_vWeight (fill (vWeight s) 0%Qc) s in
  s ← splat_particles (particles s) s;
  g ← normalize (u s) (uWeight s);
  let s := set_u g s in
  g ← normalize (v s) (vWeight s);
  let s := set_v g s in
  Ok (enforceBoundaries s).

(** *** calculateParticleDensity *)

Fixpoint density_particles (s : t) (ps : list Particle.t) (grid : list Qc)
  : outcome (list Qc) :=
  match ps with
  | [] => Ok grid
  | p :: ps' =>
      grid' ← splatToScalarGrid s (Particle.x p) (Particle.y p) 1%Qc grid
                (lit 1 2) (lit 1 2) (fNumX s) (fNumY s);
      density_particles s ps' grid'
  end.

Definition calculateParticleDensity (s : t) : outcome t :=
  g ← density_particles s (particles s) (fill (pDensity s) 0%Qc);
  Ok (set_pDensity g s).

(** *** solveIncompressibility *)

Definition numIters : Z := 30.
Definition restDensity : Qc := lit 5 2.
Definition kDensity : Qc := 1%Qc.
Definition epsilon : Qc := lit 1 100000.

(** [cellType[k] === SOLID ? 0 : 1] *)
Definition open_flag (s : t) (k : Z) : Z := if is_solid s k then 0 else 1.

Definition solve_cell (j i : Z) (s : t) : outcome t :=
  let cp := overRelaxation s in
  let cellIdx := i + j * fNumX s in
  if is_solid s cellIdx then Ok s else
  let idxU := i + j * (fNumX s + 1) in
  let idxV := i + j * fNumX s in
  uLeft ← rd (u s) idxU;
  uRight ← rd (u s) (idxU + 1);
  vBot ← rd (v s) idxV;
  vTop ← rd (v s) (idxV + fNumX s);
  let div := (uRight - uLeft + (vTop - vBot))%Qc in
  let targetDiv :=
    match at_ (pDensity s) cellIdx with
    | Some density =>
        if decide (restDensity < density)%Qc
        then (kDensity * (density - restDensity))%Qc else 0%Qc
    | None => 0%Qc
    end in
  let div := (div - targetDiv)%Qc in
  if decide (Math_abs div < epsilon)%Qc then Ok s else
  let sLeft := open_flag s (i - 1 + j * fNumX s) in
  let sRight := open_flag s (i + 1 + j * fNumX s) in
  let sBot := open_flag s (i + (j - 1) * fNumX s) in
  let sTop := open_flag s (i + (j + 1) * fNumX s) in
  let sTot := sLeft + sRight + sBot + sTop in
  if decide (sTot = 0) then Ok s else
  flux ← js_div (- (div * cp))%Qc (Qc_of_Z sTot);
  let s := if decide (sLeft = 0) then s
           else set_u (upd_at (u s) idxU (fun a => a - flux)%Qc) s in
  let s := if decide (sRight = 0) then s
           else set_u (upd_at (u s) (idxU + 1) (fun a => a + flux)%Qc) s in
  let s := if decide (sBot = 0) then s
           else set_v (upd_at (v s) idxV (fun a => a - flux)%Qc) s in
  let s := if decide (sTop = 0) then s
           else set_v (upd_at (v s) (idxV + fNumX s) (fun a => a + flux)%Qc) s in
  Ok s.

Definition sweep (s : t) : outcome t :=
  forZM 1 (fNumY s - 1) (fun j => forZM 1 (fNumX s - 1) (solve_cell j)) s.

Definition solveIncompressibility (s : t) : outcome t :=
  forZM 0 numIters (fun _ => sweep) s.

(** *** transferGridToParticles *)

Definition blend (flipRatio : Qc) (s : t) (p : Particle.t) : outcome Particle.t :=
  uPIC ← sampleGrid s (Particle.x p) (Particle.y p) (u s)
           0%Qc (lit 1 2) (fNumX s + 1) (fNumY s);
  vPIC ← sampleGrid s (Particle.x p) (Particle.y p) (v s)
           (lit 1 2) 0%Qc (fNumX s) (fNumY s + 1);
  uOld ← sampleGrid s (Particle.x p) (Particle.y p) (du s)
           0%Qc (lit 1 2) (fNumX s + 1) (fNumY s);
  vOld ← sampleGrid s (Particle.x p) (Particle.y p) (dv s)
           (lit 1 2) 0%Qc (fNumX s) (fNumY s + 1);
  let uFLIP := (Particle.u p + (uPIC - uOld))%Qc in
  let vFLIP := (Particle.v p + (vPIC - vOld))%Qc in
  Ok (Particle.mk (Particle.x p) (Particle.y p)
        (uFLIP * flipRatio + uPIC * (1 - flipRatio))%Qc
        (vFLIP * flipRatio + vPIC * (1 - flipRatio))%Qc).

Definition transferGridToParticles (flipRatio : Qc) (s : t) : outcome t :=
  ps ← eachM (blend flipRatio s) (particles s);
  Ok (set_particles ps s).

(** *** Particle motion, separation and the step sequence *)

Section Math.

Variable Math_sin : Qc -> Qc.
Variable Math_sqrt : Qc -> Qc.
Variable Math_random : nat -> Qc.

(** Bucket of a particle in the spatial hash (indices clamped). *)
Definition hash_cell (s : t) (invH : Qc) (p : Particle.t) : Z :=
  let cx := Z.max 0 (Z.min (fNumX s - 1) (Math_floor (Particle.x p * invH))) in
  let cy := Z.max 0 (Z.min (fNumY s - 1) (Math_floor (Particle.y p * invH))) in
  cx + cy * fNumX s.

(** One round of the "Fill Hash" loop.  An [Int32Array] stores the
    [undefined] read outside [firstHead] as 0. *)
Definition fill_hash_step (s : t) (invH : Qc) (i : Z) (hs : list Z * list Z)
  : outcome (list Z * list Z) :=
  let '(firstHead, nextParticle) := hs in
  match at_ (particles s) i with
  | Some p =>
      let cIdx := hash_cell s invH p in
      let nextParticle := wr nextParticle i (default 0 (at_ firstHead cIdx)) in
      let firstHead := wr firstHead cIdx i in
      Ok (firstHead, nextParticle)
  | None => Err TypeError
  end.

(** Body of the [while] loop for one neighbour. *)
Definition push_apart (radius radiusSq : Qc) (i neighborIdx : Z)
    (ps : list Particle.t) : outcome (list Particle.t) :=
  if decide (neighborIdx = i) then Ok ps else
  match at_ ps i, at_ ps neighborIdx with
  | Some p, Some pn =>
      let dx := (Particle.x p - Particle.x pn)%Qc in
      let dy := (Particle.y p - Particle.y pn)%Qc in
      let distSq := (dx * dx + dy * dy)%Qc in
      if decide (distSq < radiusSq /\ lit 1 1000000 < distSq)%Qc then
        let dist := Math_sqrt distSq in
        let overlap := (radius - dist)%Qc in
        let force := (overlap * lit 1 2)%Qc in
        qx ← js_div dx dist;
        let fx := (qx * force)%Qc in
        qy ← js_div dy dist;
        let fy := (qy * force)%Qc in
        let ps := wr ps i (Particle.mk (Particle.x p + fx) (Particle.y p + fy)
                             (Particle.u p) (Particle.v p)) in
        let ps := wr ps neighborIdx
                     (Particle.mk (Particle.x pn - fx) (Particle.y pn - fy)
                        (Particle.u pn) (Particle.v pn)) in
        Ok ps
      else Ok ps
  | _, _ => Err TypeError
  end.

(** [while (neighborIdx !== -1) { ...; neighborIdx = nextParticle[neighborIdx] }] *)
Fixpoint walk (fuel : nat) (nextParticle : list Z) (radius radiusSq : Qc)
    (i neighborIdx : Z) (ps : list Particle.t) : outcome (list Particle.t) :=
  if decide (neighborIdx = -1) then Ok ps else
  match fuel with
  | O => Err Timeout
  | S fuel' =>
      ps' ← push_apart radius radiusSq i neighborIdx ps;
      match at_ nextParticle neighborIdx with
      | Some nb => walk fuel' nextParticle radius radiusSq i nb ps'
      | None => Err TypeError
      end
  end.

Definition visit_cell (s : t) (firstHead nextParticle : list Z)
    (radius radiusSq : Qc) (i nx ny : Z) (ps : list Particle.t)
  : outcome (list Particle.t) :=
  if decide (nx < 0 \/ fNumX s <= nx \/ ny < 0 \/ fNumY s <= ny) then Ok ps else
  let nIdx := nx + ny * fNumX s in
  match at_ firstHead nIdx with
  | Some neighborIdx =>
      walk (S (length ps)) nextParticle radius radiusSq i neighborIdx ps
  | None => Err TypeError
  end.

Definition separate_particle (s : t) (invH : Qc) (firstHead nextParticle : list Z)
    (radius radiusSq : Qc) (i : Z) (ps : list Particle.t)
  : outcome (list Particle.t) :=
  match at_ ps i with
  | Some p =>
      let cx := Math_floor (Particle.x p * invH) in
      let cy := Math_floor (Particle.y p * invH) in
      forZM (cx - 1) (cx + 2) (fun nx =>
        forZM (cy - 1) (cy + 2) (fun ny =>
          visit_cell s firstHead nextParticle radius radiusSq i nx ny)) ps
  | None => Err TypeError
  end.

Definition separateParticles (s : t) : outcome t :=
  let numCells := fNumX s * fNumY s in
  let len := Z.of_nat (length (particles s)) in
  invH ← js_div 1%Qc (h s);
  firstHead ← alloc numCells (-1);
  nextParticle ← alloc len (-1);
  '(firstHead, nextParticle) ←
     forZM 0 len (fill_hash_step s invH) (firstHead, nextParticle);
  let radius := h s in
  let radiusSq := (radius * radius)%Qc in
  ps ← forZM 0 1 (fun _ =>
         forZM 0 len
           (separate_particle s invH firstHead nextParticle radius radiusSq))
       (particles s);
  Ok (set_particles ps s).

(** "Apply Forces & Integration" for one particle. *)
Definition move (g dt : Qc) (p : Particle.t) : Particle.t :=
  let v' := (Particle.v p + g * dt)%Qc in
  Particle.mk (Particle.x p + Particle.u p * dt)%Qc
              (Particle.y p + v' * dt)%Qc
              (Particle.u p) v'.

(** "Wall Collisions (Clamp)" for one particle. *)
Definition clamp (width height buffer : Qc) (p : Particle.t) : Particle.t :=
  let p := if decide (Particle.x p < buffer)%Qc
           then Particle.mk buffer (Particle.y p) 0%Qc (Particle.v p) else p in
  let p := if decide (width - buffer < Particle.x p)%Qc
           then Particle.mk (width - buffer)%Qc (Particle.y p) 0%Qc (Particle.v p)
           else p in
  let p := if decide (height - buffer < Particle.y p)%Qc
           then Particle.mk (Particle.x p) (height - buffer)%Qc (Particle.u p) 0%Qc
           else p in
  let p := if decide (Particle.y p < buffer)%Qc
           then Particle.mk (Particle.x p) buffer (Particle.u p) 0%Qc else p in
  p.

Definition advectParticles (dt : Qc) (s : t) : outcome t :=
  let width := (Qc_of_Z (fNumX s) * h s)%Qc in
  let height := (Qc_of_Z (fNumY s) * h s)%Qc in
  let buffer := (h s * lit 11 10)%Qc in
  let s := set_particles (map (move (gravity s) dt) (particles s)) s in
  s ← separateParticles s;
  Ok (set_particles (map (clamp width height buffer) (particles s)) s).

(** *** addExternalForce *)

Definition push (x0 y0 vx vy radius : Qc) (p : Particle.t) : outcome Particle.t :=
  let rSq := (radius * radius)%Qc in
  let dx := (Particle.x p - x0)%Qc in
  let dy := (Particle.y p - y0)%Qc in
  let distSq := (dx * dx + dy * dy)%Qc in
  if decide (distSq < rSq)%Qc then
    q ← js_div (Math_sqrt distSq) radius;
    let strength := (1 - q)%Qc in
    Ok (Particle.mk (Particle.x p) (Particle.y p)
          (Particle.u p + vx * strength)%Qc
          (Particle.v p + vy * strength)%Qc)
  else Ok p.

Definition addExternalForce (x0 y0 vx vy radius : Qc) (s : t) : outcome t :=
  ps ← eachM (push x0 y0 vx vy radius) (particles s);
  Ok (set_particles ps s).

(** *** integrate

    The paddle loop [for (j = 1; j < paddleHeight; j++)] compares the
    integer [j] with a rational bound; it runs for [1 <= j < ceil
    paddleHeight]. *)

Definition paddle_row (uForce : Qc) (j : Z) (s : t) : t :=
  let idx := 1 + j * (fNumX s + 1) in
  set_u (wr (u s) idx uForce) s.

Definition apply_paddle (s : t) : t :=
  let waveAmp := Qc_of_Z 400 in
  let waveFreq := 1%Qc in
  let paddleHeight := (Qc_of_Z (fNumY s) * lit 7 10)%Qc in
  let uForce := (waveAmp * Math_sin (totalTime s * waveFreq))%Qc in
  forZ 1 (Math_ceil paddleHeight) (paddle_row uForce) s.

Definition snapshot (s : t) : outcome t :=
  a ← array_set (du s) (u s);
  let s := set_du a s in
  a ← array_set (dv s) (v s);
  Ok (set_dv a s).

Definition integrate (dt : Qc) (s : t) : outcome t :=
  let s := set_totalTime (totalTime s + dt)%Qc s in
  s ← advectParticles dt s;
  s ← transferParticlesToGrid s;
  s ← calculateParticleDensity s;
  let s := apply_paddle s in
  s ← snapshot s;
  s ← solveIncompressibility s;
  transferGridToParticles (lit 19 20) s.

(** *** initParticles, reset and the constructor

    The two seeding loops advance a rational coordinate by
    [particleSpacing]; they take fuel, and [Timeout] reports that it ran
    out.  The [k]-th particle pushed uses the [k]-th random draw. *)

Fixpoint init_column (fuel : nat) (cell x0 maxH particleSpacing y0 : Qc)
    (ps : list Particle.t) : outcome (list Particle.t) :=
  if decide (y0 < maxH)%Qc then
    match fuel with
    | O => Err Timeout
    | S fuel' =>
        let jitter := ((Math_random (length ps) - lit 1 2) * (cell * lit 1 10))%Qc in
        init_column fuel' cell x0 maxH particleSpacing (y0 + particleSpacing)%Qc
          (ps ++ [Particle.new (x0 + jitter)%Qc (y0 + jitter)%Qc])
    end
  else Ok ps.

Fixpoint init_rows (fuel : nat) (cell xEnd startY maxH particleSpacing x0 : Qc)
    (ps : list Particle.t) : outcome (list Particle.t) :=
  if decide (x0 < xEnd)%Qc then
    match fuel with
    | O => Err Timeout
    | S fuel' =>
        ps' ← init_column fuel' cell x0 maxH particleSpacing startY ps;
        init_rows fuel' cell xEnd startY maxH particleSpacing
          (x0 + particleSpacing)%Qc ps'
    end
  else Ok ps.

Definition initParticles (fuel : nat) (s : t) : outcome t :=
  let startX := (h s * Qc_of_Z 2)%Qc in
  let width := (Qc_of_Z (fNumX s - 4) * h s)%Qc in
  let fillPercent := lit 4 10 in
  let height := (Qc_of_Z (fNumY s - 2) * h s * fillPercent)%Qc in
  let maxH := (Qc_of_Z (fNumY s - 1) * h s)%Qc in
  let startY := (maxH - height)%Qc in
  let particleSpacing := (h s * lit 85 100)%Qc in
  ps ← init_rows fuel (h s) (startX + width)%Qc startY maxH particleSpacing
         startX [];
  Ok (set_particles ps s).

Definition reset (fuel : nat) (s : t) : outcome t :=
  let s := set_u (fill (u s) 0%Qc) s in
  let s := set_v (fill (v s) 0%Qc) s in
  let s := set_uWeight (fill (uWeight s) 0%Qc) s in
  let s := set_vWeight (fill (vWeight s) 0%Qc) s in
  let s := set_uNew (fill (uNew s) 0%Qc) s in
  let s := set_vNew (fill (vNew s) 0%Qc) s in
  let s := set_du (fill (du s) 0%Qc) s in
  let s := set_dv (fill (dv s) 0%Qc) s in
  let s := set_pDensity (fill (pDensity s) 0%Qc) s in
  initParticles fuel s.

(** With [spacing = 0] the source goes on with [Infinity] or [NaN] (it
    then throws [RangeError] or returns a state of [NaN] dimensions and
    empty arrays); here both are [Err NotRational]. *)
Definition construct (fuel : nat) (width height spacing : Qc) : outcome t :=
  qx ← js_div width spacing;
  let fNumX := Math_floor qx + 1 in
  qy ← js_div height spacing;
  let fNumY := Math_floor qy + 1 in
  let uSize := (fNumX + 1) * fNumY in
  let vSize := fNumX * (fNumY + 1) in
  let cellSize := fNumX * fNumY in
  u ← alloc uSize 0%Qc;
  v ← alloc vSize 0%Qc;
  du ← alloc uSize 0%Qc;
  dv ← alloc vSize 0%Qc;
  uNew ← alloc uSize 0%Qc;
  vNew ← alloc vSize 0%Qc;
  uWeight ← alloc uSize 0%Qc;
  vWeight ← alloc vSize 0%Qc;
  pDensity ← alloc cellSize 0%Qc;
  cellType ← alloc cellSize FLUID;
  let s := mk (Qc_of_Z 1000) (Qc_of_Z 2500) (lit 19 10) fNumX fNumY spacing
              u v du dv uNew vNew uWeight vWeight pDensity cellType [] 0%Qc in
  initParticles fuel (initGrid s).

End Math.

End FluidSim.

(** ** The animation frame of [src/App.tsx]

    The simulation part of [render]: ten sub-steps of [dt / 10] with
    [dt = 1 / 10], then the splash while the mouse button is down
    ([mouse] holds [x], [y], [prevX], [prevY]).  Drawing is not modelled,
    and the [isNaN] test that resets the simulation has nothing to detect
    in rational positions. *)

Module App.

Section Frame.

Variable Math_sin : Qc -> Qc.
Variable Math_sqrt : Qc -> Qc.


End Frame.

End App.
(** ** Shape of a simulation state *)

Module Shape.
Import FluidSim.

(** The arrays have the sizes the constructor gives them. *)
Definition grid_shaped (s : t) : Prop :=
  Z.of_nat (length (u s)) = (fNumX s + 1) * fNumY s /\
  Z.of_nat (length (v s)) = fNumX s * (fNumY s + 1) /\
  length (uWeight s) = length (u s) /\
  length (vWeight s) = length (v s) /\
  length (du s) = length (u s) /\
  length (dv s) = length (v s) /\
  Z.of_nat (length (pDensity s)) = fNumX s * fNumY s /\
  Z.of_nat (length (cellType s)) = fNumX s * fNumY s.

(** Cell [(i, j)] lies in the grid and is classified solid. *)
Definition cell_solid (s : t) (i j : Z) : Prop :=
  0 <= i < fNumX s /\ 0 <= j < fNumY s /\ is_solid s (getCellIndex s i j) = true.

(** The four staggered faces of cell [(i, j)] hold 0. *)
Definition faces_zero (s : t) (i j : Z) : Prop :=
  at_ (u s) (getUIndex s i j) = Some 0%Qc /\
  at_ (u s) (getUIndex s (i + 1) j) = Some 0%Qc /\
  at_ (v s) (getVIndex s i j) = Some 0%Qc /\
  at_ (v s) (getVIndex s i (j + 1)) = Some 0%Qc.

(** What the grid phases leave alone: dimensions, classification,
    particles and the lengths of the face arrays. *)
Definition same_grid (s s' : t) : Prop :=
  fNumX s' = fNumX s /\ fNumY s' = fNumY s /\ h s' = h s /\
  cellType s' = cellType s /\ particles s' = particles s /\
  length (u s') = length (u s) /\ length (v s') = length (v s) /\
  length (uWeight s') = length (uWeight s) /\
  length (vWeight s') = length (vWeight s) /\
  du s' = du s /\ dv s' = dv s /\ length (pDensity s') = length (pDensity s).


Definition u_face_of_solid (s : t) (k : Z) : Prop :=
  exists i j, cell_solid s i j /\ (k = getUIndex s i j \/ k = getUIndex s (i + 1) j).
Definition v_face_of_solid (s : t) (k : Z) : Prop :=
  exists i j, cell_solid s i j /\ (k = getVIndex s i j \/ k = getVIndex s i (j + 1)).

(** Every face is either untouched or zeroed on behalf of a solid cell. *)
Definition enforced (s s' : t) : Prop :=
  (forall k, at_ (u s') k = at_ (u s) k \/
             (at_ (u s') k = Some 0%Qc /\ u_face_of_solid s k)) /\
  (forall k, at_ (v s') k = at_ (v s) k \/
             (at_ (v s') k = Some 0%Qc /\ v_face_of_solid s k)).

Definition weights_ok (g w : list Qc) : Prop :=
  length g = length w /\
  forall k wk, at_ w k = Some wk ->
    (0 <= wk)%Qc /\ (wk = 0%Qc -> at_ g k = Some 0%Qc).

Definition uniform (c : Qc) (g w : list Qc) : Prop :=
  length g = length w /\
  forall k wk, at_ w k = Some wk -> at_ g k = Some (c * wk)%Qc.

Definition normalized (grid weight : list Qc) (k : Z) : option Qc :=
  match at_ grid k with
  | Some g =>
      match at_ weight k with
      | Some w => if decide (0 < w)%Qc then Some (g / w)%Qc else Some g
      | None => Some g
      end
  | None => None
  end.

Definition cleared (s : t) : t :=
  set_vWeight (fill (vWeight s) 0%Qc) (set_uWeight (fill (uWeight s) 0%Qc)
    (set_v (fill (v s) 0%Qc) (set_u (fill (u s) 0%Qc) s))).

(** What the pressure solve leaves alone. *)
Definition solver_frame (s s' : t) : Prop :=
  fNumX s' = fNumX s /\ fNumY s' = fNumY s /\ h s' = h s /\
  overRelaxation s' = overRelaxation s /\
  cellType s' = cellType s /\ particles s' = particles s /\
  pDensity s' = pDensity s /\ du s' = du s /\ dv s' = dv s /\
  length (u s') = length (u s) /\ length (v s') = length (v s).

(** Faces a relaxation of cell [(i, j)] may write. *)
Definition relaxed (i j : Z) (s s' : t) : Prop :=
  (forall k, at_ (u s') k = at_ (u s) k \/
     (is_solid s (i + j * fNumX s) = false /\
      ((k = i + j * (fNumX s + 1) /\ is_solid s (i - 1 + j * fNumX s) = false) \/
       (k = i + 1 + j * (fNumX s + 1) /\ is_solid s (i + 1 + j * fNumX s) = false)))) /\
  (forall k, at_ (v s') k = at_ (v s) k \/
     (is_solid s (i + j * fNumX s) = false /\
      ((k = i + j * fNumX s /\ is_solid s (i + (j - 1) * fNumX s) = false) \/
       (k = i + (j + 1) * fNumX s /\ is_solid s (i + (j + 1) * fNumX s) = false)))).

(** No interior cell is entitled to write the [u] face (resp. [v] face)
    with index [k]. *)
Definition u_protected (s : t) (k : Z) : Prop :=
  forall i j, 1 <= i < fNumX s - 1 -> 1 <= j < fNumY s - 1 ->
    is_solid s (i + j * fNumX s) = false ->
    ~ ((k = i + j * (fNumX s + 1) /\ is_solid s (i - 1 + j * fNumX s) = false) \/
       (k = i + 1 + j * (fNumX s + 1) /\ is_solid s (i + 1 + j * fNumX s) = false)).

Definition v_protected (s : t) (k : Z) : Prop :=
  forall i j, 1 <= i < fNumX s - 1 -> 1 <= j < fNumY s - 1 ->
    is_solid s (i + j * fNumX s) = false ->
    ~ ((k = i + j * fNumX s /\ is_solid s (i + (j - 1) * fNumX s) = false) \/
       (k = i + (j + 1) * fNumX s /\ is_solid s (i + (j + 1) * fNumX s) = false)).

Definition kept (s : t) (t0 : t) : Prop :=
  solver_frame s t0 /\
  (forall k, u_protected s k -> at_ (u t0) k = at_ (u s) k) /\
  (forall k, v_protected s k -> at_ (v t0) k = at_ (v s) k).

Definition correctionGain : Qc := 1%Qc.

Definition non_solid (s : t) (i j : Z) : bool := negb (is_solid s (getCellIndex s i j)).

(** Number of non-solid cells among the four neighbours of [(i, j)]. *)
Definition neighborCount (s : t) (i j : Z) : Z :=
  Z.of_nat (length (filter (fun c => non_solid s c.1 c.2 = true)
                      [(i - 1, j); (i + 1, j); (i, j - 1); (i, j + 1)])).

(** Add [d] to a face if the neighbour across it is non-solid. *)
Definition gated (open : bool) (a : list Qc) (k : Z) (d : Qc) : list Qc :=
  if open then upd_at a k (fun x => x + d)%Qc else a.

Definition relaxation_update (j i : Z) (s : t) : outcome t :=
  leftFace ← rd (u s) (getUIndex s i j);
  rightFace ← rd (u s) (getUIndex s (i + 1) j);
  bottomFace ← rd (v s) (getVIndex s i j);
  topFace ← rd (v s) (getVIndex s i (j + 1));
  let divergence := ((rightFace - leftFace) + (topFace - bottomFace))%Qc in
  let density := default 0%Qc (at_ (pDensity s) (getCellIndex s i j)) in
  let adjusted :=
    (divergence - Math_max 0 (density - restDensity) * correctionGain)%Qc in
  let count := neighborCount s i j in
  if bool_decide ((Math_abs adjusted < epsilon)%Qc \/ count = 0) then Ok s else
  let flux := (- (adjusted * overRelaxation s) / Qc_of_Z count)%Qc in
  let u1 := gated (non_solid s (i - 1) j) (u s) (getUIndex s i j) (- flux)%Qc in
  let u2 := gated (non_solid s (i + 1) j) u1 (getUIndex s (i + 1) j) flux in
  let v1 := gated (non_solid s i (j - 1)) (v s) (getVIndex s i j) (- flux)%Qc in
  let v2 := gated (non_solid s i (j + 1)) v1 (getVIndex s i (j + 1)) flux in
  Ok (set_v v2 (set_u u2 s)).

(** The interior cells in the order of the sweep. *)
Definition interior_cells (s : t) : list (Z * Z) :=
  j ← seqZ 1 (fNumY s - 2); i ← seqZ 1 (fNumX s - 2); [(j, i)].

Definition relax (c : Z * Z) (s : t) : outcome t :=
  if non_solid s c.2 c.1 then relaxation_update c.1 c.2 s else Ok s.

Fixpoint visitM {A S : Type} (body : A -> S -> outcome S) (l : list A) (s : S)
  : outcome S :=
  match l with
  | [] => Ok s
  | a :: l' => s' ← body a s; visitM body l' s'
  end.

Definition sweep_spec (s : t) : outcome t := visitM relax (interior_cells s) s.

(** [p'] is the FLIP/PIC blend of [p] over the grids of [s]. *)
Definition blended (flipRatio : Qc) (s : t) (p p' : Particle.t) : Prop :=
  exists uPIC vPIC uOld vOld,
    sampleGrid s (Particle.x p) (Particle.y p) (u s) 0%Qc (lit 1 2)
      (fNumX s + 1) (fNumY s) = Ok uPIC /\
    sampleGrid s (Particle.x p) (Particle.y p) (v s) (lit 1 2) 0%Qc
      (fNumX s) (fNumY s + 1) = Ok vPIC /\
    sampleGrid s (Particle.x p) (Particle.y p) (du s) 0%Qc (lit 1 2)
      (fNumX s + 1) (fNumY s) = Ok uOld /\
    sampleGrid s (Particle.x p) (Particle.y p) (dv s) (lit 1 2) 0%Qc
      (fNumX s) (fNumY s + 1) = Ok vOld /\
    Particle.x p' = Particle.x p /\ Particle.y p' = Particle.y p /\
    Particle.u p' =
      (flipRatio * (Particle.u p + (uPIC - uOld)) + (1 - flipRatio) * uPIC)%Qc /\
    Particle.v p' =
      (flipRatio * (Particle.v p + (vPIC - vOld)) + (1 - flipRatio) * vPIC)%Qc.

(** The four array slots of a bilinear stencil. *)
Definition stencil_nodes (c : stencil) (cols : Z) : list Z :=
  [st_idx c; st_idx c + 1; st_idx c + cols; st_idx c + cols + 1].

(** Only the particle list differs. *)
Definition particles_only (s s' : t) : Prop := s' = set_particles (particles s') s.

(** An executable square root on the rationals: exact on squares,
    rounded down to a multiple of the denominator's inverse otherwise. *)
Definition Qc_sqrt (q : Qc) : Qc :=
  Q2Qc (Z.sqrt (Qnum q * Zpos (Qden q)) # Qden q).

(** A state with the arrays of the constructor, a given cell size and a
    given particle list. *)
Definition fixture (X Y : Z) (cell : Qc) (ps : list Particle.t) : t :=
  let uSize := Z.to_nat ((X + 1) * Y) in
  let vSize := Z.to_nat (X * (Y + 1)) in
  let cellSize := Z.to_nat (X * Y) in
  set_particles ps
    (initGrid
       (mk (Qc_of_Z 1000) (Qc_of_Z 2500) (lit 19 10) X Y cell
          (replicate uSize 0%Qc) (replicate vSize 0%Qc)
          (replicate uSize 0%Qc) (replicate vSize 0%Qc)
          (replicate uSize 0%Qc) (replicate vSize 0%Qc)
          (replicate uSize 0%Qc) (replicate vSize 0%Qc)
          (replicate cellSize 0%Qc) (replicate cellSize FLUID) [] 0%Qc)).

(** Two particles at [(0, 0)] and [(0, r/2)] in a one-cell grid of cell
    size [r]. *)
Definition pair_state (r : Qc) : t :=
  fixture 1 1 r [Particle.new 0%Qc 0%Qc; Particle.new 0%Qc (r * lit 1 2)%Qc].

Definition Qc_of_nat (n : nat) : Qc := Qc_of_Z (Z.of_nat n).

Definition ring_type (s : t) (i j : Z) : CellType :=
  if bool_decide (i = 0 \/ i = fNumX s - 1 \/ j = 0 \/ j = fNumY s - 1)
  then SOLID else AIR.

Definition grid_frame (s s' : t) : Prop :=
  s' = set_cellType (cellType s') s /\ length (cellType s') = length (cellType s).

(** The state the constructor hands to [initGrid]. *)
Definition blank (X Y : Z) (cell : Qc) : t :=
  let uSize := Z.to_nat ((X + 1) * Y) in
  let vSize := Z.to_nat (X * (Y + 1)) in
  let cellSize := Z.to_nat (X * Y) in
  mk (Qc_of_Z 1000) (Qc_of_Z 2500) (lit 19 10) X Y cell
     (replicate uSize 0%Qc) (replicate vSize 0%Qc)
     (replicate uSize 0%Qc) (replicate vSize 0%Qc)
     (replicate uSize 0%Qc) (replicate vSize 0%Qc)
     (replicate uSize 0%Qc) (replicate vSize 0%Qc)
     (replicate cellSize 0%Qc) (replicate cellSize FLUID) [] 0%Qc.

(** States the public operations produce, starting from the constructor;
    the pages also assign the field [gravity]. *)
Inductive reachable (Math_sin Math_sqrt : Qc -> Qc) : t -> Prop :=
  | reach_construct rnd fuel width height spacing s :
      construct rnd fuel width height spacing = Ok s ->
      reachable Math_sin Math_sqrt s
  | reach_gravity g s :
      reachable Math_sin Math_sqrt s ->
      reachable Math_sin Math_sqrt (set_gravity g s)
  | reach_integrate dt s s' :
      reachable Math_sin Math_sqrt s ->
      integrate Math_sin Math_sqrt dt s = Ok s' ->
      reachable Math_sin Math_sqrt s'
  | reach_force x0 y0 vx vy radius s s' :
      reachable Math_sin Math_sqrt s ->
      addExternalForce Math_sqrt x0 y0 vx vy radius s = Ok s' ->
      reachable Math_sin Math_sqrt s'
  | reach_reset rnd fuel s s' :
      reachable Math_sin Math_sqrt s ->
      reset rnd fuel s = Ok s' ->
      reachable Math_sin Math_sqrt s'.

(** Particles exist only in a grid of positive cell size with more than
    four columns and two rows. *)
Definition seeded (s : t) : Prop :=
  particles s = [] \/ ((0 < h s)%Qc /\ 4 < fNumX s /\ 2 < fNumY s).

(** The box the wall clamp keeps particles in is not empty. *)
Definition walls_apart (s : t) : Prop :=
  let buffer := (h s * lit 11 10)%Qc in
  let width := (Qc_of_Z (fNumX s) * h s)%Qc in
  let height := (Qc_of_Z (fNumY s) * h s)%Qc in
  (buffer <= width - buffer)%Qc /\ (buffer <= height - buffer)%Qc.

(** [p] lies in the box the wall clamp keeps particles in. *)
Definition within_walls (s : t) (p : Particle.t) : Prop :=
  let buffer := (h s * lit 11 10)%Qc in
  let width := (Qc_of_Z (fNumX s) * h s)%Qc in
  let height := (Qc_of_Z (fNumY s) * h s)%Qc in
  (buffer <= Particle.x p)%Qc /\ (Particle.x p <= width - buffer)%Qc /\
  (buffer <= Particle.y p)%Qc /\ (Particle.y p <= height - buffer)%Qc.

Definition demo_sin (x : Qc) : Qc := x.
Definition demo_random (k : nat) : Qc := lit 1 4.

Definition unwrap (o : outcome t) : t :=
  match o with Ok s => s | Err _ => blank 0 0 0%Qc end.

(** [new FluidSim(45, 25, 10)]: a 5 x 3 grid seeded with two particles. *)
Definition demo : t :=
  Eval vm_compute in
    unwrap (construct demo_random 10 (lit 45 1) (lit 25 1) (lit 10 1)).

Definition demo_step : t :=
  Eval vm_compute in unwrap (integrate demo_sin Qc_sqrt (lit 1 100) demo).

(** The same grid after [sim.gravity = 1000] and a step long enough for
    the particles to hit the floor. *)
Definition demo_heavy : t := set_gravity (Qc_of_Z 1000) demo.

Definition demo_fall : t :=
  Eval vm_compute in unwrap (integrate demo_sin Qc_sqrt (lit 1 10) demo_heavy).

Definition demo_transfer : t :=
  Eval vm_compute in unwrap (transferParticlesToGrid demo).

Definition demo_solved : t :=
  Eval vm_compute in unwrap (solveIncompressibility demo_transfer).

(** One particle of velocity [(3, -2)] in the middle of a 6 x 6 grid. *)
Definition middle : t :=
  fixture 6 6 (lit 10 1)
    [Particle.mk (lit 65 2) (lit 65 2) (Qc_of_Z 3) (Qc_of_Z (-2))].

Definition middle_transfer : t :=
  Eval vm_compute in unwrap (transferParticlesToGrid middle).

(** The faces [enforceBoundaries] zeroes, as lists. *)
Definition solid_cells (s : t) : list (Z * Z) :=
  filter (fun c => is_solid s (getCellIndex s c.1 c.2) = true)
    (i ← seqZ 0 (fNumX s); j ← seqZ 0 (fNumY s); [(i, j)]).

Definition solid_u_faces (s : t) : list Z :=
  c ← solid_cells s; [getUIndex s c.1 c.2; getUIndex s (c.1 + 1) c.2].

Definition solid_v_faces (s : t) : list Z :=
  c ← solid_cells s; [getVIndex s c.1 c.2; getVIndex s c.1 (c.2 + 1)].


(** The arrays have the constructor's sizes, the cell size is not zero and
    the grid has at least two columns and two rows. *)
Definition well_formed (s : t) : Prop :=
  grid_shaped s /\ h s <> 0%Qc /\ 2 <= fNumX s /\ 2 <= fNumY s.

(** Only the face arrays [u] and [v] differ. *)
Definition faces_only (s s' : t) : Prop := s' = set_v (v s') (set_u (u s') s).

(** The constants, the dimensions, the classification and the scratch
    arrays [uNew]/[vNew] agree; the other arrays and the particle list
    have the same lengths. *)
Definition step_frame (s s' : t) : Prop :=
  density s' = density s /\ gravity s' = gravity s /\
  overRelaxation s' = overRelaxation s /\
  fNumX s' = fNumX s /\ fNumY s' = fNumY s /\ h s' = h s /\
  cellType s' = cellType s /\ uNew s' = uNew s /\ vNew s' = vNew s /\
  length (u s') = length (u s) /\ length (v s') = length (v s) /\
  length (du s') = length (du s) /\ length (dv s') = length (dv s) /\
  length (uWeight s') = length (uWeight s) /\
  length (vWeight s') = length (vWeight s) /\
  length (pDensity s') = length (pDensity s) /\
  length (particles s') = length (particles s).

(** Only the velocity arrays and their weights differ. *)
Definition velocity_only (s s' : t) : Prop :=
  s' = set_vWeight (vWeight s') (set_uWeight (uWeight s') (set_v (v s') (set_u (u s') s))).

(** [evolves s0 s]: [s] is obtained from [s0] by calls of [integrate],
    [addExternalForce] and [reset] and by assignments to [gravity]. *)
Inductive evolves (Math_sin Math_sqrt : Qc -> Qc) (s0 : t) : t -> Prop :=
  | evolves_refl : evolves Math_sin Math_sqrt s0 s0
  | evolves_gravity g s :
      evolves Math_sin Math_sqrt s0 s ->
      evolves Math_sin Math_sqrt s0 (set_gravity g s)
  | evolves_integrate dt s s' :
      evolves Math_sin Math_sqrt s0 s ->
      integrate Math_sin Math_sqrt dt s = Ok s' ->
      evolves Math_sin Math_sqrt s0 s'
  | evolves_force x0 y0 vx vy radius s s' :
      evolves Math_sin Math_sqrt s0 s ->
      addExternalForce Math_sqrt x0 y0 vx vy radius s = Ok s' ->
      evolves Math_sin Math_sqrt s0 s'
  | evolves_reset rnd fuel s s' :
      evolves Math_sin Math_sqrt s0 s ->
      reset rnd fuel s = Ok s' ->
      evolves Math_sin Math_sqrt s0 s'.

(** What the operations and an assignment to [gravity] never change:
    the other constants, the dimensions, the classification and the array
    sizes. *)
Definition same_setup (s s' : t) : Prop :=
  density s' = density s /\
  overRelaxation s' = overRelaxation s /\
  fNumX s' = fNumX s /\ fNumY s' = fNumY s /\ h s' = h s /\
  cellType s' = cellType s /\
  length (u s') = length (u s) /\ length (v s') = length (v s) /\
  length (du s') = length (du s) /\ length (dv s') = length (dv s) /\
  length (uNew s') = length (uNew s) /\ length (vNew s') = length (vNew s) /\
  length (uWeight s') = length (uWeight s) /\
  length (vWeight s') = length (vWeight s) /\
  length (pDensity s') = length (pDensity s).

(** The state [reset] hands to [initParticles]. *)
Definition zeroed (s : t) : t :=
  mk (density s) (gravity s) (overRelaxation s) (fNumX s) (fNumY s) (h s)
     (fill (u s) 0%Qc) (fill (v s) 0%Qc) (fill (du s) 0%Qc) (fill (dv s) 0%Qc)
     (fill (uNew s) 0%Qc) (fill (vNew s) 0%Qc)
     (fill (uWeight s) 0%Qc) (fill (vWeight s) 0%Qc)
     (fill (pDensity s) 0%Qc) (cellType s) (particles s) (totalTime s).

(** Sum of the entries of an array. *)
Definition total (a : list Qc) : Qc := foldr Qcplus 0%Qc a.

(** Sums of the particle coordinates. *)
Definition sum_x (ps : list Particle.t) : Qc := total (map Particle.x ps).
Definition sum_y (ps : list Particle.t) : Qc := total (map Particle.y ps).

(** The velocities of the particles, in order. *)
Definition velocities (ps : list Particle.t) : list (Qc * Qc) :=
  map (fun p => (Particle.u p, Particle.v p)) ps.

Definition balanced (ps ps' : list Particle.t) : Prop :=
  sum_x ps' = sum_x ps /\ sum_y ps' = sum_y ps /\ velocities ps' = velocities ps.

(** Every entry of the array lies in [[lo, hi]]. *)
Definition entries_between (lo hi : Qc) (a : list Qc) : Prop :=
  forall k x, at_ a k = Some x -> (lo <= x)%Qc /\ (x <= hi)%Qc.

(** Accumulated values stay between [lo] and [hi] times the accumulated
    weight. *)
Definition weighted_between (lo hi : Qc) (g w : list Qc) : Prop :=
  length g = length w /\
  forall k gk wk, at_ g k = Some gk -> at_ w k = Some wk ->
    (0 <= wk)%Qc /\ (lo * wk <= gk)%Qc /\ (gk <= hi * wk)%Qc.

(** Every entry is 0 or lies in [[lo, hi]]. *)
Definition zero_or_between (lo hi : Qc) (a : list Qc) : Prop :=
  forall k x, at_ a k = Some x -> x = 0%Qc \/ ((lo <= x)%Qc /\ (x <= hi)%Qc).

(** Both velocity components of the particle lie in [[lo, hi]]. *)
Definition velocity_between (lo hi : Qc) (p : Particle.t) : Prop :=
  ((lo <= Particle.u p)%Qc /\ (Particle.u p <= hi)%Qc) /\
  ((lo <= Particle.v p)%Qc /\ (Particle.v p <= hi)%Qc).

(** The divergence of cell [(i, j)] less the density correction, as
    [solveIncompressibility] computes it. *)
Definition cell_divergence (s : t) (i j : Z) : outcome Qc :=
  let cellIdx := i + j * fNumX s in
  let idxU := i + j * (fNumX s + 1) in
  let idxV := i + j * fNumX s in
  uLeft ← rd (u s) idxU;
  uRight ← rd (u s) (idxU + 1);
  vBot ← rd (v s) idxV;
  vTop ← rd (v s) (idxV + fNumX s);
  let div := (uRight - uLeft + (vTop - vBot))%Qc in
  let targetDiv :=
    match at_ (pDensity s) cellIdx with
    | Some density =>
        if decide (restDensity < density)%Qc
        then (kDensity * (density - restDensity))%Qc else 0%Qc
    | None => 0%Qc
    end in
  Ok (div - targetDiv)%Qc.

(** Number of non-solid cells among the four neighbours of [(i, j)]. *)
Definition open_neighbours (s : t) (i j : Z) : Z :=
  open_flag s (i - 1 + j * fNumX s) + open_flag s (i + 1 + j * fNumX s) +
  open_flag s (i + (j - 1) * fNumX s) + open_flag s (i + (j + 1) * fNumX s).

(** Every cell of the grid is classified as [initGrid] does: the outer
    ring solid, the rest air. *)
Definition ring_classified (s : t) : Prop :=
  forall i j, 0 <= i < fNumX s -> 0 <= j < fNumY s ->
    at_ (cellType s) (getCellIndex s i j) = Some (ring_type s i j).

(** What [addExternalForce] may do to one particle: the position is kept,
    and outside the radius the velocity is kept too. *)
Definition pushed (x0 y0 radius : Qc) (p p' : Particle.t) : Prop :=
  let dx := (Particle.x p - x0)%Qc in
  let dy := (Particle.y p - y0)%Qc in
  Particle.x p' = Particle.x p /\ Particle.y p' = Particle.y p /\
  ((radius * radius <= dx * dx + dy * dy)%Qc -> p' = p).


Definition at_rest (p : Particle.t) : Prop :=
  Particle.u p = 0%Qc /\ Particle.v p = 0%Qc.

(** Two overlapping particles after one separation pass. *)
Definition pair_separated : t :=
  Eval vm_compute in unwrap (separateParticles Qc_sqrt (pair_state (lit 10 1))).


(** [middle_transfer] after the relaxation of cell [(2, 3)]. *)
Definition middle_relaxed : t :=
  Eval vm_compute in unwrap (solve_cell 3 2 middle_transfer).

End Shape.

#[export] Existing Instance Particle.eq_dec.

#[export] Instance FluidSim_eq_dec : EqDecision FluidSim.t.
Proof. solve_decision. Defined.

#[export] Instance stencil_eq_dec : EqDecision FluidSim.stencil.
Proof. solve_decision. Defined.

#[export] Instance error_eq_dec : EqDecision error.
Proof. solve_decision. Defined.

#[export] Instance outcome_eq_dec {A} `{EqDecision A} : EqDecision (outcome A).
Proof. solve_decision. Defined.

(** * Properties *)

Import FluidSim Shape.

(** ** Loops and outcomes *)

Lemma bind_Ok {A B} (m : outcome A) (f : A -> outcome B) b :
  m ≫= f = Ok b -> exists a, m = Ok a /\ f a = Ok b.
Proof. destruct m; simpl; eauto. discriminate. Qed.

Lemma foldl_seqZ_ind {S} (P : Z -> S -> Prop) (body : Z -> S -> S) (n : nat) :
  forall lo s,
  P lo s ->
  (forall k t, lo <= k < lo + Z.of_nat n -> P k t -> P (k + 1) (body k t)) ->
  P (lo + Z.of_nat n) (foldl (fun acc k => body k acc) s (seqZ lo (Z.of_nat n))).
Proof.
  induction n as [|n IH]; intros lo s H0 Hstep.
  - simpl. by rewrite Z.add_0_r.
  - rewrite Nat2Z.inj_succ, seqZ_cons by lia. simpl.
    replace (Z.pred (Z.succ (Z.of_nat n))) with (Z.of_nat n) by lia.
    replace (lo + Z.succ (Z.of_nat n)) with (Z.succ lo + Z.of_nat n) by lia.
    apply IH.
    + replace (Z.succ lo) with (lo + 1) by lia. apply Hstep; [lia|done].
    + intros k t Hk. apply Hstep. lia.
Qed.

Lemma forZ_ind {S} (P : Z -> S -> Prop) lo hi body (s : S) :
  lo <= hi ->
  P lo s ->
  (forall k t, lo <= k < hi -> P k t -> P (k + 1) (body k t)) ->
  P hi (forZ lo hi body s).
Proof.
  intros Hle H0 Hstep. unfold forZ.
  assert (exists n : nat, hi = lo + Z.of_nat n) as [n ->]
    by (exists (Z.to_nat (hi - lo)); lia).
  replace (lo + Z.of_nat n - lo) with (Z.of_nat n) by lia.
  by apply foldl_seqZ_ind.
Qed.

Lemma iterM_seqZ_ind {S} (P : Z -> S -> Prop) (body : Z -> S -> outcome S) (n : nat) :
  forall lo s s',
  P lo s ->
  (forall k t t', lo <= k < lo + Z.of_nat n -> P k t -> body k t = Ok t' -> P (k + 1) t') ->
  iterM body (seqZ lo (Z.of_nat n)) s = Ok s' ->
  P (lo + Z.of_nat n) s'.
Proof.
  induction n as [|n IH]; intros lo s s' H0 Hstep.
  - simpl. rewrite Z.add_0_r. congruence.
  - rewrite Nat2Z.inj_succ, seqZ_cons by lia. simpl.
    replace (Z.pred (Z.succ (Z.of_nat n))) with (Z.of_nat n) by lia.
    replace (lo + Z.succ (Z.of_nat n)) with (Z.succ lo + Z.of_nat n) by lia.
    intros Hb. apply bind_Ok in Hb as (t & Hb1 & Hb2).
    apply (IH (Z.succ lo) t); [| |done].
    + replace (Z.succ lo) with (lo + 1) by lia. eapply Hstep; [|done|done]. lia.
    + intros k t0 t1 Hk. apply Hstep. lia.
Qed.

Lemma forZM_ind {S} (P : Z -> S -> Prop) lo hi body (s s' : S) :
  lo <= hi ->
  P lo s ->
  (forall k t t', lo <= k < hi -> P k t -> body k t = Ok t' -> P (k + 1) t') ->
  forZM lo hi body s = Ok s' ->
  P hi s'.
Proof.
  intros Hle H0 Hstep. unfold forZM.
  assert (exists n : nat, hi = lo + Z.of_nat n) as [n ->]
    by (exists (Z.to_nat (hi - lo)); lia).
  replace (lo + Z.of_nat n - lo) with (Z.of_nat n) by lia.
  by apply iterM_seqZ_ind.
Qed.

Lemma iterM_seqZ_total {S} (P : Z -> S -> Prop) (body : Z -> S -> outcome S) (n : nat) :
  forall lo s,
  P lo s ->
  (forall k t, lo <= k < lo + Z.of_nat n -> P k t ->
     exists t', body k t = Ok t' /\ P (k + 1) t') ->
  exists s', iterM body (seqZ lo (Z.of_nat n)) s = Ok s' /\ P (lo + Z.of_nat n) s'.
Proof.
  induction n as [|n IH]; intros lo s H0 Hstep.
  - simpl. rewrite Z.add_0_r. eauto.
  - rewrite Nat2Z.inj_succ, seqZ_cons by lia. simpl.
    replace (Z.pred (Z.succ (Z.of_nat n))) with (Z.of_nat n) by lia.
    replace (lo + Z.succ (Z.of_nat n)) with (Z.succ lo + Z.of_nat n) by lia.
    destruct (Hstep lo s) as (t & Ht & HP); [lia|done|].
    rewrite Ht. simpl. apply IH.
    + by replace (Z.succ lo) with (lo + 1) by lia.
    + intros k t0 Hk. apply Hstep. lia.
Qed.

Lemma forZM_total {S} (P : Z -> S -> Prop) lo hi body (s : S) :
  lo <= hi ->
  P lo s ->
  (forall k t, lo <= k < hi -> P k t -> exists t', body k t = Ok t' /\ P (k + 1) t') ->
  exists s', forZM lo hi body s = Ok s' /\ P hi s'.
Proof.
  intros Hle H0 Hstep. unfold forZM.
  assert (exists n : nat, hi = lo + Z.of_nat n) as [n ->]
    by (exists (Z.to_nat (hi - lo)); lia).
  replace (lo + Z.of_nat n - lo) with (Z.of_nat n) by lia.
  by apply iterM_seqZ_total.
Qed.

Lemma forZ_empty {S} lo hi body (s : S) : hi <= lo -> forZ lo hi body s = s.
Proof. intros. unfold forZ. rewrite seqZ_nil by lia. done. Qed.
Lemma forZM_empty {S} lo hi body (s : S) : hi <= lo -> forZM lo hi body s = Ok s.
Proof. intros. unfold forZM. rewrite seqZ_nil by lia. done. Qed.

(** Invariants that do not mention the loop index. *)
Lemma forZ_inv {S} (P : S -> Prop) lo hi body (s : S) :
  P s -> (forall k t, lo <= k < hi -> P t -> P (body k t)) -> P (forZ lo hi body s).
Proof.
  intros H0 Hstep. destruct (decide (lo <= hi)).
  - apply (forZ_ind (fun _ => P)); auto.
  - rewrite forZ_empty by lia. done.
Qed.
Lemma forZM_inv {S} (P : S -> Prop) lo hi body (s s' : S) :
  P s -> (forall k t t', lo <= k < hi -> P t -> body k t = Ok t' -> P t') ->
  forZM lo hi body s = Ok s' -> P s'.
Proof.
  intros H0 Hstep. destruct (decide (lo <= hi)).
  - apply (forZM_ind (fun _ => P)); auto.
  - rewrite forZM_empty by lia. congruence.
Qed.
Lemma forZM_tot {S} (P : S -> Prop) lo hi body (s : S) :
  P s -> (forall k t, lo <= k < hi -> P t -> exists t', body k t = Ok t' /\ P t') ->
  exists s', forZM lo hi body s = Ok s' /\ P s'.
Proof.
  intros H0 Hstep. destruct (decide (lo <= hi)).
  - apply (forZM_total (fun _ => P)); auto.
  - rewrite forZM_empty by lia. eauto.
Qed.

(** *** Arrays *)
Lemma at_lt {A} (a : list A) i x : at_ a i = Some x -> 0 <= i < Z.of_nat (length a).
Proof.
  unfold at_. case_decide; [|done]. intros Hx%lookup_lt_Some. lia.
Qed.
Lemma at_is_Some {A} (a : list A) i : 0 <= i < Z.of_nat (length a) -> is_Some (at_ a i).
Proof.
  intros. unfold at_. rewrite decide_True by lia. apply lookup_lt_is_Some. lia.
Qed.
Lemma at_None {A} (a : list A) i : ~ (0 <= i < Z.of_nat (length a)) -> at_ a i = None.
Proof.
  intros. unfold at_. case_decide; [|done]. apply lookup_ge_None. lia.
Qed.
Lemma length_wr {A} (a : list A) i x : length (wr a i x) = length a.
Proof. unfold wr. case_decide; [apply length_insert|done]. Qed.
Lemma at_wr_eq {A} (a : list A) i x :
  0 <= i < Z.of_nat (length a) -> at_ (wr a i x) i = Some x.
Proof.
  intros. unfold at_, wr. rewrite !decide_True by lia.
  apply list_lookup_insert_eq. lia.
Qed.
Lemma at_wr_ne {A} (a : list A) i j x : i <> j -> at_ (wr a i x) j = at_ a j.
Proof.
  intros. unfold at_, wr. repeat case_decide; try done.
  apply list_lookup_insert_ne. lia.
Qed.
Lemma at_wr {A} (a : list A) i j x :
  at_ (wr a i x) j =
  if decide (i = j /\ 0 <= i < Z.of_nat (length a)) then Some x else at_ a j.
Proof.
  case_decide as Hd.
  - destruct Hd as [-> ?]. by apply at_wr_eq.
  - destruct (decide (i = j)) as [->|]; [|by apply at_wr_ne].
    rewrite !at_None; [done|lia|rewrite length_wr; lia].
Qed.
Lemma length_upd_at {A} (a : list A) i f : length (upd_at a i f) = length a.
Proof. unfold upd_at. destruct (at_ a i); [apply length_wr|done]. Qed.
Lemma at_upd_at {A} (a : list A) i j f :
  at_ (upd_at a i f) j = if decide (i = j) then f <$> at_ a j else at_ a j.
Proof.
  unfold upd_at. destruct (at_ a i) as [x|] eqn:E.
  - rewrite at_wr. apply at_lt in E as Hr.
    destruct (decide (i = j)) as [->|Hne].
    + rewrite decide_True by done. by rewrite E.
    + rewrite decide_False by tauto. done.
  - case_decide; [subst; by rewrite E|done].
Qed.
Lemma length_fill {A} (a : list A) x : length (fill a x) = length a.
Proof. apply length_replicate. Qed.
Lemma at_fill {A} (a : list A) x i y : at_ (fill a x) i = Some y -> y = x.
Proof.
  unfold at_, fill. case_decide; [|done]. intros [? ?]%lookup_replicate. done.
Qed.


(** ** Rational arithmetic *)

Lemma Qc_eq_Qeq (a b : Qc) : a = b <-> (this a == this b)%Q.
Proof. split; [by intros ->|apply Qc_is_canon]. Qed.

Ltac qc_unfold :=
  unfold Qcle, Qclt, Qcminus, Qcdiv, Qcinv, Qcplus, Qcopp, Qcmult, Qc_of_Z, lit,
    Q2Qc in *;
  cbn [this] in *;
  repeat match goal with
  | H : context [Qred _] |- _ => rewrite Qred_correct in H
  | |- context [Qred _] => rewrite Qred_correct
  end;
  repeat match goal with
  | |- context [inject_Z 0] => change (inject_Z 0) with 0%Q in *
  | H : context [inject_Z 0] |- _ => change (inject_Z 0) with 0%Q in *
  | |- context [inject_Z (Zpos ?p)] => change (inject_Z (Zpos p)) with (Zpos p # 1) in *
  | H : context [inject_Z (Zpos ?p)] |- _ =>
      change (inject_Z (Zpos p)) with (Zpos p # 1) in *
  | |- context [inject_Z (Zneg ?p)] => change (inject_Z (Zneg p)) with (Zneg p # 1) in *
  | H : context [inject_Z (Zneg ?p)] |- _ =>
      change (inject_Z (Zneg p)) with (Zneg p # 1) in *
  | |- context [inject_Z ?z] =>
      let q := fresh "q" in set (q := inject_Z z) in *; clearbody q
  | H : context [inject_Z ?z] |- _ =>
      let q := fresh "q" in set (q := inject_Z z) in *; clearbody q
  end.

Ltac qc_lra :=
  repeat match goal with
  | H : @eq Qc _ _ |- _ => apply Qc_eq_Qeq in H
  | H : ~ @eq Qc _ _ |- _ => rewrite Qc_eq_Qeq in H
  | |- @eq Qc _ _ => apply Qc_eq_Qeq
  | |- ~ @eq Qc _ _ => rewrite Qc_eq_Qeq
  end;
  qc_unfold;
  repeat match goal with
  | x : ?T |- _ =>
      lazymatch type of T with
      | Prop => fail
      | _ => clear x
      end
  end;
  first [lra | nra].

Ltac qc_field := apply Qc_eq_Qeq; qc_unfold; field.

Lemma floor_frac (g : Qc) :
  (0 <= g - Qc_of_Z (Math_floor g))%Qc /\ (g - Qc_of_Z (Math_floor g) < 1)%Qc.
Proof.
  unfold Math_floor.
  pose proof (Qfloor_le g) as H1. pose proof (Qlt_floor g) as H2.
  rewrite inject_Z_plus in H2.
  split; qc_lra.
Qed.

(** ** Boundary enforcement *)

Lemma same_grid_refl s : same_grid s s.
Proof. by repeat split. Qed.

Lemma same_grid_trans s1 s2 s3 : same_grid s1 s2 -> same_grid s2 s3 -> same_grid s1 s3.
Proof.
  unfold same_grid. intros (?&?&?&?&?&?&?&?&?&?&?&?) (?&?&?&?&?&?&?&?&?&?&?&?).
  repeat split; congruence.
Qed.

Lemma enforce_cell_same i j s : same_grid s (enforce_cell i j s).
Proof.
  unfold enforce_cell. destruct (is_solid s _); [|apply same_grid_refl].
  repeat split; simpl; rewrite ?length_wr; done.
Qed.

Lemma enforce_cell_weights i j s :
  uWeight (enforce_cell i j s) = uWeight s /\ vWeight (enforce_cell i j s) = vWeight s.
Proof. unfold enforce_cell. by destruct (is_solid s _). Qed.



Lemma cell_solid_same s s' i j : same_grid s s' -> cell_solid s i j <-> cell_solid s' i j.
Proof.
  unfold same_grid, cell_solid, is_solid, getCellIndex.
  intros (->&->&?&->&?). done.
Qed.

Lemma grid_shaped_same s s' : same_grid s s' -> grid_shaped s -> grid_shaped s'.
Proof.
  unfold same_grid, grid_shaped.
  intros (?&?&?&?&?&?&?&?&?&?&?&?) (?&?&?&?&?&?&?&?).
  repeat split; congruence.
Qed.

Lemma enforced_refl s : enforced s s.
Proof. split; intros k; by left. Qed.

Lemma enforced_trans s1 s2 s3 :
  same_grid s1 s2 -> enforced s1 s2 -> enforced s2 s3 -> enforced s1 s3.
Proof.
  intros Hsame [Hu1 Hv1] [Hu2 Hv2].
  assert (Hx : fNumX s2 = fNumX s1) by apply Hsame.
  split; intros k.
  - destruct (Hu2 k) as [->|[Hz (i & j & Hs & Hk)]]; [apply Hu1|].
    right. split; [done|]. exists i, j. split; [by apply (cell_solid_same s1 s2)|].
    unfold getUIndex in *. by rewrite <-Hx.
  - destruct (Hv2 k) as [->|[Hz (i & j & Hs & Hk)]]; [apply Hv1|].
    right. split; [done|]. exists i, j. split; [by apply (cell_solid_same s1 s2)|].
    unfold getVIndex in *. by rewrite <-Hx.
Qed.

Lemma enforce_cell_effect i j s :
  0 <= i < fNumX s -> 0 <= j < fNumY s -> enforced s (enforce_cell i j s).
Proof.
  intros Hi Hj. unfold enforce_cell.
  destruct (is_solid s _) eqn:Hs; [|apply enforced_refl].
  assert (Hc : cell_solid s i j) by done.
  split; intros k; simpl; rewrite !at_wr; repeat case_decide;
    try (by left); right; (split; [done|]); exists i, j; (split; [done|]);
    unfold getUIndex, getVIndex; lia.
Qed.

Lemma enforce_cell_zeroes i j s :
  grid_shaped s -> cell_solid s i j -> faces_zero (enforce_cell i j s) i j.
Proof.
  intros (Hu & Hv & _) (Hi & Hj & Hs).
  unfold getCellIndex in Hs.
  unfold faces_zero, getUIndex, getVIndex, enforce_cell. rewrite Hs. simpl.
  rewrite !at_wr, ?length_wr.
  repeat split; repeat case_decide; try done; exfalso; nia.
Qed.

Lemma enforced_keeps_zero s s' :
  enforced s s' ->
  (forall k, at_ (u s) k = Some 0%Qc -> at_ (u s') k = Some 0%Qc) /\
  (forall k, at_ (v s) k = Some 0%Qc -> at_ (v s') k = Some 0%Qc).
Proof.
  intros [Hu Hv]. split; intros k Hk.
  - destruct (Hu k) as [->|[? _]]; done.
  - destruct (Hv k) as [->|[? _]]; done.
Qed.

Lemma faces_zero_kept s s' i j :
  same_grid s s' -> enforced s s' -> faces_zero s i j -> faces_zero s' i j.
Proof.
  intros Hsame [Hu Hv]%enforced_keeps_zero.
  assert (Hx : fNumX s' = fNumX s) by apply Hsame.
  unfold faces_zero, getUIndex, getVIndex. rewrite Hx. intros (?&?&?&?). auto.
Qed.

Lemma enforce_row_spec j s :
  0 <= j < fNumY s ->
  let s' := forZ 0 (fNumX s) (fun i => enforce_cell i j) s in
  same_grid s s' /\ uWeight s' = uWeight s /\ vWeight s' = vWeight s /\
  enforced s s' /\
  (grid_shaped s -> forall i0, cell_solid s i0 j -> faces_zero s' i0 j).
Proof.
  intros Hj s'. subst s'.
  destruct (decide (0 <= fNumX s)) as [Hm|Hm].
  2:{ rewrite forZ_empty by lia. split_and!; try done.
      - apply enforced_refl.
      - intros _ i0 (? & _). lia. }
  cut ((fun i t =>
    same_grid s t /\ uWeight t = uWeight s /\ vWeight t = vWeight s /\
    enforced s t /\
    (grid_shaped s -> forall i0, i0 < i -> cell_solid s i0 j -> faces_zero t i0 j))
    (fNumX s) (forZ 0 (fNumX s) (fun i => enforce_cell i j) s)).
  { intros (Hsame & Hw1 & Hw2 & Hkeep & Hnew). split_and!; try done.
    intros Hshape i0 Hsol. apply Hnew; [done| |done]. destruct Hsol as (? & _). lia. }
  apply forZ_ind; [done| |].
  - split; [apply same_grid_refl|]. split_and!; try done.
    + apply enforced_refl.
    + intros _ i0 ? (? & _). lia.
  - intros i t Hi (Hsame & Hw1 & Hw2 & Hkeep & Hnew).
    pose proof (enforce_cell_same i j t) as Hsame'.
    pose proof (enforce_cell_weights i j t) as [Hw1' Hw2'].
    assert (Hfx : fNumX t = fNumX s) by apply Hsame.
    assert (Hfy : fNumY t = fNumY s) by apply Hsame.
    assert (Henf : enforced t (enforce_cell i j t))
      by (apply enforce_cell_effect; lia).
    split; [by eapply same_grid_trans|].
    split; [congruence|]. split; [congruence|]. split.
    + by eapply enforced_trans.
    + intros Hshape i0 Hlt Hsol.
      destruct (decide (i0 = i)) as [->|Hne].
      * apply enforce_cell_zeroes.
        -- eapply grid_shaped_same; eauto.
        -- by apply (cell_solid_same s t).
      * eapply faces_zero_kept; eauto. apply Hnew; [done|lia|done].
Qed.

Lemma enforceBoundaries_spec s :
  let s' := enforceBoundaries s in
  same_grid s s' /\ uWeight s' = uWeight s /\ vWeight s' = vWeight s /\
  enforced s s' /\
  (grid_shaped s -> forall i0 j0, cell_solid s i0 j0 -> faces_zero s' i0 j0).
Proof.
  intros s'. subst s'. unfold enforceBoundaries.
  destruct (decide (0 <= fNumY s)) as [Hn|Hn].
  2:{ rewrite forZ_empty by lia. split_and!; try done.
      - apply enforced_refl.
      - intros _ i0 j0 (_ & ? & _). lia. }
  cut ((fun j t =>
    same_grid s t /\ uWeight t = uWeight s /\ vWeight t = vWeight s /\
    enforced s t /\
    (grid_shaped s -> forall i0 j0, j0 < j -> cell_solid s i0 j0 -> faces_zero t i0 j0))
    (fNumY s) (forZ 0 (fNumY s) (fun j => forZ 0 (fNumX s) (fun i => enforce_cell i j)) s)).
  { intros (Hsame & Hw1 & Hw2 & Hkeep & Hnew). split_and!; try done.
    intros Hshape i0 j0 Hsol. apply Hnew; [done| |done]. destruct Hsol as (_ & ? & _). lia. }
  apply forZ_ind; [done| |].
  - split; [apply same_grid_refl|]. split_and!; try done.
    + apply enforced_refl.
    + intros _ i0 j0 ? (_ & ? & _). lia.
  - intros j t Hj (Hsame & Hw1 & Hw2 & Hkeep & Hnew).
    assert (Hfx : fNumX s = fNumX t) by (symmetry; apply Hsame).
    assert (Hfy : fNumY s = fNumY t) by (symmetry; apply Hsame).
    rewrite Hfx.
    destruct (enforce_row_spec j t) as (Hsame' & Hw1' & Hw2' & Hkeep' & Hnew'); [lia|].
    split; [by eapply same_grid_trans|].
    split; [congruence|]. split; [congruence|]. split.
    + by eapply enforced_trans.
    + intros Hshape i0 j0 Hlt Hsol.
      destruct (decide (j0 = j)) as [->|Hne].
      * apply Hnew'.
        -- by eapply grid_shaped_same.
        -- by apply (cell_solid_same s t).
      * eapply faces_zero_kept; eauto. apply Hnew; [done|lia|done].
Qed.

(** ** Splatting *)



Lemma at_same_length {A B} (a : list A) (b : list B) k :
  length a = length b -> is_Some (at_ a k) -> is_Some (at_ b k).
Proof.
  intros Hl [x Hx]. apply at_lt in Hx. apply at_is_Some. lia.
Qed.

Lemma weights_ok_step g w k val w0 :
  (0 <= w0)%Qc -> weights_ok g w ->
  weights_ok (upd_at g k (fun x => x + val * w0)%Qc) (upd_at w k (fun x => x + w0)%Qc).
Proof.
  intros Hw0 [Hlen Hinv]. split; [by rewrite !length_upd_at|].
  intros j wj. rewrite !at_upd_at. case_decide as Hk; [subst j|by apply Hinv].
  destruct (at_ w k) as [wk|] eqn:Ew; [|done]. simpl. intros [= <-].
  destruct (Hinv k wk Ew) as [Hnn Hz]. split; [qc_lra|].
  intros Hsum. assert (wk = 0%Qc) as -> by qc_lra. assert (w0 = 0%Qc) as -> by qc_lra.
  rewrite (Hz eq_refl). simpl. f_equal. ring.
Qed.

Lemma uniform_step c g w k w0 :
  uniform c g w ->
  uniform c (upd_at g k (fun x => x + c * w0)%Qc) (upd_at w k (fun x => x + w0)%Qc).
Proof.
  intros [Hlen Hinv]. split; [by rewrite !length_upd_at|].
  intros j wj. rewrite !at_upd_at. case_decide as Hk; [subst j|by apply Hinv].
  destruct (at_ w k) as [wk|] eqn:Ew; [|done]. simpl. intros [= <-].
  rewrite (Hinv k wk Ew). simpl. f_equal. ring.
Qed.


Lemma js_div_Ok a b q : js_div a b = Ok q -> b <> 0%Qc /\ q = (a / b)%Qc.
Proof. unfold js_div. case_decide; [done|]. intros [= <-]. done. Qed.

Lemma js_div_nonzero a b : b <> 0%Qc -> js_div a b = Ok (a / b)%Qc.
Proof. intros. unfold js_div. by rewrite decide_False. Qed.

Lemma locate_Ok s x0 y0 ox oy cols rows c :
  locate s x0 y0 ox oy cols rows = Ok c ->
  h s <> 0%Qc /\
  (0 <= st_fx c)%Qc /\ (st_fx c < 1)%Qc /\ (0 <= st_fy c)%Qc /\ (st_fy c < 1)%Qc.
Proof.
  unfold locate. intros Hb.
  apply bind_Ok in Hb as (qx & [Hh ->]%js_div_Ok & Hb).
  apply bind_Ok in Hb as (qy & [_ ->]%js_div_Ok & Hb).
  injection Hb as <-. simpl.
  split; [done|]. split_and!; apply floor_frac.
Qed.

Lemma locate_total s x0 y0 ox oy cols rows :
  h s <> 0%Qc -> exists c, locate s x0 y0 ox oy cols rows = Ok c.
Proof.
  intros Hh. unfold locate. rewrite !js_div_nonzero by done. simpl. eauto.
Qed.

Lemma splatToGrid_Ok s x0 y0 val g w ox oy cols rows g' w' :
  splatToGrid s x0 y0 val g w ox oy cols rows = Ok (g', w') ->
  h s <> 0%Qc /\ length g' = length g /\ length w' = length w /\
  (weights_ok g w -> weights_ok g' w') /\
  (uniform val g w -> uniform val g' w').
Proof.
  unfold splatToGrid. intros Hb.
  apply bind_Ok in Hb as (c & Hc & Hb).
  apply locate_Ok in Hc as (Hh & Hx0 & Hx1 & Hy0 & Hy1).
  injection Hb as <- <-.
  split; [done|]. rewrite !length_upd_at. split; [done|]. split; [done|]. split.
  - intros H. repeat apply weights_ok_step; try done; qc_lra.
  - intros H. by repeat apply uniform_step.
Qed.



Lemma splat_particle_Ok p s s' :
  splat_particle p s = Ok s' ->
  h s <> 0%Qc /\ same_grid s s' /\ pDensity s' = pDensity s /\
  (weights_ok (u s) (uWeight s) -> weights_ok (u s') (uWeight s')) /\
  (weights_ok (v s) (vWeight s) -> weights_ok (v s') (vWeight s')) /\
  (uniform (Particle.u p) (u s) (uWeight s) -> uniform (Particle.u p) (u s') (uWeight s')) /\
  (uniform (Particle.v p) (v s) (vWeight s) -> uniform (Particle.v p) (v s') (vWeight s')).
Proof.
  unfold splat_particle. intros Hb.
  apply bind_Ok in Hb as ([g1 w1] & H1 & Hb).
  apply bind_Ok in Hb as ([g2 w2] & H2 & Hb).
  injection Hb as <-. simpl in *.
  apply splatToGrid_Ok in H1 as (Hh & Hl1 & Hl1' & Hw1 & Hu1).
  apply splatToGrid_Ok in H2 as (_ & Hl2 & Hl2' & Hw2 & Hu2).
  split; [done|]. split; [by repeat split|]. done.
Qed.

Lemma splat_particles_Ok ps : forall s s',
  splat_particles ps s = Ok s' ->
  (ps <> [] -> h s <> 0%Qc) /\ same_grid s s' /\ pDensity s' = pDensity s /\
  (weights_ok (u s) (uWeight s) -> weights_ok (u s') (uWeight s')) /\
  (weights_ok (v s) (vWeight s) -> weights_ok (v s') (vWeight s')) /\
  (forall c, Forall (fun p => Particle.u p = c) ps ->
     uniform c (u s) (uWeight s) -> uniform c (u s') (uWeight s')) /\
  (forall c, Forall (fun p => Particle.v p = c) ps ->
     uniform c (v s) (vWeight s) -> uniform c (v s') (vWeight s')).
Proof.
  induction ps as [|p ps IH]; intros s s' Hb; simpl in Hb.
  - injection Hb as <-. by split_and!.
  - apply bind_Ok in Hb as (s1 & H1 & Hb).
    apply splat_particle_Ok in H1 as (Hh & Hs1 & Hd1 & Hwu1 & Hwv1 & Hu1 & Hv1).
    apply IH in Hb as (_ & Hs2 & Hd2 & Hwu2 & Hwv2 & Hu2 & Hv2).
    split_and!; [done|by eapply same_grid_trans|congruence|auto|auto|..].
    + intros c [<- Hall]%Forall_cons_1 H. auto.
    + intros c [<- Hall]%Forall_cons_1 H. auto.
Qed.


Lemma normalize_face_spec w i g :
  exists g', normalize_face w i g = Ok g' /\ length g' = length g /\
    forall k, at_ g' k = if decide (k = i) then normalized g w k else at_ g k.
Proof.
  unfold normalize_face, normalized.
  destruct (at_ w i) as [wi|] eqn:Ew.
  - case_decide as Hpos.
    + destruct (at_ g i) as [gi|] eqn:Eg.
      * rewrite js_div_nonzero by (intros ->; by apply Qclt_not_eq in Hpos).
        simpl. eexists; split; [done|]. split; [apply length_wr|].
        intros k. rewrite at_wr. pose proof (at_lt _ _ _ Eg) as Hr.
        destruct (decide (k = i)) as [->|].
        -- rewrite decide_True by done. rewrite Eg, Ew. by rewrite decide_True.
        -- by rewrite decide_False by (intros [? _]; done).
      * eexists; split; [done|]. split; [done|]. intros k. case_decide; [subst|done].
        by rewrite Eg.
    + eexists; split; [done|]. split; [done|]. intros k. case_decide; [subst|done].
      rewrite Ew. destruct (at_ g i); [|done]. by rewrite decide_False.
  - eexists; split; [done|]. split; [done|]. intros k. case_decide; [subst|done].
    rewrite Ew. by destruct (at_ g i).
Qed.

Lemma normalize_spec g w :
  exists g', normalize g w = Ok g' /\ length g' = length g /\
    forall k, at_ g' k = normalized g w k.
Proof.
  unfold normalize.
  destruct (forZM_total (fun i t => length t = length g /\
     forall k, at_ t k = if decide (k < i) then normalized g w k else at_ g k)
     0 (Z.of_nat (length g)) (normalize_face w) g) as (g' & Hg' & Hlen & Hat).
  - lia.
  - split; [done|]. intros k. case_decide; [|done].
    unfold normalized. rewrite at_None by lia. done.
  - intros i t Hi [Hlen Hat].
    destruct (normalize_face_spec w i t) as (t' & -> & Hlen' & Hat').
    eexists; split; [done|]. split; [congruence|]. intros k. rewrite Hat'.
    destruct (decide (k = i)) as [->|].
    + rewrite decide_True by lia. unfold normalized. rewrite Hat.
      by rewrite decide_False by lia.
    + rewrite Hat. repeat case_decide; try done; lia.
  - exists g'. split; [done|]. split; [done|]. intros k. rewrite Hat.
    case_decide; [done|]. unfold normalized. rewrite at_None by lia. done.
Qed.


Lemma transfer_Ok s s' :
  transferParticlesToGrid s = Ok s' ->
  exists s1 gu gv,
    splat_particles (particles s) (cleared s) = Ok s1 /\
    normalize (u s1) (uWeight s1) = Ok gu /\
    normalize (v s1) (vWeight s1) = Ok gv /\
    s' = enforceBoundaries (set_v gv (set_u gu s1)).
Proof.
  unfold transferParticlesToGrid. intros Hb.
  apply bind_Ok in Hb as (s1 & H1 & Hb).
  apply bind_Ok in Hb as (gu & H2 & Hb).
  apply bind_Ok in Hb as (gv & H3 & Hb).
  injection Hb as <-. exists s1, gu, gv. done.
Qed.

Lemma weights_ok_fill (g w : list Qc) :
  length w = length g -> weights_ok (fill g 0%Qc) (fill w 0%Qc).
Proof.
  intros Hl. split; [by rewrite !length_fill|].
  intros k wk Hk. pose proof (at_lt _ _ _ Hk) as Hr. rewrite length_fill in Hr.
  apply at_fill in Hk as ->. split; [done|]. intros _.
  destruct (at_is_Some (fill g 0%Qc) k) as [x Hx]; [rewrite length_fill; lia|].
  rewrite Hx. by apply at_fill in Hx as ->.
Qed.

Lemma uniform_fill c (g w : list Qc) :
  length w = length g -> uniform c (fill g 0%Qc) (fill w 0%Qc).
Proof.
  intros Hl. split; [by rewrite !length_fill|].
  intros k wk Hk. pose proof (at_lt _ _ _ Hk) as Hr. rewrite length_fill in Hr.
  apply at_fill in Hk as ->.
  destruct (at_is_Some (fill g 0%Qc) k) as [x Hx]; [rewrite length_fill; lia|].
  rewrite Hx. apply at_fill in Hx as ->. f_equal. ring.
Qed.

Lemma cleared_same s : same_grid s (cleared s).
Proof. unfold cleared. repeat split; simpl; by rewrite ?length_fill. Qed.

Lemma set_uv_same gu gv s :
  length gu = length (u s) -> length gv = length (v s) ->
  same_grid s (set_v gv (set_u gu s)).
Proof. intros. by repeat split. Qed.

(** The state handed to [enforceBoundaries] by the transfer. *)
Lemma transfer_shape s s' :
  transferParticlesToGrid s = Ok s' ->
  exists s2, s' = enforceBoundaries s2 /\ same_grid s s2 /\ same_grid s s' /\
    uWeight s' = uWeight s2 /\ vWeight s' = vWeight s2 /\
    (length (uWeight s) = length (u s) ->
       forall k, at_ (uWeight s2) k = Some 0%Qc -> at_ (u s2) k = Some 0%Qc) /\
    (length (vWeight s) = length (v s) ->
       forall k, at_ (vWeight s2) k = Some 0%Qc -> at_ (v s2) k = Some 0%Qc).
Proof.
  intros (s1 & gu & gv & H1 & H2 & H3 & ->)%transfer_Ok.
  apply splat_particles_Ok in H1 as (_ & Hs1 & _ & Hwu & Hwv & _).
  destruct (normalize_spec (u s1) (uWeight s1)) as (gu' & Hgu & Hlu & Hatu).
  destruct (normalize_spec (v s1) (vWeight s1)) as (gv' & Hgv & Hlv & Hatv).
  assert (gu' = gu) as -> by congruence. assert (gv' = gv) as -> by congruence.
  set (s2 := set_v gv (set_u gu s1)).
  assert (Hs2 : same_grid s s2).
  { eapply same_grid_trans; [apply cleared_same|].
    eapply same_grid_trans; [apply Hs1|]. by apply set_uv_same. }
  destruct (enforceBoundaries_spec s2) as (Hs3 & Hw1 & Hw2 & _).
  exists s2. split_and!; try done.
  - by eapply same_grid_trans.
  - intros Hl k Hk. simpl in *.
    destruct (Hwu (weights_ok_fill _ _ Hl)) as [_ Hz].
    destruct (Hz k 0%Qc Hk) as [_ Hg]. rewrite Hatu. unfold normalized.
    rewrite (Hg eq_refl), Hk. by rewrite decide_False.
  - intros Hl k Hk. simpl in *.
    destruct (Hwv (weights_ok_fill _ _ Hl)) as [_ Hz].
    destruct (Hz k 0%Qc Hk) as [_ Hg]. rewrite Hatv. unfold normalized.
    rewrite (Hg eq_refl), Hk. by rewrite decide_False.
Qed.

(** C2. Immediately after the particle-to-grid transfer, every cell
    classified solid has all four incident staggered faces (both [u]
    faces and both [v] faces) equal to exactly 0. *)
Theorem solid_faces_zero_after_transfer s s' i j :
  grid_shaped s ->
  transferParticlesToGrid s = Ok s' ->
  cell_solid s' i j ->
  faces_zero s' i j.
Proof.
  intros Hshape (s2 & -> & Hs2 & Hs' & _)%transfer_shape Hsol.
  destruct (enforceBoundaries_spec s2) as (Hs3 & _ & _ & _ & Hz).
  apply Hz.
  - by eapply grid_shaped_same.
  - by apply (cell_solid_same s2 (enforceBoundaries s2)).
Qed.

(** C8. Weight normalisation never divides by zero: [normalize] always
    returns (the outcome [NotRational] of a quotient by zero cannot
    occur) and divides a face exactly when its weight is strictly
    positive; a face of weight zero is skipped, and after the whole
    transfer such a face holds exactly 0. *)
Theorem normalization_never_divides_by_zero :
  (forall grid weight, exists g',
      normalize grid weight = Ok g' /\ length g' = length grid /\
      forall k, at_ g' k = normalized grid weight k) /\
  (forall grid weight k, at_ weight k = Some 0%Qc ->
      normalized grid weight k = at_ grid k) /\
  (forall s s',
      length (uWeight s) = length (u s) -> length (vWeight s) = length (v s) ->
      transferParticlesToGrid s = Ok s' ->
      (forall k, at_ (uWeight s') k = Some 0%Qc -> at_ (u s') k = Some 0%Qc) /\
      (forall k, at_ (vWeight s') k = Some 0%Qc -> at_ (v s') k = Some 0%Qc)).
Proof.
  split; [apply normalize_spec|]. split.
  - intros grid weight k Hk. unfold normalized. rewrite Hk.
    destruct (at_ grid k); [|done]. by rewrite decide_False.
  - intros s s' Hlu Hlv (s2 & -> & _ & _ & Hw1 & Hw2 & Hu & Hv)%transfer_shape.
    destruct (enforceBoundaries_spec s2) as (_ & _ & _ & [Hzu Hzv]%enforced_keeps_zero & _).
    rewrite Hw1, Hw2. split; intros k Hk; auto.
Qed.




Lemma solver_frame_refl s : solver_frame s s.
Proof. by repeat split. Qed.

Lemma solver_frame_trans s1 s2 s3 :
  solver_frame s1 s2 -> solver_frame s2 s3 -> solver_frame s1 s3.
Proof.
  unfold solver_frame. intros (?&?&?&?&?&?&?&?&?&?&?) (?&?&?&?&?&?&?&?&?&?&?).
  repeat split; congruence.
Qed.

Lemma is_solid_frame s s' k : cellType s' = cellType s -> is_solid s' k = is_solid s k.
Proof. unfold is_solid. by intros ->. Qed.

Lemma solve_cell_Ok j i s s' :
  solve_cell j i s = Ok s' -> solver_frame s s' /\ relaxed i j s s'.
Proof.
  unfold solve_cell, relaxed.
  destruct (is_solid s (i + j * fNumX s)) eqn:Hc.
  { intros [= <-]. split; [apply solver_frame_refl|]. split; intros k; by left. }
  intros Hb.
  apply bind_Ok in Hb as (uLeft & _ & Hb).
  apply bind_Ok in Hb as (uRight & _ & Hb).
  apply bind_Ok in Hb as (vBot & _ & Hb).
  apply bind_Ok in Hb as (vTop & _ & Hb).
  case_decide.
  { injection Hb as <-. split; [apply solver_frame_refl|]. split; intros k; by left. }
  case_decide.
  { injection Hb as <-. split; [apply solver_frame_refl|]. split; intros k; by left. }
  apply bind_Ok in Hb as (flux & _ & Hb). injection Hb as <-.
  unfold open_flag.
  destruct (is_solid s (i - 1 + j * fNumX s)) eqn:HL;
  destruct (is_solid s (i + 1 + j * fNumX s)) eqn:HR;
  destruct (is_solid s (i + (j - 1) * fNumX s)) eqn:HB;
  destruct (is_solid s (i + (j + 1) * fNumX s)) eqn:HT;
  repeat case_decide; try lia; simpl;
  (split; [repeat split; simpl; rewrite ?length_upd_at; done|]);
  (split; intros k; simpl; rewrite ?at_upd_at; repeat case_decide; try (by left);
   right; (split; [done|]); lia).
Qed.




Lemma kept_refl s : kept s s.
Proof. split; [apply solver_frame_refl|]. by split. Qed.

Lemma kept_step s t0 t1 i j :
  1 <= i < fNumX s - 1 -> 1 <= j < fNumY s - 1 ->
  kept s t0 -> solve_cell j i t0 = Ok t1 -> kept s t1.
Proof.
  intros Hi Hj (Hfr & Hu & Hv) [Hfr' [Hru Hrv]]%solve_cell_Ok.
  assert (Hx : fNumX t0 = fNumX s) by apply Hfr.
  assert (Hct : cellType t0 = cellType s) by apply Hfr.
  split; [by eapply solver_frame_trans|].
  rewrite Hx in Hru, Hrv. rewrite !(is_solid_frame s t0) in Hru, Hrv by done.
  split; intros k Hk.
  - destruct (Hru k) as [->|[Hc Hw]]; [by apply Hu|].
    exfalso. by apply (Hk i j).
  - destruct (Hrv k) as [->|[Hc Hw]]; [by apply Hv|].
    exfalso. by apply (Hk i j).
Qed.

Lemma sweep_kept s t0 t1 :
  kept s t0 -> sweep t0 = Ok t1 -> kept s t1.
Proof.
  intros Hk. unfold sweep.
  assert (Hx : fNumX t0 = fNumX s) by apply Hk.
  assert (Hy : fNumY t0 = fNumY s) by apply Hk.
  rewrite Hx, Hy.
  apply forZM_inv; [done|].
  intros j t2 t3 Hj Hk2.
  apply forZM_inv; [done|].
  intros i t4 t5 Hi Hk4. by apply kept_step.
Qed.

Lemma solve_kept s s' : solveIncompressibility s = Ok s' -> kept s s'.
Proof.
  unfold solveIncompressibility.
  apply forZM_inv; [apply kept_refl|].
  intros _ t0 t1 _. apply sweep_kept.
Qed.

Lemma u_index_unique m i j i' j' :
  0 <= i <= m -> 0 <= i' <= m -> i + j * (m + 1) = i' + j' * (m + 1) -> i = i' /\ j = j'.
Proof.
  intros Hi Hi' Heq.
  assert (j = j') as -> by nia. lia.
Qed.

Lemma v_index_unique m i j i' j' :
  0 <= i < m -> 0 <= i' < m -> i + j * m = i' + j' * m -> i = i' /\ j = j'.
Proof.
  intros Hi Hi' Heq.
  assert (j = j') as -> by nia. lia.
Qed.

Lemma solid_face_u_protected s i j :
  0 <= i <= fNumX s ->
  cell_solid s (i - 1) j \/ cell_solid s i j ->
  u_protected s (getUIndex s i j).
Proof.
  intros Hi Hsol i' j' Hi' Hj' Hc [[Heq Hn]|[Heq Hn]]; unfold getUIndex in Heq.
  - apply u_index_unique in Heq as [-> ->]; [|lia..].
    destruct Hsol as [(_ & _ & Hs)|(_ & _ & Hs)]; unfold getCellIndex in Hs; congruence.
  - replace (i' + 1 + j' * (fNumX s + 1)) with ((i' + 1) + j' * (fNumX s + 1)) in Heq by lia.
    apply u_index_unique in Heq as [-> ->]; [|lia..].
    destruct Hsol as [(_ & _ & Hs)|(_ & _ & Hs)]; unfold getCellIndex in Hs.
    + replace (i' + 1 - 1) with i' in Hs by lia. congruence.
    + congruence.
Qed.

Lemma solid_face_v_protected s i j :
  0 <= i < fNumX s ->
  cell_solid s i (j - 1) \/ cell_solid s i j ->
  v_protected s (getVIndex s i j).
Proof.
  intros Hi Hsol i' j' Hi' Hj' Hc [[Heq Hn]|[Heq Hn]]; unfold getVIndex in Heq.
  - apply v_index_unique in Heq as [-> ->]; [|lia..].
    destruct Hsol as [(_ & _ & Hs)|(_ & _ & Hs)]; unfold getCellIndex in Hs; congruence.
  - apply v_index_unique in Heq as [-> ->]; [|lia..].
    destruct Hsol as [(_ & _ & Hs)|(_ & _ & Hs)]; unfold getCellIndex in Hs.
    + replace (j' + 1 - 1) with j' in Hs by lia. congruence.
    + congruence.
Qed.

(** C10. [solveIncompressibility] never modifies a face with a solid
    incident cell: every face it writes lies between two non-solid cells.
    In particular the left-boundary column written by the wave paddle
    (faces [1 + j * (fNumX + 1)], whose outer cell [(0, j)] is solid) is
    unchanged across the whole solve. *)
Theorem solve_preserves_solid_faces s s' :
  solveIncompressibility s = Ok s' ->
  (forall i j, 0 <= i <= fNumX s ->
     cell_solid s (i - 1) j \/ cell_solid s i j ->
     at_ (u s') (getUIndex s i j) = at_ (u s) (getUIndex s i j)) /\
  (forall i j, 0 <= i < fNumX s ->
     cell_solid s i (j - 1) \/ cell_solid s i j ->
     at_ (v s') (getVIndex s i j) = at_ (v s) (getVIndex s i j)) /\
  (forall j, cell_solid s 0 j ->
     at_ (u s') (1 + j * (fNumX s + 1)) = at_ (u s) (1 + j * (fNumX s + 1))).
Proof.
  intros (_ & Hu & Hv)%solve_kept. split_and!.
  - intros i j Hi Hsol. by apply Hu, solid_face_u_protected.
  - intros i j Hi Hsol. by apply Hv, solid_face_v_protected.
  - intros j Hsol. apply (Hu (getUIndex s 1 j)), solid_face_u_protected.
    + destruct Hsol as (? & _). lia.
    + by left.
Qed.


(** ** The relaxation update in the words of the specification *)












Lemma upd_at_ext {A} (a : list A) k f g :
  (forall x, f x = g x) -> upd_at a k f = upd_at a k g.
Proof. intros H. unfold upd_at. destruct (at_ a k); [by rewrite H|done]. Qed.

Lemma Qc_of_Z_nonzero z : z <> 0 -> Qc_of_Z z <> 0%Qc.
Proof.
  intros Hz Heq. apply (f_equal (fun q : Qc => Qnum q)) in Heq. simpl in Heq. done.
Qed.

Lemma target_divergence (d : Qc) :
  (if decide (restDensity < d)%Qc then (kDensity * (d - restDensity))%Qc else 0%Qc)
  = (Math_max 0 (d - restDensity) * correctionGain)%Qc.
Proof.
  unfold Math_max, kDensity, correctionGain.
  destruct (decide (restDensity < d)%Qc) as [H|H].
  - rewrite decide_True by qc_lra. ring.
  - rewrite decide_False by qc_lra. ring.
Qed.

Lemma set_u_id s : set_u (u s) s = s.
Proof. by destruct s. Qed.
Lemma set_v_id s : set_v (v s) s = s.
Proof. by destruct s. Qed.
Lemma set_v_set_u a b s : set_v b (set_u a s) = set_u a (set_v b s).
Proof. done. Qed.

Lemma max0_rest : (Math_max 0 (0 - restDensity) * correctionGain)%Qc = 0%Qc.
Proof. apply Qc_is_canon. vm_compute. reflexivity. Qed.

Lemma solve_cell_relaxation j i s :
  is_solid s (getCellIndex s i j) = false ->
  solve_cell j i s = relaxation_update j i s.
Proof.
  intros Hc. unfold solve_cell, relaxation_update.
  unfold getCellIndex in Hc. rewrite Hc.
  unfold getUIndex, getVIndex, getCellIndex.
  replace (i + j * (fNumX s + 1) + 1) with (i + 1 + j * (fNumX s + 1)) by lia.
  replace (i + j * fNumX s + fNumX s) with (i + (j + 1) * fNumX s) by lia.
  destruct (rd (u s) (i + j * (fNumX s + 1))) as [uLeft|]; [|done].
  destruct (rd (u s) (i + 1 + j * (fNumX s + 1))) as [uRight|]; [|done].
  destruct (rd (v s) (i + j * fNumX s)) as [vBot|]; [|done].
  destruct (rd (v s) (i + (j + 1) * fNumX s)) as [vTop|]; [|done].
  cbn [mbind outcome_bind].
  assert (Htd :
    match at_ (pDensity s) (i + j * fNumX s) with
    | Some density =>
        if decide (restDensity < density)%Qc
        then (kDensity * (density - restDensity))%Qc else 0%Qc
    | None => 0%Qc
    end = (Math_max 0 (default 0%Qc (at_ (pDensity s) (i + j * fNumX s)) - restDensity)
           * correctionGain)%Qc).
  { destruct (at_ (pDensity s) (i + j * fNumX s)) as [d|]; [apply target_divergence|].
    cbn [default from_option id]. by rewrite max0_rest. }
  rewrite Htd. clear Htd.
  set (adj := (uRight - uLeft + (vTop - vBot) - _)%Qc).
  set (cp := overRelaxation s).
  unfold neighborCount, non_solid, open_flag, getCellIndex, gated.
  destruct (decide (Math_abs adj < epsilon)%Qc) as [He|He].
  { by rewrite bool_decide_eq_true_2 by (by left). }
  rewrite !filter_cons, filter_nil. cbn [fst snd].
  destruct (is_solid s (i - 1 + j * fNumX s)) eqn:HL;
  destruct (is_solid s (i + 1 + j * fNumX s)) eqn:HR;
  destruct (is_solid s (i + (j - 1) * fNumX s)) eqn:HB;
  destruct (is_solid s (i + (j + 1) * fNumX s)) eqn:HT;
  cbn [negb]; repeat (first [rewrite decide_True by done | rewrite decide_False by done]);
  cbn [length Z.of_nat Pos.of_succ_nat Pos.succ Z.add Pos.add].
  all: try (rewrite bool_decide_eq_true_2 by (by right); reflexivity).
  all: rewrite bool_decide_eq_false_2 by (intros [?|?]; [done|lia]).
  all: rewrite js_div_nonzero by (by apply Qc_of_Z_nonzero).
  all: cbn [mbind outcome_bind].
  all: repeat (first [rewrite decide_True by lia | rewrite decide_False by lia]).
  all: unfold set_u, set_v;
    cbn [density gravity overRelaxation fNumX fNumY h u v du dv uNew vNew
         uWeight vWeight pDensity cellType particles totalTime].
  all: replace (i + j * fNumX s + fNumX s) with (i + (j + 1) * fNumX s) by lia.
  all: reflexivity.
Qed.


Lemma bind_assoc {A B C} (m : outcome A) (f : A -> outcome B) (g : B -> outcome C) :
  (m ≫= f) ≫= g = m ≫= (fun a => f a ≫= g).
Proof. by destruct m. Qed.

Lemma bind_ret {A} (m : outcome A) : m ≫= Ok = m.
Proof. by destruct m. Qed.

Lemma visitM_app {A S} (body : A -> S -> outcome S) l1 l2 s :
  visitM body (l1 ++ l2) s = visitM body l1 s ≫= visitM body l2.
Proof.
  revert s. induction l1 as [|a l1 IH]; intros s; [done|].
  simpl. destruct (body a s); [apply IH|done].
Qed.

Lemma iterM_row {S} (body : Z -> Z -> S -> outcome S) j li s :
  iterM (body j) li s =
  visitM (fun c => body c.1 c.2) (i ← li; [(j, i)]) s.
Proof.
  revert s. induction li as [|i li IH]; intros s; [done|].
  simpl. destruct (body j i s); [apply IH|done].
Qed.

Lemma iterM_grid {S} (body : Z -> Z -> S -> outcome S) lj li s :
  iterM (fun j => iterM (body j) li) lj s =
  visitM (fun c => body c.1 c.2) (j ← lj; i ← li; [(j, i)]) s.
Proof.
  revert s. induction lj as [|j lj IH]; intros s; [done|].
  cbn [iterM mbind list_bind]. rewrite visitM_app, <-iterM_row.
  destruct (iterM (body j) li s); [apply IH|done].
Qed.

Lemma iterM_const {S} (f : S -> outcome S) l (m : outcome S) :
  m ≫= iterM (fun _ => f) l = Nat.iter (length l) (fun o => o ≫= f) m.
Proof.
  revert m. induction l as [|k l IH]; intros m.
  - apply bind_ret.
  - cbn [iterM length]. rewrite Nat.iter_succ_r, <-IH. by destruct m.
Qed.

Lemma relax_solve_cell s c : relax c s = solve_cell c.1 c.2 s.
Proof.
  unfold relax, non_solid. destruct (is_solid s _) eqn:Hs; cbn [negb].
  - unfold solve_cell. unfold getCellIndex in Hs. by rewrite Hs.
  - symmetry. by apply solve_cell_relaxation.
Qed.

Lemma visitM_ext {A S} (f g : A -> S -> outcome S) l s :
  (forall a t, f a t = g a t) -> visitM f l s = visitM g l s.
Proof.
  intros H. revert s. induction l as [|a l IH]; intros s; [done|].
  simpl. rewrite H. destruct (g a s); [apply IH|done].
Qed.

Lemma interior_cells_spec s i j :
  (j, i) ∈ interior_cells s <-> 1 <= i < fNumX s - 1 /\ 1 <= j < fNumY s - 1.
Proof.
  unfold interior_cells. rewrite list_elem_of_bind. split.
  - intros (j' & (i' & Hin & Hi)%list_elem_of_bind & Hj).
    apply list_elem_of_singleton in Hin as [= -> ->].
    apply elem_of_seqZ in Hi, Hj. lia.
  - intros [Hi Hj]. exists j. split; [|apply elem_of_seqZ; lia].
    apply list_elem_of_bind. exists i. split; [by apply list_elem_of_singleton|].
    apply elem_of_seqZ. lia.
Qed.

(** C1. On a non-solid cell the relaxation update of the source is the
    update in the words of the specification ([relaxation_update]:
    divergence of the four faces, minus [max(0, density - restDensity) *
    correctionGain], skipped below [epsilon] or without a non-solid
    neighbour, else one [flux] added to or subtracted from the four faces,
    each gated by its neighbour); solid cells are skipped; a sweep visits
    exactly the interior cells, and a call runs exactly 30 sweeps. *)
Theorem relaxation_matches_specification s :
  (forall i j, is_solid s (getCellIndex s i j) = false ->
     solve_cell j i s = relaxation_update j i s) /\
  (forall i j, is_solid s (getCellIndex s i j) = true -> solve_cell j i s = Ok s) /\
  (forall i j, (j, i) ∈ interior_cells s <->
     1 <= i < fNumX s - 1 /\ 1 <= j < fNumY s - 1) /\
  sweep s = sweep_spec s /\
  solveIncompressibility s = Nat.iter 30 (fun o => o ≫= sweep) (Ok s).
Proof.
  split_and!.
  - intros i j. apply solve_cell_relaxation.
  - intros i j Hs. unfold solve_cell. unfold getCellIndex in Hs. by rewrite Hs.
  - intros i j. apply interior_cells_spec.
  - unfold sweep, sweep_spec, forZM. rewrite iterM_grid.
    unfold interior_cells.
    replace (fNumY s - 1 - 1) with (fNumY s - 2) by lia.
    replace (fNumX s - 1 - 1) with (fNumX s - 2) by lia.
    apply visitM_ext. intros c t0. by rewrite relax_solve_cell.
  - unfold solveIncompressibility, forZM.
    change (iterM (fun _ => sweep) (seqZ 0 (numIters - 0)) s)
      with (Ok s ≫= iterM (fun _ => sweep) (seqZ 0 (numIters - 0))).
    rewrite iterM_const. reflexivity.
Qed.

(** ** Grid to particles *)

Lemma eachM_Ok {A} (f : A -> outcome A) l l' :
  eachM f l = Ok l' -> Forall2 (fun a a' => f a = Ok a') l l'.
Proof.
  revert l'. induction l as [|a l IH]; intros l' Hb; simpl in Hb.
  - injection Hb as <-. constructor.
  - apply bind_Ok in Hb as (a' & Ha & Hb).
    apply bind_Ok in Hb as (r & Hr & Hb). injection Hb as <-.
    constructor; auto.
Qed.

Lemma eachM_total {A} (f : A -> outcome A) l :
  Forall (fun a => exists a', f a = Ok a') l -> exists l', eachM f l = Ok l'.
Proof.
  induction 1 as [|a l [a' Ha] _ [l' Hl]]; simpl; [eauto|].
  rewrite Ha. simpl. rewrite Hl. simpl. eauto.
Qed.

Lemma blend_Ok r s p p' : blend r s p = Ok p' -> blended r s p p'.
Proof.
  unfold blend. intros Hb.
  apply bind_Ok in Hb as (uPIC & H1 & Hb).
  apply bind_Ok in Hb as (vPIC & H2 & Hb).
  apply bind_Ok in Hb as (uOld & H3 & Hb).
  apply bind_Ok in Hb as (vOld & H4 & Hb).
  injection Hb as <-. exists uPIC, vPIC, uOld, vOld.
  split_and!; try done; cbn [Particle.u Particle.v]; ring.
Qed.

Lemma transferGridToParticles_Ok r s s' :
  transferGridToParticles r s = Ok s' ->
  s' = set_particles (particles s') s /\
  Forall2 (blended r s) (particles s) (particles s').
Proof.
  unfold transferGridToParticles. intros Hb.
  apply bind_Ok in Hb as (ps & Hps & Hb). injection Hb as <-.
  split; [done|]. cbn [particles set_particles].
  apply eachM_Ok in Hps. eapply Forall2_impl; [|exact Hps]. intros p p'. apply blend_Ok.
Qed.

Lemma array_set_Ok {A} (target source r : list A) :
  array_set target source = Ok r ->
  length r = length target /\ take (length source) r = source.
Proof.
  unfold array_set. case_decide as Hl; [done|]. intros [= <-]. split.
  - rewrite length_app, length_drop. lia.
  - by rewrite take_app_length.
Qed.

Lemma snapshot_Ok s s' :
  snapshot s = Ok s' ->
  s' = set_dv (dv s') (set_du (du s') s) /\
  take (length (u s)) (du s') = u s /\ take (length (v s)) (dv s') = v s /\
  length (du s') = length (du s) /\ length (dv s') = length (dv s).
Proof.
  unfold snapshot. intros Hb.
  apply bind_Ok in Hb as (a & [Hla Ha]%array_set_Ok & Hb).
  apply bind_Ok in Hb as (b & [Hlb Hb']%array_set_Ok & Hb).
  injection Hb as <-. done.
Qed.

Section Blend.
Variable Math_sin : Qc -> Qc.
Variable Math_sqrt : Qc -> Qc.

Lemma integrate_Ok dt s s' :
  integrate Math_sin Math_sqrt dt s = Ok s' ->
  exists s1 s2 s3 pre post,
    advectParticles Math_sqrt dt (set_totalTime (totalTime s + dt)%Qc s) = Ok s1 /\
    transferParticlesToGrid s1 = Ok s2 /\
    calculateParticleDensity s2 = Ok s3 /\
    snapshot (apply_paddle Math_sin s3) = Ok pre /\
    solveIncompressibility pre = Ok post /\
    transferGridToParticles (lit 19 20) post = Ok s'.
Proof.
  unfold integrate. intros Hb.
  apply bind_Ok in Hb as (s1 & H1 & Hb).
  apply bind_Ok in Hb as (s2 & H2 & Hb).
  apply bind_Ok in Hb as (s3 & H3 & Hb).
  apply bind_Ok in Hb as (pre & H4 & Hb).
  apply bind_Ok in Hb as (post & H5 & Hb).
  by exists s1, s2, s3, pre, post.
Qed.

(** C4. The grid-to-particle transfer sets each velocity component of
    every particle to [flipRatio * FLIP + (1 - flipRatio) * PIC], where
    PIC is the bilinear sample of the current (post-solve) grid, and FLIP
    the prior velocity plus (post-solve sample - sample of the snapshot
    [du]/[dv]); positions are kept.  [integrate] calls it with 19/20 =
    0.95 on the solved grid, whose snapshot arrays hold the pre-solve
    grid. *)
Theorem flip_pic_blend :
  (forall flipRatio s s',
     transferGridToParticles flipRatio s = Ok s' ->
     s' = set_particles (particles s') s /\
     Forall2 (blended flipRatio s) (particles s) (particles s')) /\
  (forall dt s s',
     integrate Math_sin Math_sqrt dt s = Ok s' ->
     exists pre post,
       solveIncompressibility pre = Ok post /\
       take (length (u pre)) (du post) = u pre /\
       take (length (v pre)) (dv post) = v pre /\
       particles post = particles pre /\
       transferGridToParticles (lit 19 20) post = Ok s' /\
       (lit 19 20 * Qc_of_Z 100 = Qc_of_Z 95)%Qc).
Proof.
  split; [apply transferGridToParticles_Ok|].
  intros dt s s' (s1 & s2 & s3 & pre & post & _ & _ & _ & Hsnap & Hsolve & Hblend)%integrate_Ok.
  exists pre, post.
  apply snapshot_Ok in Hsnap as (Hpre & Hdu & Hdv & _).
  pose proof (solve_kept _ _ Hsolve) as (Hfr & _).
  destruct Hfr as (_ & _ & _ & _ & _ & Hp & _ & Hdu' & Hdv' & _).
  assert (Hu : u pre = u (apply_paddle Math_sin s3)) by (by rewrite Hpre).
  assert (Hv : v pre = v (apply_paddle Math_sin s3)) by (by rewrite Hpre).
  split_and!; try done.
  - by rewrite Hdu', Hu.
  - by rewrite Hdv', Hv.
  - apply Qc_is_canon. reflexivity.
Qed.
End Blend.


(** ** Splat followed by sample *)

Lemma u_face_of_solid_same s s' k :
  same_grid s s' -> u_face_of_solid s k <-> u_face_of_solid s' k.
Proof.
  intros Hs. assert (Hx : fNumX s' = fNumX s) by apply Hs.
  unfold u_face_of_solid, getUIndex. rewrite Hx.
  split; intros (i & j & Hc & Hk); exists i, j; (split; [|done]);
    by apply (cell_solid_same s s').
Qed.

Lemma v_face_of_solid_same s s' k :
  same_grid s s' -> v_face_of_solid s k <-> v_face_of_solid s' k.
Proof.
  intros Hs. assert (Hx : fNumX s' = fNumX s) by apply Hs.
  unfold v_face_of_solid, getVIndex. rewrite Hx.
  split; intros (i & j & Hc & Hk); exists i, j; (split; [|done]);
    by apply (cell_solid_same s s').
Qed.

Lemma normalized_uniform c g w k wk :
  uniform c g w -> at_ w k = Some wk -> (0 < wk)%Qc -> normalized g w k = Some c.
Proof.
  intros [_ Hu] Hk Hpos. unfold normalized. rewrite (Hu k wk Hk), Hk.
  rewrite decide_True by done. f_equal. field.
  intros ->. by apply Qclt_not_eq in Hpos.
Qed.

Lemma transfer_uniform s s' :
  transferParticlesToGrid s = Ok s' ->
  (forall c, length (uWeight s) = length (u s) ->
     Forall (fun p => Particle.u p = c) (particles s) ->
     forall k w, at_ (uWeight s') k = Some w -> (0 < w)%Qc ->
       ~ u_face_of_solid s' k -> at_ (u s') k = Some c) /\
  (forall c, length (vWeight s) = length (v s) ->
     Forall (fun p => Particle.v p = c) (particles s) ->
     forall k w, at_ (vWeight s') k = Some w -> (0 < w)%Qc ->
       ~ v_face_of_solid s' k -> at_ (v s') k = Some c).
Proof.
  intros (s1 & gu & gv & H1 & H2 & H3 & ->)%transfer_Ok.
  apply splat_particles_Ok in H1 as (_ & Hs1 & _ & _ & _ & Huu & Huv).
  destruct (normalize_spec (u s1) (uWeight s1)) as (gu' & Hgu & Hlu & Hatu).
  destruct (normalize_spec (v s1) (vWeight s1)) as (gv' & Hgv & Hlv & Hatv).
  assert (gu' = gu) as -> by congruence. assert (gv' = gv) as -> by congruence.
  set (s2 := set_v gv (set_u gu s1)).
  destruct (enforceBoundaries_spec s2) as (Hs3 & Hw1 & Hw2 & [Heu Hev] & _).
  split.
  - intros c Hl Hall k w Hk Hpos Hns. rewrite Hw1 in Hk. cbn in Hk.
    destruct (Heu k) as [->|[_ Hf]].
    + cbn. rewrite Hatu. eapply normalized_uniform; [|done..].
      apply Huu; [done|]. by apply uniform_fill.
    + exfalso. apply Hns. by apply (u_face_of_solid_same s2).
  - intros c Hl Hall k w Hk Hpos Hns. rewrite Hw2 in Hk. cbn in Hk.
    destruct (Hev k) as [->|[_ Hf]].
    + cbn. rewrite Hatv. eapply normalized_uniform; [|done..].
      apply Huv; [done|]. by apply uniform_fill.
    + exfalso. apply Hns. by apply (v_face_of_solid_same s2).
Qed.

Lemma sample_constant s x0 y0 g ox oy cols rows st c :
  locate s x0 y0 ox oy cols rows = Ok st ->
  (forall k, k ∈ stencil_nodes st cols -> at_ g k = Some c) ->
  sampleGrid s x0 y0 g ox oy cols rows = Ok c.
Proof.
  intros Hloc Hat. unfold sampleGrid. rewrite Hloc. cbn [mbind outcome_bind].
  unfold rd. rewrite !Hat by (unfold stencil_nodes; rewrite !elem_of_cons; auto 6).
  cbn [mbind outcome_bind]. f_equal. ring.
Qed.

(** C5. If every particle carries the same velocity [c], then after the
    transfer a bilinear sample of the face array at any point whose four
    stencil faces received positive weight and are not faces of a solid
    cell returns exactly [c] (for the [u] and for the [v] component). *)
Theorem splat_then_sample_is_identity_on_uniform_fields s s' c x0 y0 :
  transferParticlesToGrid s = Ok s' ->
  (length (uWeight s) = length (u s) ->
   Forall (fun p => Particle.u p = c) (particles s) ->
   forall st,
     locate s' x0 y0 0%Qc (lit 1 2) (fNumX s' + 1) (fNumY s') = Ok st ->
     (forall k, k ∈ stencil_nodes st (fNumX s' + 1) ->
        (exists w, at_ (uWeight s') k = Some w /\ (0 < w)%Qc) /\
        ~ u_face_of_solid s' k) ->
     sampleGrid s' x0 y0 (u s') 0%Qc (lit 1 2) (fNumX s' + 1) (fNumY s') = Ok c) /\
  (length (vWeight s) = length (v s) ->
   Forall (fun p => Particle.v p = c) (particles s) ->
   forall st,
     locate s' x0 y0 (lit 1 2) 0%Qc (fNumX s') (fNumY s' + 1) = Ok st ->
     (forall k, k ∈ stencil_nodes st (fNumX s') ->
        (exists w, at_ (vWeight s') k = Some w /\ (0 < w)%Qc) /\
        ~ v_face_of_solid s' k) ->
     sampleGrid s' x0 y0 (v s') (lit 1 2) 0%Qc (fNumX s') (fNumY s' + 1) = Ok c).
Proof.
  intros [Hu Hv]%transfer_uniform. split.
  - intros Hl Hall st Hloc Hst. eapply sample_constant; [done|].
    intros k Hk. destruct (Hst k Hk) as [(w & Hw & Hpos) Hns]. eauto.
  - intros Hl Hall st Hloc Hst. eapply sample_constant; [done|].
    intros k Hk. destruct (Hst k Hk) as [(w & Hw & Hpos) Hns]. eauto.
Qed.


(** ** Separation and the step sequence *)

Lemma particles_only_refl s : particles_only s s.
Proof. unfold particles_only. by destruct s. Qed.

Lemma particles_only_trans s1 s2 s3 :
  particles_only s1 s2 -> particles_only s2 s3 -> particles_only s1 s3.
Proof. unfold particles_only. intros -> ->. done. Qed.

Lemma particles_only_set ps s : particles_only s (set_particles ps s).
Proof. done. Qed.

Section Step.
Variable Math_sin : Qc -> Qc.
Variable Math_sqrt : Qc -> Qc.

Lemma push_apart_length r rs i nb ps ps' :
  push_apart Math_sqrt r rs i nb ps = Ok ps' -> length ps' = length ps.
Proof.
  unfold push_apart. case_decide; [by intros [= <-]|].
  destruct (at_ ps i) as [p|]; [|done].
  destruct (at_ ps nb) as [pn|]; [|done].
  case_decide; [|by intros [= <-]].
  intros Hb. apply bind_Ok in Hb as (qx & _ & Hb).
  apply bind_Ok in Hb as (qy & _ & Hb). injection Hb as <-.
  by rewrite !length_wr.
Qed.

Lemma walk_length fuel nextP r rs i : forall nb ps ps',
  walk Math_sqrt fuel nextP r rs i nb ps = Ok ps' -> length ps' = length ps.
Proof.
  induction fuel as [|fuel IH]; intros nb ps ps'; simpl.
  - case_decide; [by intros [= <-]|done].
  - case_decide; [by intros [= <-]|].
    intros Hb. apply bind_Ok in Hb as (ps1 & H1%push_apart_length & Hb).
    destruct (at_ nextP nb) as [nb'|]; [|done].
    apply IH in Hb. congruence.
Qed.

Lemma visit_cell_length s fh np r rs i nx ny ps ps' :
  visit_cell Math_sqrt s fh np r rs i nx ny ps = Ok ps' -> length ps' = length ps.
Proof.
  unfold visit_cell. case_decide; [by intros [= <-]|].
  destruct (at_ fh _); [|done]. apply walk_length.
Qed.

Lemma separate_particle_length s invH fh np r rs i ps ps' :
  separate_particle Math_sqrt s invH fh np r rs i ps = Ok ps' ->
  length ps' = length ps.
Proof.
  unfold separate_particle. destruct (at_ ps i) as [p|]; [|done].
  apply (forZM_inv (fun l => length l = length ps)); [done|].
  intros nx l l' _ Hl.
  apply (forZM_inv (fun l => length l = length ps)); [done|].
  intros ny l1 l2 _ Hl1 Hv%visit_cell_length. congruence.
Qed.

Lemma separateParticles_Ok s s' :
  separateParticles Math_sqrt s = Ok s' ->
  particles_only s s' /\ length (particles s') = length (particles s).
Proof.
  unfold separateParticles. intros Hb.
  apply bind_Ok in Hb as (invH & _ & Hb).
  apply bind_Ok in Hb as (fh & _ & Hb).
  apply bind_Ok in Hb as (np & _ & Hb).
  apply bind_Ok in Hb as ([fh' np'] & _ & Hb).
  apply bind_Ok in Hb as (ps & Hps & Hb). injection Hb as <-.
  split; [done|]. cbn [particles set_particles].
  revert Hps. apply (forZM_inv (fun l => length l = length (particles s))); [done|].
  intros _ l l' _ Hl.
  apply (forZM_inv (fun l => length l = length (particles s))); [done|].
  intros i l1 l2 _ Hl1 Hv%separate_particle_length. congruence.
Qed.

Lemma advectParticles_Ok dt s s' :
  advectParticles Math_sqrt dt s = Ok s' ->
  particles_only s s' /\ length (particles s') = length (particles s) /\
  exists ps, length ps = length (particles s) /\
    particles s' =
      map (clamp (Qc_of_Z (fNumX s) * h s)%Qc (Qc_of_Z (fNumY s) * h s)%Qc
             (h s * lit 11 10)%Qc) ps.
Proof.
  unfold advectParticles. intros Hb.
  apply bind_Ok in Hb as (s1 & [Hpo Hlen]%separateParticles_Ok & Hb).
  injection Hb as <-. cbn [particles set_particles] in *.
  rewrite length_map in Hlen.
  split; [unfold particles_only in *; rewrite Hpo; reflexivity|].
  split; [by rewrite length_map|].
  exists (particles s1). split; [done|]. reflexivity.
Qed.

Lemma calculateParticleDensity_Ok s s' :
  calculateParticleDensity s = Ok s' ->
  s' = set_pDensity (pDensity s') s.
Proof.
  unfold calculateParticleDensity. intros Hb.
  apply bind_Ok in Hb as (g & _ & Hb). by injection Hb as <-.
Qed.

Lemma apply_paddle_frame s :
  let s' := apply_paddle Math_sin s in
  s' = set_u (u s') s /\ length (u s') = length (u s).
Proof.
  unfold apply_paddle.
  apply (forZ_inv (fun t0 => t0 = set_u (u t0) s /\ length (u t0) = length (u s))).
  - split; [by destruct s|done].
  - intros j t0 _ [Ht Hl]. unfold paddle_row. cbn [u set_u]. rewrite length_wr.
    split; [|done]. rewrite Ht. reflexivity.
Qed.

Lemma integrate_particles dt s s' :
  integrate Math_sin Math_sqrt dt s = Ok s' ->
  exists s1,
    advectParticles Math_sqrt dt (set_totalTime (totalTime s + dt)%Qc s) = Ok s1 /\
    Forall2 (fun p p' => Particle.x p' = Particle.x p /\ Particle.y p' = Particle.y p)
      (particles s1) (particles s').
Proof.
  intros (s1 & s2 & s3 & pre & post & H1 & H2 & H3 & H4 & H5 & H6)%integrate_Ok.
  exists s1. split; [done|].
  apply transfer_shape in H2 as (_ & _ & _ & Hs2 & _).
  assert (Hp2 : particles s2 = particles s1) by apply Hs2.
  apply calculateParticleDensity_Ok in H3.
  assert (Hp3 : particles s3 = particles s2) by (by rewrite H3).
  destruct (apply_paddle_frame s3) as [Hpad _].
  assert (Hp4 : particles (apply_paddle Math_sin s3) = particles s3) by (by rewrite Hpad).
  apply snapshot_Ok in H4 as (Hpre & _).
  assert (Hp5 : particles pre = particles (apply_paddle Math_sin s3)) by (by rewrite Hpre).
  apply solve_kept in H5 as ((_ & _ & _ & _ & _ & Hp6 & _) & _).
  apply transferGridToParticles_Ok in H6 as [_ Hbl].
  rewrite Hp6, Hp5, Hp4, Hp3, Hp2 in Hbl.
  eapply Forall2_impl; [|exact Hbl].
  intros p p' (?&?&?&?&_&_&_&_&Hx&Hy&_). done.
Qed.

Lemma integrate_length dt s s' :
  integrate Math_sin Math_sqrt dt s = Ok s' ->
  length (particles s') = length (particles s).
Proof.
  intros (s1 & Hadv & Hall)%integrate_particles.
  apply advectParticles_Ok in Hadv as (_ & Hlen & _).
  apply Forall2_length in Hall. cbn [particles set_totalTime] in Hlen. congruence.
Qed.

(** C9. A completed call of [integrate] leaves the number of particles
    unchanged, for every [dt]. *)
Theorem integrate_preserves_particle_count dt s s' :
  integrate Math_sin Math_sqrt dt s = Ok s' ->
  length (particles s') = length (particles s).
Proof. apply integrate_length. Qed.

End Step.


Lemma gcd_square n d : Z.gcd n d = 1 -> Z.gcd (n * n) (d * d) = 1.
Proof.
  intros H. change (Z.coprime (n * n) (d * d)). change (Z.coprime n d) in H.
  apply Z.coprime_mul_l; apply Z.coprime_mul_r; done.
Qed.

Lemma Qc_sqrt_square (a : Qc) : (0 <= a)%Qc -> Qc_sqrt (a * a) = a.
Proof.
  intros Hnn. destruct a as [[n d] Hc]. unfold Qcle, Q2Qc in Hnn. cbn [this] in Hnn.
  assert (Hn : 0 <= n).
  { change (Qred 0) with (0 # 1)%Q in Hnn. unfold Qle in Hnn.
    cbn [Qnum Qden] in Hnn. lia. }
  pose proof (Qred_identity2 _ Hc) as Hg. cbn [Qnum Qden] in Hg.
  unfold Qc_sqrt. unfold Qcmult, Q2Qc. cbn [this].
  assert (Hred : Qred ((n # d) * (n # d)) = (n * n # d * d)%Q).
  { apply Qred_identity. cbn [Qnum Qden Qmult]. rewrite Pos2Z.inj_mul.
    by apply gcd_square. }
  rewrite Hred. cbn [Qnum Qden]. rewrite Pos2Z.inj_mul.
  replace (n * n * (Z.pos d * Z.pos d)) with ((n * Z.pos d) * (n * Z.pos d)) by ring.
  rewrite Z.sqrt_square by lia.
  apply Qc_is_canon. cbn [this]. rewrite Qred_correct.
  unfold Qeq. cbn [Qnum Qden]. rewrite Pos2Z.inj_mul. ring.
Qed.


(** ** The two-particle separation scenario *)

Lemma at_0 {A} (a : A) l : at_ (a :: l) 0 = Some a.
Proof. reflexivity. Qed.
Lemma at_1 {A} (a b : A) l : at_ (a :: b :: l) 1 = Some b.
Proof. reflexivity. Qed.
Lemma at_replicate {A} n (x : A) k :
  0 <= k < Z.of_nat n -> at_ (replicate n x) k = Some x.
Proof.
  intros Hk. unfold at_. rewrite decide_True by lia.
  apply lookup_replicate_2. lia.
Qed.

Lemma mk_eq a b a' b' c d :
  a = a' -> b = b' -> Particle.mk a b c d = Particle.mk a' b' c d.
Proof. by intros -> ->. Qed.

Section Scenario.
Variable Math_sqrt : Qc -> Qc.
Hypothesis sqrt_square : forall a : Qc, (0 <= a)%Qc -> Math_sqrt (a * a) = a.

Variable s : t.
Variables u0 v0 u1 v1 : Qc.
Hypothesis h_big : (lit 2 1000 < h s)%Qc.
Hypothesis X_pos : 1 <= fNumX s.
Hypothesis Y_pos : 1 <= fNumY s.

Let P0 := Particle.mk 0%Qc 0%Qc u0 v0.
Let P1 := Particle.mk 0%Qc (h s * lit 1 2)%Qc u1 v1.
Let Q0 := Particle.mk 0%Qc (- (h s * lit 1 4))%Qc u0 v0.
Let Q1 := Particle.mk 0%Qc (h s * lit 3 4)%Qc u1 v1.
Let invH := (1 / h s)%Qc.
Let n := Z.to_nat (fNumX s * fNumY s).
Let firstHead := wr (wr (replicate n (-1)) 0 0) 0 1.
Let nextParticle := [-1; 0].

Lemma h_nonzero : h s <> 0%Qc.
Proof. intros Heq. rewrite Heq in h_big. revert h_big. by vm_compute. Qed.

Lemma h_pos : (0 < h s)%Qc.
Proof. eapply Qclt_trans; [|exact h_big]. by vm_compute. Qed.

Lemma floor_zero_x : Math_floor (0 * invH)%Qc = 0.
Proof. by rewrite Qcmult_0_l. Qed.

Lemma floor_half : Math_floor (h s * lit 1 2 * invH)%Qc = 0.
Proof.
  replace (h s * lit 1 2 * invH)%Qc with (lit 1 2); [done|].
  unfold invH. field. apply h_nonzero.
Qed.

Lemma floor_three_quarters : Math_floor (h s * lit 3 4 * invH)%Qc = 0.
Proof.
  replace (h s * lit 3 4 * invH)%Qc with (lit 3 4); [done|].
  unfold invH. field. apply h_nonzero.
Qed.

Lemma hash_P0 : hash_cell s invH P0 = 0.
Proof.
  unfold hash_cell, P0. cbn [Particle.x Particle.y]. rewrite floor_zero_x. lia.
Qed.

Lemma hash_P1 : hash_cell s invH P1 = 0.
Proof.
  unfold hash_cell, P1. cbn [Particle.x Particle.y].
  rewrite floor_zero_x, floor_half. lia.
Qed.

Lemma n_pos : (1 <= n)%nat.
Proof. unfold n. nia. Qed.

Lemma alloc_heads : alloc (fNumX s * fNumY s) (-1) = Ok (replicate n (-1)).
Proof. unfold alloc. rewrite decide_False by nia. done. Qed.

Lemma fill_hash_step_at i p fh np :
  at_ (particles s) i = Some p ->
  fill_hash_step s invH i (fh, np) =
  Ok (wr fh (hash_cell s invH p) i,
      wr np i (default 0 (at_ fh (hash_cell s invH p)))).
Proof. intros Hp. unfold fill_hash_step. by rewrite Hp. Qed.

Lemma fill_result :
  particles s = [P0; P1] ->
  forZM 0 2 (fill_hash_step s invH) (replicate n (-1), [-1; -1])
  = Ok (firstHead, nextParticle).
Proof.
  intros Hp. unfold forZM. change (seqZ 0 (2 - 0)) with [0; 1].
  pose proof n_pos as Hn.
  cbn [iterM].
  rewrite (fill_hash_step_at 0 P0) by (by rewrite Hp).
  cbn [mbind outcome_bind].
  rewrite (fill_hash_step_at 1 P1) by (by rewrite Hp).
  cbn [mbind outcome_bind].
  rewrite hash_P0, hash_P1.
  rewrite at_replicate by lia.
  rewrite at_wr_eq by (rewrite length_replicate; lia).
  reflexivity.
Qed.

Lemma firstHead_0 : at_ firstHead 0 = Some 1.
Proof.
  pose proof n_pos. unfold firstHead.
  apply at_wr_eq. rewrite length_wr, length_replicate. lia.
Qed.

Lemma firstHead_other k :
  0 < k < fNumX s * fNumY s -> at_ firstHead k = Some (-1).
Proof.
  intros Hk. unfold firstHead. rewrite !at_wr_ne by lia.
  apply at_replicate. unfold n. lia.
Qed.

Lemma walk_end fuel np r rs i ps : walk Math_sqrt fuel np r rs i (-1) ps = Ok ps.
Proof. by destruct fuel. Qed.

Lemma visit_other r rs i nx ny ps :
  (nx, ny) <> (0, 0) ->
  visit_cell Math_sqrt s firstHead nextParticle r rs i nx ny ps = Ok ps.
Proof.
  intros Hne. unfold visit_cell. case_decide as Hb; [done|].
  rewrite firstHead_other; [apply walk_end|].
  assert (nx <> 0 \/ ny <> 0) by (destruct (decide (nx = 0)); [right|left]; congruence).
  nia.
Qed.

Lemma separate_origin r rs i ps p :
  at_ ps i = Some p ->
  Math_floor (Particle.x p * invH)%Qc = 0 ->
  Math_floor (Particle.y p * invH)%Qc = 0 ->
  separate_particle Math_sqrt s invH firstHead nextParticle r rs i ps
  = visit_cell Math_sqrt s firstHead nextParticle r rs i 0 0 ps.
Proof.
  intros Hp Hx Hy. unfold separate_particle. rewrite Hp, Hx, Hy.
  unfold forZM. change (seqZ (0 - 1) (0 + 2 - (0 - 1))) with [-1; 0; 1].
  cbn [iterM].
  repeat (rewrite visit_other by done; cbn [mbind outcome_bind]).
  destruct (visit_cell Math_sqrt s firstHead nextParticle r rs i 0 0 ps) as [ps'|];
    [|done].
  cbn [mbind outcome_bind].
  repeat (rewrite visit_other by done; cbn [mbind outcome_bind]). done.
Qed.

Lemma push_first :
  push_apart Math_sqrt (h s) (h s * h s)%Qc 0 1 [P0; P1] = Ok [Q0; Q1].
Proof.
  unfold push_apart. rewrite decide_False by done. rewrite at_0, at_1.
  unfold P0, P1. cbn [Particle.x Particle.y Particle.u Particle.v].
  pose proof h_pos as Hpos. pose proof h_nonzero as Hnz.
  assert (Hd : ((0 - 0) * (0 - 0) + (0 - h s * lit 1 2) * (0 - h s * lit 1 2))%Qc
               = (h s * lit 1 2 * (h s * lit 1 2))%Qc) by ring.
  rewrite Hd. rewrite sqrt_square by qc_lra.
  rewrite decide_True by (split; qc_lra).
  rewrite !js_div_nonzero by qc_lra.
  cbn [mbind outcome_bind]. unfold wr. rewrite !decide_True by lia.
  change (Z.to_nat 0) with 0%nat. change (Z.to_nat 1) with 1%nat.
  cbn [insert list_insert]. unfold Q0, Q1.
  f_equal. f_equal; [apply mk_eq|f_equal; apply mk_eq]; try (qc_field; intros Hz; apply Hnz; qc_lra).
Qed.
Lemma push_second :
  push_apart Math_sqrt (h s) (h s * h s)%Qc 1 0 [Q0; Q1] = Ok [Q0; Q1].
Proof.
  unfold push_apart. rewrite decide_False by done. rewrite at_0, at_1.
  unfold Q0, Q1. cbn [Particle.x Particle.y Particle.u Particle.v].
  rewrite decide_False; [done|]. intros [Hlt _]. revert Hlt. apply Qcle_not_lt.
  qc_lra.
Qed.

Lemma bounds_origin :
  ~ (0 < 0 \/ fNumX s <= 0 \/ 0 < 0 \/ fNumY s <= 0).
Proof. lia. Qed.

Lemma walk_step fuel np r rs i nb ps ps' nb' :
  nb <> -1 ->
  push_apart Math_sqrt r rs i nb ps = Ok ps' ->
  at_ np nb = Some nb' ->
  walk Math_sqrt (S fuel) np r rs i nb ps = walk Math_sqrt fuel np r rs i nb' ps'.
Proof.
  intros Hnb Hpush Hnext. cbn [walk]. case_decide; [done|].
  rewrite Hpush. cbn [mbind outcome_bind]. by rewrite Hnext.
Qed.

Lemma push_self r rs i ps : push_apart Math_sqrt r rs i i ps = Ok ps.
Proof. unfold push_apart. by rewrite decide_True. Qed.

Lemma visit_first :
  visit_cell Math_sqrt s firstHead nextParticle (h s) (h s * h s)%Qc 0 0 0 [P0; P1]
  = Ok [Q0; Q1].
Proof.
  unfold visit_cell. rewrite decide_False by apply bounds_origin.
  replace (0 + 0 * fNumX s) with 0 by lia. rewrite firstHead_0. cbn [length].
  rewrite (walk_step _ _ _ _ _ _ _ [Q0; Q1] 0); [|lia|apply push_first|done].
  rewrite (walk_step _ _ _ _ _ _ _ [Q0; Q1] (-1)); [|lia|apply push_self|done].
  apply walk_end.
Qed.

Lemma visit_second :
  visit_cell Math_sqrt s firstHead nextParticle (h s) (h s * h s)%Qc 1 0 0 [Q0; Q1]
  = Ok [Q0; Q1].
Proof.
  unfold visit_cell. rewrite decide_False by apply bounds_origin.
  replace (0 + 0 * fNumX s) with 0 by lia. rewrite firstHead_0. cbn [length].
  rewrite (walk_step _ _ _ _ _ _ _ [Q0; Q1] 0); [|lia|apply push_self|done].
  rewrite (walk_step _ _ _ _ _ _ _ [Q0; Q1] (-1)); [|lia|apply push_second|done].
  apply walk_end.
Qed.

Lemma scenario :
  particles s = [P0; P1] ->
  separateParticles Math_sqrt s = Ok (set_particles [Q0; Q1] s).
Proof.
  intros Hp. unfold separateParticles.
  rewrite js_div_nonzero by apply h_nonzero. cbn [mbind outcome_bind].
  rewrite alloc_heads. cbn [mbind outcome_bind].
  rewrite Hp. change (Z.of_nat (length [P0; P1])) with 2.
  change (alloc 2 (-1)) with (Ok [-1; -1]). cbn [mbind outcome_bind].
  fold invH. rewrite (fill_result Hp). cbn [mbind outcome_bind].
  unfold forZM. change (seqZ 0 (1 - 0)) with [0]. change (seqZ 0 (2 - 0)) with [0; 1].
  cbn [iterM].
  rewrite (separate_origin _ _ 0 _ P0); [|done|apply floor_zero_x..].
  rewrite visit_first. cbn [mbind outcome_bind].
  rewrite (separate_origin _ _ 1 _ Q1);
    [|done|apply floor_zero_x|apply floor_three_quarters].
  rewrite visit_second. reflexivity.
Qed.

End Scenario.


Ltac decide_by_computation := apply (bool_decide_unpack _); vm_compute; exact I.

(** C3 (as amended). Two particles at [(0, 0)] and [(0, h/2)], cell size
    [h > 0.002] (so that the squared distance [h^2/4] passes the guard
    [distSq > 0.000001]), a grid with at least one cell and a square root
    exact on squares: one separation pass ends with the particles at
    [(0, -h/4)] and [(0, 3h/4)], each moved by [(h - h/2) * 0.5] along the
    y-axis, velocities untouched, and nothing else corrects the pair. *)
Theorem separation_scenario (Math_sqrt : Qc -> Qc) s u0 v0 u1 v1 :
  (forall a : Qc, (0 <= a)%Qc -> Math_sqrt (a * a)%Qc = a) ->
  (lit 2 1000 < h s)%Qc -> 1 <= fNumX s -> 1 <= fNumY s ->
  particles s = [Particle.mk 0%Qc 0%Qc u0 v0;
                 Particle.mk 0%Qc (h s * lit 1 2)%Qc u1 v1] ->
  separateParticles Math_sqrt s =
    Ok (set_particles
          [Particle.mk 0%Qc (- (h s * lit 1 4))%Qc u0 v0;
           Particle.mk 0%Qc (h s * lit 3 4)%Qc u1 v1] s) /\
  (- (h s * lit 1 4) = 0 - (h s - h s * lit 1 2) * lit 1 2)%Qc /\
  (h s * lit 3 4 = h s * lit 1 2 + (h s - h s * lit 1 2) * lit 1 2)%Qc.
Proof.
  intros Hsq Hh HX HY Hp. split; [by apply scenario|]. split; qc_field.
Qed.

(** The scenario at cell size 10. *)
Lemma separation_scenario_witness :
  separateParticles Qc_sqrt (pair_state (lit 10 1)) =
    Ok (set_particles
          [Particle.mk 0%Qc (- (lit 10 1 * lit 1 4))%Qc 0%Qc 0%Qc;
           Particle.mk 0%Qc (lit 10 1 * lit 3 4)%Qc 0%Qc 0%Qc]
          (pair_state (lit 10 1))).
Proof.
  apply (separation_scenario Qc_sqrt (pair_state (lit 10 1)) 0%Qc 0%Qc 0%Qc 0%Qc).
  - apply Qc_sqrt_square.
  - by vm_compute.
  - by vm_compute.
  - by vm_compute.
  - reflexivity.
Defined.

(** With cell size 0.001 the squared distance of the pair, 0.00000025,
    fails the guard [distSq > 0.000001]: the pass leaves both particles
    where they are. *)
Lemma separation_skipped_below_guard :
  separateParticles Qc_sqrt (pair_state (lit 1 1000)) = Ok (pair_state (lit 1 1000)) /\
  particles (pair_state (lit 1 1000)) <>
    [Particle.mk 0%Qc (- (lit 1 1000 * lit 1 4))%Qc 0%Qc 0%Qc;
     Particle.mk 0%Qc (lit 1 1000 * lit 3 4)%Qc 0%Qc 0%Qc].
Proof. split; decide_by_computation. Qed.


(** ** Seeding and construction *)

Lemma Qc_of_nat_S n : Qc_of_nat (S n) = (Qc_of_nat n + 1)%Qc.
Proof.
  unfold Qc_of_nat. rewrite Nat2Z.inj_succ. apply Qc_is_canon.
  unfold Qc_of_Z, Qcplus, Q2Qc. cbn [this]. rewrite !Qred_correct.
  unfold Z.succ. rewrite inject_Z_plus. reflexivity.
Qed.

Lemma Qc_of_nat_0 : Qc_of_nat 0 = 0%Qc.
Proof. by apply Qc_is_canon. Qed.

Lemma archimedean (a sp : Qc) :
  (0 < sp)%Qc -> exists n : nat, (a <= Qc_of_nat n * sp)%Qc.
Proof.
  intros Hsp. exists (Z.to_nat (Qceiling (a / sp)%Qc)).
  pose proof (Qle_ceiling (a / sp)%Qc) as Hc.
  assert (Hn : (inject_Z (Qceiling (a / sp)%Qc)
                <= inject_Z (Z.of_nat (Z.to_nat (Qceiling (a / sp)%Qc))))%Q).
  { rewrite <-Zle_Qle. lia. }
  assert (Ha : a = (a / sp * sp)%Qc) by (field; intros ->; by apply Qclt_not_eq in Hsp).
  rewrite Ha at 1. apply Qcmult_le_mono_nonneg_r; [by apply Qclt_le_weak|].
  unfold Qcle, Qc_of_nat, Qc_of_Z. cbn [this]. eapply Qle_trans; [exact Hc|exact Hn].
Qed.

Section Seeding.
Variable Math_random : nat -> Qc.

Lemma init_column_prefix fuel cell x0 maxH sp : forall y0 ps ps',
  init_column Math_random fuel cell x0 maxH sp y0 ps = Ok ps' ->
  exists extra, ps' = ps ++ extra.
Proof.
  induction fuel as [|fuel IH]; intros y0 ps ps'; cbn [init_column].
  - case_decide; [done|]. intros [= <-]. exists []. by rewrite app_nil_r.
  - case_decide as Hlt; [|intros [= <-]; exists []; by rewrite app_nil_r].
    intros [extra ->]%IH. rewrite <-app_assoc. eauto.
Qed.

(** With a non-positive spacing the loop condition stays true. *)
Lemma init_column_diverges fuel cell x0 maxH sp : forall y0 ps,
  (sp <= 0)%Qc -> (y0 < maxH)%Qc ->
  init_column Math_random fuel cell x0 maxH sp y0 ps = Err Timeout.
Proof.
  induction fuel as [|fuel IH]; intros y0 ps Hsp Hlt; cbn [init_column];
    rewrite decide_True by done; [done|].
  apply IH; [done|]. qc_lra.
Qed.

Lemma init_column_Ok fuel cell x0 maxH sp y0 ps ps' :
  init_column Math_random fuel cell x0 maxH sp y0 ps = Ok ps' ->
  (exists extra, ps' = ps ++ extra) /\
  (ps' <> ps -> (0 < sp)%Qc /\ (y0 < maxH)%Qc).
Proof.
  intros Hok. split; [by eapply init_column_prefix|].
  intros Hne. destruct (decide (y0 < maxH)%Qc) as [Hlt|Hlt].
  - split; [|done]. apply Qcnot_le_lt. intros Hsp.
    by rewrite init_column_diverges in Hok.
  - destruct fuel; cbn [init_column] in Hok; rewrite decide_False in Hok by done;
      congruence.
Qed.

Lemma init_rows_Ok fuel cell xEnd startY maxH sp : forall x0 ps ps',
  init_rows Math_random fuel cell xEnd startY maxH sp x0 ps = Ok ps' ->
  (exists extra, ps' = ps ++ extra) /\
  (ps' <> ps -> (0 < sp)%Qc /\ (startY < maxH)%Qc /\ (x0 < xEnd)%Qc).
Proof.
  induction fuel as [|fuel IH]; intros x0 ps ps'; cbn [init_rows].
  - case_decide; [done|]. intros [= <-]. split; [exists []; by rewrite app_nil_r|done].
  - case_decide as Hlt;
      [|intros [= <-]; split; [exists []; by rewrite app_nil_r|done]].
    intros Hb. apply bind_Ok in Hb as (ps1 & [[e1 ->] Hc]%init_column_Ok & Hb).
    apply IH in Hb as [[e2 ->] Hr]. split; [rewrite <-app_assoc; eauto|].
    intros Hne. destruct (decide (ps ++ e1 = ps)) as [Heq|Hne1].
    + rewrite Heq in Hr, Hne. destruct (Hr Hne) as (? & ? & _). done.
    + destruct (Hc Hne1). done.
Qed.

Lemma init_column_total cell x0 maxH sp :
  (0 < sp)%Qc -> forall n y0 ps fuel,
  (maxH - y0 <= Qc_of_nat n * sp)%Qc -> (n < fuel)%nat ->
  exists ps', init_column Math_random fuel cell x0 maxH sp y0 ps = Ok ps'.
Proof.
  intros Hsp. induction n as [|n IH]; intros y0 ps fuel Hle Hf;
    (destruct fuel as [|fuel]; [lia|]); cbn [init_column].
  - rewrite Qc_of_nat_0 in Hle. rewrite decide_False by qc_lra. eauto.
  - case_decide; [|eauto]. apply IH; [|lia].
    rewrite Qc_of_nat_S in Hle. qc_lra.
Qed.

Lemma init_rows_total cell xEnd startY maxH sp ncol :
  (0 < sp)%Qc -> (maxH - startY <= Qc_of_nat ncol * sp)%Qc ->
  forall m x0 ps fuel,
  (xEnd - x0 <= Qc_of_nat m * sp)%Qc -> (m + ncol + 1 < fuel)%nat ->
  exists ps', init_rows Math_random fuel cell xEnd startY maxH sp x0 ps = Ok ps'.
Proof.
  intros Hsp Hcol. induction m as [|m IH]; intros x0 ps fuel Hle Hf;
    (destruct fuel as [|fuel]; [lia|]); cbn [init_rows].
  - rewrite Qc_of_nat_0 in Hle. rewrite decide_False by qc_lra. eauto.
  - case_decide; [|eauto].
    destruct (init_column_total cell x0 maxH sp Hsp ncol startY ps fuel) as [ps1 ->];
      [done|lia|].
    cbn [mbind outcome_bind]. apply IH; [|lia].
    rewrite Qc_of_nat_S in Hle. qc_lra.
Qed.

End Seeding.

Lemma Qc_of_Z_pos z : (0 < Qc_of_Z z)%Qc <-> 0 < z.
Proof.
  unfold Qclt, Qc_of_Z. cbn [this]. change (this 0%Qc) with (inject_Z 0).
  by rewrite <-Zlt_Qlt.
Qed.

Lemma Qc_of_Z_le a b : (Qc_of_Z a <= Qc_of_Z b)%Qc <-> a <= b.
Proof. unfold Qcle, Qc_of_Z. cbn [this]. by rewrite <-Zle_Qle. Qed.

(** *** initGrid *)

Lemma initGrid_cell_spec i j s :
  grid_frame s (initGrid_cell i j s) /\
  forall k, at_ (cellType (initGrid_cell i j s)) k =
    if decide (k = i + j * fNumX s /\ 0 <= k < Z.of_nat (length (cellType s)))
    then Some (ring_type s i j) else at_ (cellType s) k.
Proof.
  unfold initGrid_cell, grid_frame. cbn [cellType set_cellType]. rewrite length_wr.
  split; [done|]. intros k. rewrite at_wr. unfold ring_type.
  repeat case_decide; try done; exfalso; lia.
Qed.

Lemma grid_frame_trans s1 s2 s3 : grid_frame s1 s2 -> grid_frame s2 s3 -> grid_frame s1 s3.
Proof. unfold grid_frame. intros [-> H1] [-> H2]. split; [done|]. cbn in *. congruence. Qed.

Lemma grid_frame_refl s : grid_frame s s.
Proof. split; [by destruct s|done]. Qed.

Lemma ring_type_frame s s' i j : grid_frame s s' -> ring_type s' i j = ring_type s i j.
Proof. intros [-> _]. done. Qed.

Lemma initGrid_spec s :
  Z.of_nat (length (cellType s)) = fNumX s * fNumY s ->
  grid_frame s (initGrid s) /\
  forall i j, 0 <= i < fNumX s -> 0 <= j < fNumY s ->
    at_ (cellType (initGrid s)) (getCellIndex s i j) = Some (ring_type s i j).
Proof.
  intros Hlen. unfold initGrid.
  destruct (decide (0 <= fNumX s)) as [HX|HX].
  2:{ rewrite forZ_empty by lia. split; [apply grid_frame_refl|]. intros; lia. }
  cut ((fun i t0 => grid_frame s t0 /\
          forall i0 j0, 0 <= i0 < i -> 0 <= j0 < fNumY s ->
            at_ (cellType t0) (getCellIndex s i0 j0) = Some (ring_type s i0 j0))
       (fNumX s)
       (forZ 0 (fNumX s) (fun i => forZ 0 (fNumY s) (fun j => initGrid_cell i j)) s)).
  { intros [Hf Hc]. split; [done|]. intros i j Hi Hj. by apply Hc. }
  apply forZ_ind; [done| |].
  - split; [apply grid_frame_refl|]. intros; lia.
  - intros i t0 Hi [Hf Hc].
    destruct (decide (0 <= fNumY s)) as [HY|HY].
    2:{ rewrite forZ_empty by lia. split; [done|]. intros; lia. }
    cut ((fun j t1 => grid_frame s t1 /\
            forall i0 j0, (0 <= i0 < i /\ 0 <= j0 < fNumY s) \/ (i0 = i /\ 0 <= j0 < j) ->
              at_ (cellType t1) (getCellIndex s i0 j0) = Some (ring_type s i0 j0))
         (fNumY s) (forZ 0 (fNumY s) (fun j => initGrid_cell i j) t0)).
    { intros [Hf' Hc']. split; [done|]. intros i0 j0 Hi0 Hj0. apply Hc'.
      destruct (decide (i0 = i)); [right|left]; lia. }
    apply forZ_ind; [done| |].
    + split; [done|]. intros i0 j0 [[? ?]|[? ?]]; [by apply Hc|lia].
    + intros j t1 Hj [Hf1 Hc1].
      destruct (initGrid_cell_spec i j t1) as [Hf2 Hat].
      split; [by eapply grid_frame_trans|].
      assert (Hx : fNumX t1 = fNumX s) by (destruct Hf1 as [-> _]; done).
      assert (Hl : length (cellType t1) = length (cellType s)) by apply Hf1.
      intros i0 j0 Hcase. rewrite Hat, Hx, Hl. unfold getCellIndex in *.
      case_decide as Hd.
      * destruct Hd as [Heq _]. apply v_index_unique in Heq as [-> ->]; [|lia..].
        by rewrite (ring_type_frame s t1).
      * apply Hc1. destruct Hcase as [?|[-> ?]]; [by left|].
        destruct (decide (j0 = j)) as [->|]; [|right; lia].
        exfalso. apply Hd. split; [done|]. nia.
Qed.

Lemma Qcmult_pos_cancel (a b : Qc) : (0 < a * b)%Qc -> (0 < b)%Qc -> (0 < a)%Qc.
Proof.
  intros Hab Hb. apply Qcnot_le_lt. intros Ha.
  apply (Qcmult_le_mono_nonneg_r _ _ b) in Ha; [|by apply Qclt_le_weak].
  rewrite Qcmult_0_l in Ha. by apply Qcle_not_lt in Ha.
Qed.

Section Construction.
Variable Math_random : nat -> Qc.

Lemma initParticles_Ok fuel s s' :
  initParticles Math_random fuel s = Ok s' ->
  particles_only s s' /\
  (particles s' = [] \/ ((0 < h s)%Qc /\ 4 < fNumX s /\ 2 < fNumY s)).
Proof.
  unfold initParticles. intros Hb.
  apply bind_Ok in Hb as (ps & [_ Hps]%init_rows_Ok & Hb). injection Hb as <-.
  split; [done|]. cbn [particles set_particles].
  destruct (decide (ps = [])) as [->|Hne]; [by left|right].
  destruct Hps as (Hsp & Hy & Hx); [done|]. clear Hne.
  assert (Hh : (0 < h s)%Qc) by qc_lra.
  assert (HX : (0 < Qc_of_Z (fNumX s - 4))%Qc).
  { apply (Qcmult_pos_cancel _ (h s)); [|done]. qc_lra. }
  assert (HY : (0 < Qc_of_Z (fNumY s - 2))%Qc).
  { apply (Qcmult_pos_cancel _ (h s)); [|done]. qc_lra. }
  apply (proj1 (Qc_of_Z_pos _)) in HX. apply (proj1 (Qc_of_Z_pos _)) in HY.
  split; [done|lia].
Qed.

Lemma initParticles_total s :
  (0 < h s)%Qc ->
  exists fuel0, forall fuel, (fuel0 <= fuel)%nat ->
    exists s', initParticles Math_random fuel s = Ok s'.
Proof.
  intros Hh. unfold initParticles.
  assert (Hsp : (0 < h s * lit 85 100)%Qc) by qc_lra.
  set (maxH := (Qc_of_Z (fNumY s - 1) * h s)%Qc).
  set (height := (Qc_of_Z (fNumY s - 2) * h s * lit 4 10)%Qc).
  set (startX := (h s * Qc_of_Z 2)%Qc).
  set (width := (Qc_of_Z (fNumX s - 4) * h s)%Qc).
  destruct (archimedean (maxH - (maxH - height)) _ Hsp) as [ncol Hcol].
  destruct (archimedean (startX + width - startX) _ Hsp) as [nrow Hrow].
  exists (nrow + ncol + 2)%nat. intros fuel Hf.
  destruct (init_rows_total Math_random (h s) (startX + width)%Qc (maxH - height)%Qc
              maxH _ ncol Hsp Hcol nrow startX [] fuel Hrow) as [ps ->]; [lia|].
  cbn [mbind outcome_bind]. eauto.
Qed.
End Construction.

Lemma alloc_Ok {A} n (x : A) a :
  alloc n x = Ok a -> 0 <= n /\ a = replicate (Z.to_nat n) x.
Proof. unfold alloc. case_decide; [done|]. intros [= <-]. split; [lia|done]. Qed.

Lemma alloc_nonneg {A} n (x : A) : 0 <= n -> alloc n x = Ok (replicate (Z.to_nat n) x).
Proof. intros. unfold alloc. by rewrite decide_False by lia. Qed.

Section Construct.
Variable Math_random : nat -> Qc.

Lemma construct_Ok fuel width height spacing s :
  construct Math_random fuel width height spacing = Ok s ->
  let X := Math_floor (width / spacing)%Qc + 1 in
  let Y := Math_floor (height / spacing)%Qc + 1 in
  spacing <> 0%Qc /\ 0 <= (X + 1) * Y /\ 0 <= X * (Y + 1) /\ 0 <= X * Y /\
  initParticles Math_random fuel (initGrid (blank X Y spacing)) = Ok s.
Proof.
  unfold construct. intros Hb.
  apply bind_Ok in Hb as (qx & [Hsp ->]%js_div_Ok & Hb).
  apply bind_Ok in Hb as (qy & [_ ->]%js_div_Ok & Hb).
  apply bind_Ok in Hb as (a1 & [Hu ->]%alloc_Ok & Hb).
  apply bind_Ok in Hb as (a2 & [Hv ->]%alloc_Ok & Hb).
  apply bind_Ok in Hb as (a3 & [_ ->]%alloc_Ok & Hb).
  apply bind_Ok in Hb as (a4 & [_ ->]%alloc_Ok & Hb).
  apply bind_Ok in Hb as (a5 & [_ ->]%alloc_Ok & Hb).
  apply bind_Ok in Hb as (a6 & [_ ->]%alloc_Ok & Hb).
  apply bind_Ok in Hb as (a7 & [_ ->]%alloc_Ok & Hb).
  apply bind_Ok in Hb as (a8 & [_ ->]%alloc_Ok & Hb).
  apply bind_Ok in Hb as (a9 & [Hc ->]%alloc_Ok & Hb).
  apply bind_Ok in Hb as (a10 & [_ ->]%alloc_Ok & Hb).
  done.
Qed.

Lemma construct_unfold fuel width height spacing :
  let X := Math_floor (width / spacing)%Qc + 1 in
  let Y := Math_floor (height / spacing)%Qc + 1 in
  spacing <> 0%Qc -> 0 <= (X + 1) * Y -> 0 <= X * (Y + 1) -> 0 <= X * Y ->
  construct Math_random fuel width height spacing =
  initParticles Math_random fuel (initGrid (blank X Y spacing)).
Proof.
  intros X Y Hsp Hu Hv Hc. unfold construct.
  rewrite !js_div_nonzero by done. cbn [mbind outcome_bind].
  fold X Y. rewrite !alloc_nonneg by done. reflexivity.
Qed.

Lemma blank_shaped X Y cell :
  0 <= (X + 1) * Y -> 0 <= X * (Y + 1) -> 0 <= X * Y -> grid_shaped (blank X Y cell).
Proof.
  intros. unfold grid_shaped, blank. cbn. rewrite !length_replicate. lia.
Qed.

Lemma grid_frame_shaped s s' : grid_frame s s' -> grid_shaped s -> grid_shaped s'.
Proof.
  intros [Heq Hl]. unfold grid_shaped. rewrite Heq. cbn. by rewrite Hl.
Qed.

Lemma particles_only_shaped s s' : particles_only s s' -> grid_shaped s -> grid_shaped s'.
Proof. unfold particles_only. by intros ->. Qed.

Lemma floor_div_nonneg (a b : Qc) : (0 < a)%Qc -> (0 < b)%Qc -> 0 <= Math_floor (a / b)%Qc.
Proof.
  intros Ha Hb. unfold Math_floor.
  change 0 with (Qfloor (inject_Z 0)) at 1. apply Qfloor_resp_le.
  assert (0 < a / b)%Qc as Hq.
  { unfold Qcdiv. apply Qcmult_pos_pos; [done|by apply Qcinv_pos]. }
  apply Qclt_le_weak in Hq. exact Hq.
Qed.
End Construct.

Lemma initGrid_frame s : grid_frame s (initGrid s).
Proof.
  unfold initGrid.
  apply (forZ_inv (grid_frame s)); [apply grid_frame_refl|].
  intros i t0 _ Hf. apply (forZ_inv (grid_frame s)); [done|].
  intros j t1 _ Hf1. eapply grid_frame_trans; [done|]. apply initGrid_cell_spec.
Qed.

(** C7 (as amended). For positive width, height and cell spacing the
    constructor returns (given enough fuel for its two seeding loops) a
    state with the arrays allocated for a grid of
    [floor(width / spacing) + 1] by [floor(height / spacing) + 1] cells of
    size [spacing]; the quotients are exact and no allocation limit
    applies.  It validates nothing: see
    [construct_accepts_zero_dimensions]. *)
Theorem construct_succeeds_on_positive_dimensions
    (Math_random : nat -> Qc) (width height spacing : Qc) :
  (0 < width)%Qc -> (0 < height)%Qc -> (0 < spacing)%Qc ->
  exists fuel0, forall fuel, (fuel0 <= fuel)%nat ->
    exists s, construct Math_random fuel width height spacing = Ok s /\
      grid_shaped s /\ h s = spacing /\
      fNumX s = Math_floor (width / spacing)%Qc + 1 /\
      fNumY s = Math_floor (height / spacing)%Qc + 1.
Proof.
  intros Hw Hh Hsp.
  set (X := Math_floor (width / spacing)%Qc + 1).
  set (Y := Math_floor (height / spacing)%Qc + 1).
  pose proof (floor_div_nonneg _ _ Hw Hsp) as HX.
  pose proof (floor_div_nonneg _ _ Hh Hsp) as HY.
  assert (Hne : spacing <> 0%Qc) by (intros ->; by apply Qclt_not_eq in Hsp).
  pose proof (initGrid_frame (blank X Y spacing)) as Hfr.
  assert (Hcell : h (initGrid (blank X Y spacing)) = spacing)
    by (destruct Hfr as [-> _]; done).
  destruct (initParticles_total Math_random (initGrid (blank X Y spacing)))
    as [fuel0 Hfuel]; [by rewrite Hcell|].
  exists fuel0. intros fuel Hge. destruct (Hfuel fuel Hge) as [s Hs].
  exists s. rewrite construct_unfold by (try done; fold X Y; nia).
  split; [done|].
  apply initParticles_Ok in Hs as [Hpo _].
  assert (Hshape : grid_shaped (initGrid (blank X Y spacing))).
  { eapply grid_frame_shaped; [done|]. apply blank_shaped; subst X Y; nia. }
  split; [by eapply particles_only_shaped|].
  rewrite Hpo. cbn [h fNumX fNumY set_particles]. rewrite Hcell.
  destruct Hfr as [-> _]. done.
Qed.

(** [new FluidSim(0, 0, 10)] does not fail: it returns a grid of one solid
    cell and no particles. *)
Lemma construct_accepts_zero_dimensions :
  construct (fun _ => 0%Qc) 0 0%Qc 0%Qc (lit 10 1) = Ok (fixture 1 1 (lit 10 1) []).
Proof. decide_by_computation. Qed.


(** ** Reachable states and the wall clamp *)

Lemma clamp_bounds (width height buffer : Qc) p :
  (buffer <= width - buffer)%Qc -> (buffer <= height - buffer)%Qc ->
  let p' := clamp width height buffer p in
  (buffer <= Particle.x p')%Qc /\ (Particle.x p' <= width - buffer)%Qc /\
  (buffer <= Particle.y p')%Qc /\ (Particle.y p' <= height - buffer)%Qc.
Proof.
  intros Hw Hh. unfold clamp.
  repeat (case_decide; cbn [Particle.x Particle.y Particle.u Particle.v] in * );
    split_and!; qc_lra.
Qed.

Lemma density_particles_length s ps : forall g g',
  density_particles s ps g = Ok g' -> length g' = length g.
Proof.
  induction ps as [|p ps IH]; intros g g'; cbn [density_particles].
  - by intros [= <-].
  - intros Hb. apply bind_Ok in Hb as (g1 & H1 & Hb). apply IH in Hb.
    unfold splatToScalarGrid in H1. apply bind_Ok in H1 as (c & _ & H1).
    injection H1 as <-. by rewrite Hb, !length_upd_at.
Qed.

Lemma calculateParticleDensity_length s s' :
  calculateParticleDensity s = Ok s' -> length (pDensity s') = length (pDensity s).
Proof.
  unfold calculateParticleDensity. intros Hb.
  apply bind_Ok in Hb as (g & Hg%density_particles_length & Hb). injection Hb as <-.
  cbn. by rewrite Hg, length_fill.
Qed.

Section Reach.
Variable Math_sin : Qc -> Qc.
Variable Math_sqrt : Qc -> Qc.

(** What a step leaves alone. *)
Lemma integrate_frame dt s s' :
  integrate Math_sin Math_sqrt dt s = Ok s' ->
  fNumX s' = fNumX s /\ fNumY s' = fNumY s /\ h s' = h s /\
  cellType s' = cellType s /\
  length (particles s') = length (particles s).
Proof.
  intros Hint. pose proof (integrate_length _ _ _ _ _ Hint) as Hlen.
  apply integrate_Ok in Hint as (s1 & s2 & s3 & pre & post & H1 & H2 & H3 & H4 & H5 & H6).
  apply advectParticles_Ok in H1 as (Hpo1 & _).
  apply transfer_shape in H2 as (_ & _ & _ & Hs2 & _).
  apply calculateParticleDensity_Ok in H3.
  destruct (apply_paddle_frame Math_sin s3) as [Hpad _].
  apply snapshot_Ok in H4 as (Hpre & _).
  apply solve_kept in H5 as (Hfr & _).
  apply transferGridToParticles_Ok in H6 as [Hpo6 _].
  unfold particles_only in Hpo1.
  destruct Hs2 as (Hx2 & Hy2 & Hh2 & Hc2 & _).
  destruct Hfr as (Hx5 & Hy5 & Hh5 & _ & Hc5 & _).
  set (s4 := apply_paddle Math_sin s3) in *.
  assert (E1 : fNumX s1 = fNumX s /\ fNumY s1 = fNumY s /\ h s1 = h s /\
               cellType s1 = cellType s) by (rewrite Hpo1; done).
  assert (E3 : fNumX s3 = fNumX s2 /\ fNumY s3 = fNumY s2 /\ h s3 = h s2 /\
               cellType s3 = cellType s2) by (rewrite H3; done).
  assert (E4 : fNumX s4 = fNumX s3 /\ fNumY s4 = fNumY s3 /\ h s4 = h s3 /\
               cellType s4 = cellType s3) by (rewrite Hpad; done).
  assert (E5 : fNumX pre = fNumX s4 /\ fNumY pre = fNumY s4 /\ h pre = h s4 /\
               cellType pre = cellType s4) by (rewrite Hpre; done).
  assert (E6 : fNumX s' = fNumX post /\ fNumY s' = fNumY post /\ h s' = h post /\
               cellType s' = cellType post) by (rewrite Hpo6; done).
  destruct E1 as (?&?&?&?), E3 as (?&?&?&?), E4 as (?&?&?&?), E5 as (?&?&?&?),
    E6 as (?&?&?&?).
  split_and!; congruence.
Qed.

Lemma seeded_frame s s' :
  fNumX s' = fNumX s -> fNumY s' = fNumY s -> h s' = h s ->
  length (particles s') = length (particles s) ->
  seeded s -> seeded s'.
Proof.
  intros Hx Hy Hh Hl [Hp|Hd]; [left|right].
  - rewrite Hp in Hl. by apply nil_length_inv.
  - by rewrite Hx, Hy, Hh.
Qed.

Lemma addExternalForce_Ok x0 y0 vx vy r s s' :
  addExternalForce Math_sqrt x0 y0 vx vy r s = Ok s' ->
  particles_only s s' /\ length (particles s') = length (particles s) /\
  Forall2 (fun p p' => Particle.x p' = Particle.x p /\ Particle.y p' = Particle.y p)
    (particles s) (particles s').
Proof.
  unfold addExternalForce. intros Hb.
  apply bind_Ok in Hb as (ps & Hps%eachM_Ok & Hb). injection Hb as <-.
  split; [done|]. cbn [particles set_particles].
  split; [symmetry; by eapply Forall2_length|].
  eapply Forall2_impl; [|exact Hps]. intros p p'. unfold push.
  case_decide; [|by intros [= <-]].
  intros Hq. apply bind_Ok in Hq as (q & _ & Hq). by injection Hq as <-.
Qed.

Lemma reset_Ok rnd fuel s s' :
  reset rnd fuel s = Ok s' ->
  fNumX s' = fNumX s /\ fNumY s' = fNumY s /\ h s' = h s /\
  cellType s' = cellType s /\ seeded s'.
Proof.
  unfold reset. destruct s. cbv beta iota zeta delta [set_u set_v set_uWeight set_vWeight
    set_uNew set_vNew set_du set_dv set_pDensity density gravity overRelaxation fNumX
    fNumY h u v du dv uNew vNew uWeight vWeight pDensity cellType particles totalTime].
  intros [Hpo Hseed]%initParticles_Ok.
  unfold particles_only in Hpo. split_and!; try (rewrite Hpo; reflexivity).
  destruct Hseed as [Hnil|Hd]; [by left|right]. rewrite Hpo. exact Hd.
Qed.

Lemma construct_seeded rnd fuel width height spacing s :
  construct rnd fuel width height spacing = Ok s -> seeded s.
Proof.
  intros (_ & _ & _ & _ & [Hpo Hseed]%initParticles_Ok)%construct_Ok.
  unfold seeded. destruct Hseed as [?|Hd]; [by left|right].
  pose proof (initGrid_frame (blank (Math_floor (width / spacing)%Qc + 1)
                                (Math_floor (height / spacing)%Qc + 1) spacing)) as [Hfr _].
  unfold particles_only in Hpo. rewrite Hpo. cbn. done.
Qed.

Lemma reachable_seeded s : reachable Math_sin Math_sqrt s -> seeded s.
Proof.
  induction 1 as [rnd fuel w hh sp s Hc|g s _ IH|dt s s' _ IH Hint
                 |x0 y0 vx vy r s s' _ IH Hf|rnd fuel s s' _ IH Hr].
  - by eapply construct_seeded.
  - exact IH.
  - apply integrate_frame in Hint as (?&?&?&?&?). by eapply seeded_frame.
  - apply addExternalForce_Ok in Hf as (Hpo & Hl & _).
    unfold particles_only in Hpo.
    eapply seeded_frame; [..|exact IH]; try done; by rewrite Hpo.
  - by apply reset_Ok in Hr as (_&_&_&_&?).
Qed.

Lemma seeded_walls s : seeded s -> particles s = [] \/ walls_apart s.
Proof.
  intros [?|(Hh & HX & HY)]; [by left|right].
  assert (HX' : (Qc_of_Z 3 <= Qc_of_Z (fNumX s))%Qc) by (apply Qc_of_Z_le; lia).
  assert (HY' : (Qc_of_Z 3 <= Qc_of_Z (fNumY s))%Qc) by (apply Qc_of_Z_le; lia).
  clear HX HY. split; qc_lra.
Qed.

(** C6. After every completed [integrate(dt)] every particle lies in
    [[buffer, width - buffer] x [buffer, height - buffer]] with
    [buffer = 1.1 * h], [width = fNumX * h], [height = fNumY * h]; the
    positions are those the wall clamp at the end of [advectParticles]
    left: no later phase moves a particle.  The only condition is that
    the state has no particle or that this box is not empty, which holds
    of every state the constructor or [reset] has seeded ([seeded_walls],
    [reachable_seeded]), whatever the constants [gravity], [density] and
    [overRelaxation] have been set to. *)
Theorem positions_within_walls_after_integrate dt s s' :
  particles s = [] \/ walls_apart s ->
  integrate Math_sin Math_sqrt dt s = Ok s' ->
  Forall (within_walls s) (particles s') /\
  exists s1,
    advectParticles Math_sqrt dt (set_totalTime (totalTime s + dt)%Qc s) = Ok s1 /\
    Forall (within_walls s) (particles s1) /\
    Forall2 (fun p p' => Particle.x p' = Particle.x p /\ Particle.y p' = Particle.y p)
      (particles s1) (particles s').
Proof.
  intros Hbox Hint.
  apply integrate_particles in Hint as (s1 & Hadv & Hsame).
  assert (Hin : Forall (within_walls s) (particles s1)).
  { apply advectParticles_Ok in Hadv as (_ & Hlen & ps & Hlps & ->).
    cbn [fNumX fNumY h particles set_totalTime] in *.
    destruct Hbox as [Hnil|[Hw Hh]].
    - rewrite Hnil in Hlps. apply nil_length_inv in Hlps as ->. constructor.
    - apply Forall_map, Forall_forall. intros p _. by apply clamp_bounds. }
  split; [|by exists s1].
  clear Hadv. induction Hsame as [|p p' l l' [Hx Hy] _ IH]; [constructor|].
  inversion Hin as [|? ? Hp Hl]; subst. constructor; [|by apply IH].
  unfold within_walls in *. by rewrite Hx, Hy.
Qed.

End Reach.


(** ** Concrete runs *)

Lemma solid_cells_spec s i j : (i, j) ∈ solid_cells s <-> cell_solid s i j.
Proof.
  unfold solid_cells, cell_solid. rewrite list_elem_of_filter. cbn [fst snd].
  rewrite list_elem_of_bind. split.
  - intros [Hs (i' & (j' & Hin & Hj)%list_elem_of_bind & Hi)].
    apply list_elem_of_singleton in Hin as [= -> ->].
    apply elem_of_seqZ in Hi, Hj. split_and!; try done; lia.
  - intros (Hi & Hj & Hs). split; [done|]. exists i. split; [|apply elem_of_seqZ; lia].
    apply list_elem_of_bind. exists j. split; [by apply list_elem_of_singleton|].
    apply elem_of_seqZ. lia.
Qed.

Lemma solid_u_faces_spec s k : k ∈ solid_u_faces s <-> u_face_of_solid s k.
Proof.
  unfold solid_u_faces, u_face_of_solid. rewrite list_elem_of_bind. split.
  - intros ([i j] & Hk & Hc%solid_cells_spec). exists i, j. split; [done|].
    cbn [fst snd] in Hk. rewrite !elem_of_cons in Hk.
    destruct Hk as [?|[?|Hk]]; [by left|by right|by apply elem_of_nil in Hk].
  - intros (i & j & Hc & Hk). exists (i, j). split; [|by apply solid_cells_spec].
    cbn [fst snd]. rewrite !elem_of_cons. tauto.
Qed.

Lemma solid_v_faces_spec s k : k ∈ solid_v_faces s <-> v_face_of_solid s k.
Proof.
  unfold solid_v_faces, v_face_of_solid. rewrite list_elem_of_bind. split.
  - intros ([i j] & Hk & Hc%solid_cells_spec). exists i, j. split; [done|].
    cbn [fst snd] in Hk. rewrite !elem_of_cons in Hk.
    destruct Hk as [?|[?|Hk]]; [by left|by right|by apply elem_of_nil in Hk].
  - intros (i & j & Hc & Hk). exists (i, j). split; [|by apply solid_cells_spec].
    cbn [fst snd]. rewrite !elem_of_cons. tauto.
Qed.

Lemma demo_constructed :
  construct demo_random 10 (lit 45 1) (lit 25 1) (lit 10 1) = Ok demo.
Proof. decide_by_computation. Qed.

Lemma demo_step_run : integrate demo_sin Qc_sqrt (lit 1 100) demo = Ok demo_step.
Proof. decide_by_computation. Qed.

Lemma demo_fall_run : integrate demo_sin Qc_sqrt (lit 1 10) demo_heavy = Ok demo_fall.
Proof. decide_by_computation. Qed.

Lemma demo_transfer_run : transferParticlesToGrid demo = Ok demo_transfer.
Proof. decide_by_computation. Qed.

Lemma demo_solved_run : solveIncompressibility demo_transfer = Ok demo_solved.
Proof. decide_by_computation. Qed.

Lemma middle_transfer_run : transferParticlesToGrid middle = Ok middle_transfer.
Proof. decide_by_computation. Qed.

Lemma demo_shaped : grid_shaped demo.
Proof. by vm_compute. Qed.

Lemma solid_faces_zero_after_transfer_witness : faces_zero demo_transfer 0 0.
Proof.
  apply (solid_faces_zero_after_transfer demo demo_transfer 0 0).
  - exact demo_shaped.
  - exact demo_transfer_run.
  - by vm_compute.
Defined.

Lemma integrate_preserves_particle_count_witness :
  length (particles demo_step) = length (particles demo).
Proof.
  apply (integrate_preserves_particle_count demo_sin Qc_sqrt (lit 1 100) demo demo_step).
  exact demo_step_run.
Defined.

Lemma positions_within_walls_after_integrate_witness :
  Forall (within_walls demo_heavy) (particles demo_fall).
Proof.
  apply (positions_within_walls_after_integrate demo_sin Qc_sqrt (lit 1 10)
           demo_heavy demo_fall).
  - right. split; by vm_compute.
  - exact demo_fall_run.
Defined.

Lemma solve_preserves_solid_faces_witness :
  at_ (u demo_solved) (1 + 1 * (fNumX demo_transfer + 1)) =
  at_ (u demo_transfer) (1 + 1 * (fNumX demo_transfer + 1)).
Proof.
  apply (solve_preserves_solid_faces demo_transfer demo_solved).
  - exact demo_solved_run.
  - by vm_compute.
Defined.

Lemma construct_succeeds_on_positive_dimensions_witness :
  exists fuel0, forall fuel, (fuel0 <= fuel)%nat ->
    exists s, construct demo_random fuel (lit 45 1) (lit 25 1) (lit 10 1) = Ok s /\
      grid_shaped s /\ h s = lit 10 1 /\
      fNumX s = Math_floor (lit 45 1 / lit 10 1)%Qc + 1 /\
      fNumY s = Math_floor (lit 25 1 / lit 10 1)%Qc + 1.
Proof.
  apply (construct_succeeds_on_positive_dimensions demo_random
           (lit 45 1) (lit 25 1) (lit 10 1)); reflexivity.
Defined.

Lemma splat_then_sample_witness :
  sampleGrid middle_transfer (lit 65 2) (lit 65 2) (u middle_transfer) 0%Qc (lit 1 2)
    (fNumX middle_transfer + 1) (fNumY middle_transfer) = Ok (Qc_of_Z 3).
Proof.
  apply (splat_then_sample_is_identity_on_uniform_fields middle middle_transfer
           (Qc_of_Z 3) (lit 65 2) (lit 65 2) middle_transfer_run)
    with (st := mkStencil 17 (lit 1 4) (lit 3 4)).
  - reflexivity.
  - by repeat constructor.
  - decide_by_computation.
  - intros k Hk. rewrite <-solid_u_faces_spec.
    unfold stencil_nodes in Hk. cbn [st_idx] in Hk. rewrite !elem_of_cons in Hk.
    destruct Hk as [->|[->|[->|[->|Hk]]]]; [..|by apply elem_of_nil in Hk];
      (split; [eexists; split; [by vm_compute|by vm_compute]|decide_by_computation]).
Defined.


(** ** The spatial hash *)

Section Hash.
Variable Math_sqrt : Qc -> Qc.
Hypothesis sqrt_nonzero : forall a : Qc, (0 < a)%Qc -> Math_sqrt a <> 0%Qc.







End Hash.


(** ** A step always completes *)

Lemma floor_clamped (g : Qc) (n : Z) :
  0 <= n -> 0 <= Math_floor (Math_max 0%Qc (Math_min g (Qc_of_Z n))) <= n.
Proof.
  intros Hn. unfold Math_floor.
  assert (H0 : (0 <= Math_max 0%Qc (Math_min g (Qc_of_Z n)))%Qc).
  { unfold Math_max. case_decide; [by apply Qclt_le_weak|apply Qcle_refl]. }
  assert (H1 : (Math_max 0%Qc (Math_min g (Qc_of_Z n)) <= Qc_of_Z n)%Qc).
  { pose proof (proj2 (Qc_of_Z_le 0 n) Hn) as Hq.
    unfold Math_max, Math_min. repeat case_decide; qc_lra. }
  split.
  - change 0 with (Qfloor 0). by apply Qfloor_resp_le.
  - pose proof (Qfloor_resp_le _ _ H1) as H2.
    unfold Qc_of_Z in H2 at 2. cbn [this] in H2. by rewrite Qfloor_Z in H2.
Qed.

(** The stencil of a clamped position stays inside a grid of at least two
    columns and two rows. *)
Lemma locate_range s x0 y0 ox oy cols rows c :
  2 <= cols -> 2 <= rows ->
  locate s x0 y0 ox oy cols rows = Ok c ->
  0 <= st_idx c /\ st_idx c + cols + 1 < cols * rows.
Proof.
  intros Hc Hr. unfold locate. intros Hb.
  apply bind_Ok in Hb as (qx & _ & Hb).
  apply bind_Ok in Hb as (qy & _ & Hb).
  injection Hb as <-. cbn [st_idx].
  pose proof (floor_clamped (qx - ox)%Qc (cols - 2) ltac:(lia)).
  pose proof (floor_clamped (qy - oy)%Qc (rows - 2) ltac:(lia)).
  nia.
Qed.

Lemma rd_in_range (a : list Qc) i :
  0 <= i < Z.of_nat (length a) -> exists x, rd a i = Ok x.
Proof. intros Hi. unfold rd. destruct (at_is_Some a i Hi) as [x ->]. eauto. Qed.






Lemma solve_cell_total j i s :
  Z.of_nat (length (u s)) = (fNumX s + 1) * fNumY s ->
  Z.of_nat (length (v s)) = fNumX s * (fNumY s + 1) ->
  1 <= i < fNumX s - 1 -> 1 <= j < fNumY s - 1 ->
  exists s', solve_cell j i s = Ok s'.
Proof.
  intros Hu Hv Hi Hj. unfold solve_cell.
  destruct (is_solid s (i + j * fNumX s)); [eauto|].
  destruct (rd_in_range (u s) (i + j * (fNumX s + 1))) as [uLeft ->]; [nia|].
  destruct (rd_in_range (u s) (i + j * (fNumX s + 1) + 1)) as [uRight ->]; [nia|].
  destruct (rd_in_range (v s) (i + j * fNumX s)) as [vBot ->]; [nia|].
  destruct (rd_in_range (v s) (i + j * fNumX s + fNumX s)) as [vTop ->]; [nia|].
  cbn [mbind outcome_bind].
  case_decide; [eauto|]. case_decide as Hs; [eauto|].
  rewrite js_div_nonzero by by apply Qc_of_Z_nonzero.
  cbn [mbind outcome_bind]. eauto.
Qed.

Lemma solver_frame_shape s s' :
  solver_frame s s' ->
  Z.of_nat (length (u s)) = (fNumX s + 1) * fNumY s ->
  Z.of_nat (length (v s)) = fNumX s * (fNumY s + 1) ->
  Z.of_nat (length (u s')) = (fNumX s' + 1) * fNumY s' /\
  Z.of_nat (length (v s')) = fNumX s' * (fNumY s' + 1).
Proof.
  intros (HX & HY & _ & _ & _ & _ & _ & _ & _ & Hu & Hv) H1 H2.
  rewrite HX, HY, Hu, Hv. done.
Qed.

Lemma sweep_total s :
  Z.of_nat (length (u s)) = (fNumX s + 1) * fNumY s ->
  Z.of_nat (length (v s)) = fNumX s * (fNumY s + 1) ->
  exists s', sweep s = Ok s' /\ solver_frame s s'.
Proof.
  intros Hu Hv. unfold sweep.
  apply (forZM_tot (solver_frame s)); [apply solver_frame_refl|].
  intros j t0 Hj Ht0.
  apply (forZM_tot (solver_frame s)); [done|].
  intros i t1 Hi Ht1.
  destruct (solver_frame_shape _ _ Ht1 Hu Hv) as [Hu1 Hv1].
  pose proof Ht1 as (HX & HY & _).
  destruct (solve_cell_total j i t1) as [t2 Ht2]; [done|done|lia|lia|].
  exists t2. split; [done|].
  eapply solver_frame_trans; [exact Ht1|]. by apply solve_cell_Ok in Ht2 as [? _].
Qed.

Lemma solveIncompressibility_total s :
  Z.of_nat (length (u s)) = (fNumX s + 1) * fNumY s ->
  Z.of_nat (length (v s)) = fNumX s * (fNumY s + 1) ->
  exists s', solveIncompressibility s = Ok s' /\ solver_frame s s'.
Proof.
  intros Hu Hv. unfold solveIncompressibility.
  apply (forZM_tot (solver_frame s)); [apply solver_frame_refl|].
  intros _ t0 _ Ht0.
  destruct (solver_frame_shape _ _ Ht0 Hu Hv) as [Hu0 Hv0].
  destruct (sweep_total t0 Hu0 Hv0) as (t1 & Ht1 & Hf).
  exists t1. split; [done|]. by eapply solver_frame_trans.
Qed.


Lemma well_formed_same s s' : same_grid s s' -> well_formed s -> well_formed s'.
Proof.
  intros Hs (Hg & Hh & HX & HY). pose proof Hs as (EX & EY & Eh & _).
  split; [by eapply grid_shaped_same|]. rewrite EX, EY, Eh. done.
Qed.


Lemma density_particles_total s ps : forall g,
  h s <> 0%Qc -> exists g', density_particles s ps g = Ok g'.
Proof.
  induction ps as [|p ps IH]; intros g Hh; cbn [density_particles]; [eauto|].
  unfold splatToScalarGrid.
  destruct (locate_total s (Particle.x p) (Particle.y p) (lit 1 2) (lit 1 2)
              (fNumX s) (fNumY s) Hh) as [c ->].
  cbn [mbind outcome_bind]. by apply IH.
Qed.

Lemma calculateParticleDensity_total s :
  well_formed s -> exists s', calculateParticleDensity s = Ok s' /\ well_formed s'.
Proof.
  intros Hwf. pose proof Hwf as (Hg & Hh & HX & HY).
  destruct (density_particles_total s (particles s) (fill (pDensity s) 0%Qc) Hh) as [g Hg'].
  assert (Hc : calculateParticleDensity s = Ok (set_pDensity g s)).
  { unfold calculateParticleDensity. by rewrite Hg'. }
  exists (set_pDensity g s). split; [done|].
  apply calculateParticleDensity_length in Hc. cbn [pDensity set_pDensity] in Hc.
  split; [|done]. destruct Hg as (?&?&?&?&?&?&?&?).
  repeat split; try done. cbn [pDensity set_pDensity]. by rewrite Hc.
Qed.

Section Total.
Variable Math_sin : Qc -> Qc.
Variable Math_sqrt : Qc -> Qc.
Hypothesis sqrt_nonzero : forall a : Qc, (0 < a)%Qc -> Math_sqrt a <> 0%Qc.




(** The relaxation writes nothing but the two face arrays. *)
Lemma solve_cell_faces_only j i s s' :
  solve_cell j i s = Ok s' -> faces_only s s'.
Proof.
  unfold solve_cell, faces_only. destruct s; cbn [fNumX overRelaxation u v pDensity].
  destruct (is_solid _ _); [by intros [= <-]|]. intros Hb.
  apply bind_Ok in Hb as (uLeft & _ & Hb).
  apply bind_Ok in Hb as (uRight & _ & Hb).
  apply bind_Ok in Hb as (vBot & _ & Hb).
  apply bind_Ok in Hb as (vTop & _ & Hb).
  case_decide; [by injection Hb as <-|]. case_decide; [by injection Hb as <-|].
  apply bind_Ok in Hb as (flux & _ & Hb). injection Hb as <-.
  repeat case_decide; reflexivity.
Qed.

Lemma faces_only_refl s : faces_only s s.
Proof. by destruct s. Qed.

Lemma faces_only_trans s1 s2 s3 : faces_only s1 s2 -> faces_only s2 s3 -> faces_only s1 s3.
Proof. unfold faces_only. intros H1 H2. rewrite H2, H1. reflexivity. Qed.

Lemma solveIncompressibility_faces_only s s' :
  solveIncompressibility s = Ok s' -> faces_only s s'.
Proof.
  unfold solveIncompressibility.
  apply (forZM_inv (faces_only s)); [apply faces_only_refl|].
  intros _ t0 t1 _ Ht0. unfold sweep.
  apply (forZM_inv (faces_only s)); [done|].
  intros j t2 t3 _ Ht2.
  apply (forZM_inv (faces_only s)); [done|].
  intros i t4 t5 _ Ht4 Hc%solve_cell_faces_only. by eapply faces_only_trans.
Qed.



End Total.


(** ** What a step leaves alone *)

Lemma step_frame_refl s : step_frame s s.
Proof. by repeat split. Qed.

Lemma step_frame_trans s1 s2 s3 : step_frame s1 s2 -> step_frame s2 s3 -> step_frame s1 s3.
Proof.
  unfold step_frame.
  intros (?&?&?&?&?&?&?&?&?&?&?&?&?&?&?&?&?) (?&?&?&?&?&?&?&?&?&?&?&?&?&?&?&?&?).
  repeat split; congruence.
Qed.

Lemma velocity_only_refl s : velocity_only s s.
Proof. by destruct s. Qed.

Lemma velocity_only_trans s1 s2 s3 :
  velocity_only s1 s2 -> velocity_only s2 s3 -> velocity_only s1 s3.
Proof. unfold velocity_only. intros H1 H2. rewrite H2, H1. reflexivity. Qed.

Lemma splat_particle_velocity_only p s s' :
  splat_particle p s = Ok s' -> velocity_only s s'.
Proof.
  unfold splat_particle. intros Hb.
  apply bind_Ok in Hb as ([g1 w1] & _ & Hb).
  apply bind_Ok in Hb as ([g2 w2] & _ & Hb).
  injection Hb as <-. by destruct s.
Qed.

Lemma splat_particles_velocity_only ps : forall s s',
  splat_particles ps s = Ok s' -> velocity_only s s'.
Proof.
  induction ps as [|p ps IH]; intros s s'; cbn [splat_particles].
  - intros [= <-]. apply velocity_only_refl.
  - intros Hb. apply bind_Ok in Hb as (s1 & H1%splat_particle_velocity_only & Hb%IH).
    by eapply velocity_only_trans.
Qed.

Lemma enforce_cell_velocity_only i j s : velocity_only s (enforce_cell i j s).
Proof.
  unfold enforce_cell. destruct (is_solid s _); [|apply velocity_only_refl].
  by destruct s.
Qed.

Lemma enforceBoundaries_velocity_only s : velocity_only s (enforceBoundaries s).
Proof.
  unfold enforceBoundaries.
  apply (forZ_inv (velocity_only s)); [apply velocity_only_refl|].
  intros j t0 _ H0. apply (forZ_inv (velocity_only s)); [done|].
  intros i t1 _ H1. eapply velocity_only_trans; [done|]. apply enforce_cell_velocity_only.
Qed.

Lemma transferParticlesToGrid_velocity_only s s' :
  transferParticlesToGrid s = Ok s' -> velocity_only s s'.
Proof.
  intros (s1 & gu & gv & H1 & _ & _ & ->)%transfer_Ok.
  apply splat_particles_velocity_only in H1.
  eapply velocity_only_trans; [|apply enforceBoundaries_velocity_only].
  eapply velocity_only_trans; [|eapply velocity_only_trans; [exact H1|]].
  - by destruct s.
  - by destruct s1.
Qed.

Section Frame.
Variable Math_sin : Qc -> Qc.
Variable Math_sqrt : Qc -> Qc.

Lemma integrate_step_frame dt s s' :
  integrate Math_sin Math_sqrt dt s = Ok s' ->
  step_frame s s' /\ totalTime s' = (totalTime s + dt)%Qc.
Proof.
  intros Hint.
  apply integrate_Ok in Hint as (s1 & s2 & s3 & pre & post & H1 & H2 & H3 & H4 & H5 & H6).
  apply advectParticles_Ok in H1 as (Hpo1 & Hl1 & _). unfold particles_only in Hpo1.
  pose proof (transfer_shape _ _ H2) as (_ & _ & _ & Hs2 & _).
  apply transferParticlesToGrid_velocity_only in H2. unfold velocity_only in H2.
  pose proof (calculateParticleDensity_length _ _ H3) as Hl3.
  apply calculateParticleDensity_Ok in H3.
  destruct (apply_paddle_frame Math_sin s3) as [Hpad Hlpad].
  apply snapshot_Ok in H4 as (Hpre & _ & _ & Hldu & Hldv).
  pose proof (solve_kept _ _ H5) as (Hfr & _).
  apply solveIncompressibility_faces_only in H5. unfold faces_only in H5.
  apply transferGridToParticles_Ok in H6 as [Hpo6 Hl6%Forall2_length].
  set (s4 := apply_paddle Math_sin s3) in *.
  assert (F1 : step_frame s s1 /\ totalTime s1 = (totalTime s + dt)%Qc).
  { rewrite Hpo1. split; [|reflexivity]. repeat split. by rewrite <- Hpo1. }
  assert (F2 : step_frame s1 s2 /\ totalTime s2 = totalTime s1).
  { destruct Hs2 as (_&_&_&_&Hp&Hu&Hv&Huw&Hvw&Hdu&Hdv&Hpd).
    split; [|rewrite H2; reflexivity].
    repeat split; try (rewrite H2; reflexivity); congruence. }
  assert (F3 : step_frame s2 s3 /\ totalTime s3 = totalTime s2).
  { split; [|rewrite H3; reflexivity].
    repeat split; try (rewrite H3; reflexivity); done. }
  assert (F4 : step_frame s3 s4 /\ totalTime s4 = totalTime s3).
  { split; [|rewrite Hpad; reflexivity].
    repeat split; try (rewrite Hpad; reflexivity); done. }
  assert (F5 : step_frame s4 pre /\ totalTime pre = totalTime s4).
  { split; [|rewrite Hpre; reflexivity].
    repeat split; try (rewrite Hpre; reflexivity); done. }
  assert (F6 : step_frame pre post /\ totalTime post = totalTime pre).
  { destruct Hfr as (_&_&_&_&_&_&_&_&_&Hu&Hv).
    split; [|rewrite H5; reflexivity].
    repeat split; try (rewrite H5; reflexivity); done. }
  assert (F7 : step_frame post s' /\ totalTime s' = totalTime post).
  { split; [|rewrite Hpo6; reflexivity].
    repeat split; try (rewrite Hpo6; reflexivity). by symmetry. }
  destruct F1 as [F1 T1], F2 as [F2 T2], F3 as [F3 T3], F4 as [F4 T4],
    F5 as [F5 T5], F6 as [F6 T6], F7 as [F7 T7].
  split; [|congruence].
  repeat (eapply step_frame_trans; [eassumption|]). apply step_frame_refl.
Qed.
End Frame.


(** ** Runs of the public operations *)

Lemma same_setup_refl s : same_setup s s.
Proof. by repeat split. Qed.

Lemma same_setup_trans s1 s2 s3 : same_setup s1 s2 -> same_setup s2 s3 -> same_setup s1 s3.
Proof.
  unfold same_setup.
  intros (?&?&?&?&?&?&?&?&?&?&?&?&?&?&?) (?&?&?&?&?&?&?&?&?&?&?&?&?&?&?).
  repeat split; congruence.
Qed.

Lemma step_frame_setup s s' : step_frame s s' -> same_setup s s'.
Proof.
  intros (?&?&?&?&?&?&?&?&?&?&?&?&?&?&?&?&?). repeat split; congruence.
Qed.

Lemma same_setup_particles ps s : same_setup s (set_particles ps s).
Proof. by repeat split. Qed.

Lemma same_setup_gravity g s : same_setup s (set_gravity g s).
Proof. by repeat split. Qed.

Lemma reset_zeroed rnd fuel s : reset rnd fuel s = initParticles rnd fuel (zeroed s).
Proof. by destruct s. Qed.

Lemma zeroed_setup s : same_setup s (zeroed s).
Proof. repeat split; cbn; by rewrite ?length_fill. Qed.

(** The seeding reads the cell size and the dimensions only. *)
Lemma initParticles_depends rnd fuel s s' t0 :
  initParticles rnd fuel s = Ok s' ->
  h t0 = h s -> fNumX t0 = fNumX s -> fNumY t0 = fNumY s ->
  initParticles rnd fuel t0 = Ok (set_particles (particles s') t0).
Proof.
  unfold initParticles. intros Hb Eh EX EY. rewrite Eh, EX, EY.
  apply bind_Ok in Hb as (ps & -> & Hb). injection Hb as <-. reflexivity.
Qed.

Lemma reset_setup rnd fuel s s' : reset rnd fuel s = Ok s' -> same_setup s s'.
Proof.
  rewrite reset_zeroed. intros [Hpo _]%initParticles_Ok. unfold particles_only in Hpo.
  eapply same_setup_trans; [apply zeroed_setup|]. rewrite Hpo. apply same_setup_particles.
Qed.

Section Runs.
Variable Math_sin : Qc -> Qc.
Variable Math_sqrt : Qc -> Qc.

Lemma evolves_setup s0 s : evolves Math_sin Math_sqrt s0 s -> same_setup s0 s.
Proof.
  induction 1 as [|g s _ IH|dt s s' _ IH Hint|x0 y0 vx vy r s s' _ IH Hf
                 |rnd fuel s s' _ IH Hr].
  - apply same_setup_refl.
  - eapply same_setup_trans; [exact IH|]. apply same_setup_gravity.
  - eapply same_setup_trans; [exact IH|].
    apply step_frame_setup. by apply integrate_step_frame in Hint as [? _].
  - eapply same_setup_trans; [exact IH|].
    apply addExternalForce_Ok in Hf as (Hpo & _). unfold particles_only in Hpo.
    rewrite Hpo. apply same_setup_particles.
  - eapply same_setup_trans; [exact IH|]. by eapply reset_setup.
Qed.

Lemma replicate_length_eq {A} (l : list A) n x :
  l = replicate n x -> fill l x = l.
Proof. intros ->. unfold fill. by rewrite length_replicate. Qed.

Lemma fill_length_eq {A} (l l' : list A) x :
  length l' = length l -> fill l x = l -> fill l' x = l.
Proof. unfold fill. by intros ->. Qed.

(** What the constructor returns. *)
Lemma construct_fresh rnd fuel width height spacing s0 :
  construct rnd fuel width height spacing = Ok s0 ->
  zeroed s0 = s0 /\ totalTime s0 = 0%Qc /\
  initParticles rnd fuel s0 = Ok s0.
Proof.
  intros (Hsp & Hu & Hv & Hc & Hinit)%construct_Ok.
  set (X := Math_floor (width / spacing)%Qc + 1) in *.
  set (Y := Math_floor (height / spacing)%Qc + 1) in *.
  destruct (initGrid_frame (blank X Y spacing)) as [Hfr _].
  pose proof Hinit as [Hpo _]%initParticles_Ok. unfold particles_only in Hpo.
  set (g := initGrid (blank X Y spacing)) in *.
  assert (Hz : zeroed s0 = s0).
  { rewrite Hpo, Hfr. unfold zeroed, blank, fill. cbn. by rewrite !length_replicate. }
  split; [done|]. split; [by rewrite Hpo, Hfr|].
  rewrite (initParticles_depends rnd fuel g s0 s0 Hinit); by rewrite Hpo.
Qed.

Lemma reset_restores_state rnd fuel width height spacing s0 s :
  construct rnd fuel width height spacing = Ok s0 ->
  evolves Math_sin Math_sqrt s0 s ->
  reset rnd fuel s = Ok (set_gravity (gravity s) (set_totalTime (totalTime s) s0)).
Proof.
  intros (Hz & _ & Hinit)%construct_fresh Hev%evolves_setup.
  rewrite reset_zeroed.
  destruct Hev as (?&?&?&?&?&?&?&?&?&?&?&?&?&?&?).
  rewrite (initParticles_depends rnd fuel s0 s0 (zeroed s) Hinit) by done.
  f_equal. rewrite <- Hz at 2.
  unfold zeroed, set_particles, set_totalTime, set_gravity, fill. cbn.
  f_equal; congruence.
Qed.
End Runs.


(** ** Conserved sums *)

Lemma total_cons x a : total (x :: a) = (x + total a)%Qc.
Proof. reflexivity. Qed.

Lemma total_insert (a : list Qc) : forall (n : nat) x y,
  a !! n = Some x -> total (<[n := y]> a) = (total a - x + y)%Qc.
Proof.
  induction a as [|a0 a IH]; intros [|n] x y Hx; try done.
  - injection Hx as ->. change (total (y :: a) = (total (x :: a) - x + y)%Qc).
    rewrite !total_cons. ring.
  - change (total (a0 :: <[n := y]> a) = (total (a0 :: a) - x + y)%Qc).
    rewrite !total_cons, (IH n x y Hx). ring.
Qed.

Lemma total_wr (a : list Qc) i x y :
  at_ a i = Some x -> total (wr a i y) = (total a - x + y)%Qc.
Proof.
  unfold at_, wr. case_decide; [|done]. apply total_insert.
Qed.

Lemma total_upd_add (a : list Qc) i c :
  0 <= i < Z.of_nat (length a) ->
  total (upd_at a i (fun g => g + c)%Qc) = (total a + c)%Qc.
Proof.
  intros Hi. unfold upd_at. destruct (at_is_Some a i Hi) as [x Hx]. rewrite Hx.
  rewrite (total_wr a i x _ Hx). ring.
Qed.

Lemma total_fill (a : list Qc) : total (fill a 0%Qc) = 0%Qc.
Proof.
  unfold fill. induction (length a) as [|n IH]; [done|].
  change (total (0%Qc :: replicate n 0%Qc) = 0%Qc). rewrite total_cons, IH. ring.
Qed.

Lemma splatToScalarGrid_total_sum s x0 y0 val g ox oy cols rows g' :
  2 <= cols -> 2 <= rows -> Z.of_nat (length g) = cols * rows ->
  splatToScalarGrid s x0 y0 val g ox oy cols rows = Ok g' ->
  length g' = length g /\ total g' = (total g + val)%Qc.
Proof.
  intros Hc Hr Hl. unfold splatToScalarGrid. intros Hb.
  apply bind_Ok in Hb as (c & Hloc & Hb). injection Hb as <-.
  apply (locate_range _ _ _ _ _ _ _ _ Hc Hr) in Hloc as [H0 H1].
  split; [by rewrite !length_upd_at|].
  rewrite !total_upd_add; rewrite ?length_upd_at; try lia. ring.
Qed.

Lemma splatToGrid_total_sum s x0 y0 val g w ox oy cols rows g' w' :
  2 <= cols -> 2 <= rows ->
  Z.of_nat (length g) = cols * rows -> Z.of_nat (length w) = cols * rows ->
  splatToGrid s x0 y0 val g w ox oy cols rows = Ok (g', w') ->
  total g' = (total g + val)%Qc /\ total w' = (total w + 1)%Qc.
Proof.
  intros Hc Hr Hlg Hlw. unfold splatToGrid. intros Hb.
  apply bind_Ok in Hb as (c & Hloc & Hb). injection Hb as <- <-.
  apply (locate_range _ _ _ _ _ _ _ _ Hc Hr) in Hloc as [H0 H1].
  split; rewrite !total_upd_add; rewrite ?length_upd_at; try lia; ring.
Qed.

Lemma Qc_of_nat_succ n : Qc_of_nat (S n) = (Qc_of_nat n + 1)%Qc.
Proof. apply Qc_of_nat_S. Qed.

Lemma density_particles_sum s ps : forall g g',
  2 <= fNumX s -> 2 <= fNumY s -> Z.of_nat (length g) = fNumX s * fNumY s ->
  density_particles s ps g = Ok g' ->
  total g' = (total g + Qc_of_nat (length ps))%Qc.
Proof.
  induction ps as [|p ps IH]; intros g g' HX HY Hl; cbn [density_particles length].
  - intros [= <-]. change (Qc_of_nat 0) with (Qc_of_Z 0). qc_lra.
  - intros Hb. apply bind_Ok in Hb as (g1 & H1 & Hb).
    apply splatToScalarGrid_total_sum in H1 as [Hl1 Hs1]; try done.
    apply IH in Hb; try done; [|by rewrite Hl1].
    rewrite Hb, Hs1, Qc_of_nat_succ. ring.
Qed.

Lemma splat_particle_weight p s s' :
  well_formed s -> splat_particle p s = Ok s' ->
  total (uWeight s') = (total (uWeight s) + 1)%Qc /\
  total (vWeight s') = (total (vWeight s) + 1)%Qc.
Proof.
  intros ((Hu & Hv & Huw & Hvw & _) & _ & HX & HY). unfold splat_particle. intros Hb.
  apply bind_Ok in Hb as ([g1 w1] & H1 & Hb).
  apply bind_Ok in Hb as ([g2 w2] & H2 & Hb).
  injection Hb as <-. cbn in *.
  apply splatToGrid_total_sum in H1 as [_ H1]; [|lia..].
  apply splatToGrid_total_sum in H2 as [_ H2]; [|lia..].
  done.
Qed.

Lemma splat_particles_weight ps : forall s s',
  well_formed s -> splat_particles ps s = Ok s' ->
  total (uWeight s') = (total (uWeight s) + Qc_of_nat (length ps))%Qc /\
  total (vWeight s') = (total (vWeight s) + Qc_of_nat (length ps))%Qc.
Proof.
  induction ps as [|p ps IH]; intros s s' Hwf; cbn [splat_particles length].
  - intros [= <-]. change (Qc_of_nat 0) with (Qc_of_Z 0). split; qc_lra.
  - intros Hb. apply bind_Ok in Hb as (s1 & H1 & Hb).
    pose proof (splat_particle_weight _ _ _ Hwf H1) as [Hu1 Hv1].
    apply splat_particle_Ok in H1 as (_ & Hs1 & _).
    apply IH in Hb as [Hu2 Hv2]; [|by eapply well_formed_same].
    rewrite Hu2, Hv2, Hu1, Hv1, Qc_of_nat_succ. split; ring.
Qed.

Lemma transfer_weights_sum s s' :
  well_formed s -> transferParticlesToGrid s = Ok s' ->
  total (uWeight s') = Qc_of_nat (length (particles s)) /\
  total (vWeight s') = Qc_of_nat (length (particles s)).
Proof.
  intros Hwf (s1 & gu & gv & H1 & _ & _ & ->)%transfer_Ok.
  destruct (enforceBoundaries_spec (set_v gv (set_u gu s1))) as (_ & -> & -> & _).
  cbn [uWeight vWeight set_u set_v].
  apply splat_particles_weight in H1 as [-> ->].
  - cbn. rewrite !total_fill. split; ring.
  - eapply well_formed_same; [apply cleared_same|done].
Qed.

(** *** The separation pass *)

Lemma map_wr {A B} (f : A -> B) (a : list A) i x :
  map f (wr a i x) = wr (map f a) i (f x).
Proof. unfold wr. case_decide; [|done]. apply list_fmap_insert. Qed.

Lemma at_map {A B} (f : A -> B) (a : list A) i :
  at_ (map f a) i = f <$> at_ a i.
Proof. unfold at_. case_decide; [|done]. apply list_lookup_fmap. Qed.

Section Centroid.
Variable Math_sqrt : Qc -> Qc.

Lemma push_apart_sums r rs i nb ps ps' :
  push_apart Math_sqrt r rs i nb ps = Ok ps' ->
  sum_x ps' = sum_x ps /\ sum_y ps' = sum_y ps /\ velocities ps' = velocities ps.
Proof.
  unfold push_apart. case_decide as Hne; [by intros [= <-]|].
  destruct (at_ ps i) as [p|] eqn:Hp; [|done].
  destruct (at_ ps nb) as [pn|] eqn:Hpn; [|done].
  case_decide; [|by intros [= <-]].
  intros Hb. apply bind_Ok in Hb as (qx & _ & Hb).
  apply bind_Ok in Hb as (qy & _ & Hb). injection Hb as <-.
  pose proof (at_lt _ _ _ Hp) as Hi. pose proof (at_lt _ _ _ Hpn) as Hn.
  unfold sum_x, sum_y, velocities. rewrite !map_wr.
  cbn [Particle.x Particle.y Particle.u Particle.v].
  split_and!.
  - rewrite (total_wr _ nb (Particle.x pn)).
    + rewrite (total_wr _ i (Particle.x p)); [ring|]. by rewrite at_map, Hp.
    + rewrite at_wr_ne by done. by rewrite at_map, Hpn.
  - rewrite (total_wr _ nb (Particle.y pn)).
    + rewrite (total_wr _ i (Particle.y p)); [ring|]. by rewrite at_map, Hp.
    + rewrite at_wr_ne by done. by rewrite at_map, Hpn.
  - unfold wr. rewrite !decide_True by lia.
    rewrite (list_insert_id _ (Z.to_nat i)).
    + apply list_insert_id. unfold at_ in Hpn. rewrite decide_True in Hpn by lia.
      by rewrite list_lookup_fmap, Hpn.
    + unfold at_ in Hp. rewrite decide_True in Hp by lia.
      by rewrite list_lookup_fmap, Hp.
Qed.

Lemma balanced_refl ps : balanced ps ps.
Proof. done. Qed.

Lemma balanced_trans a b c : balanced a b -> balanced b c -> balanced a c.
Proof. unfold balanced. intros (?&?&?) (?&?&?). split_and!; congruence. Qed.

Lemma walk_balanced fuel nextP r rs i : forall nb ps ps',
  walk Math_sqrt fuel nextP r rs i nb ps = Ok ps' -> balanced ps ps'.
Proof.
  induction fuel as [|fuel IH]; intros nb ps ps'; cbn [walk].
  - case_decide; [by intros [= <-]|done].
  - case_decide; [by intros [= <-]|]. intros Hb.
    apply bind_Ok in Hb as (ps1 & H1%push_apart_sums & Hb).
    destruct (at_ nextP nb); [|done]. apply IH in Hb. by eapply balanced_trans.
Qed.

Lemma separateParticles_balanced s s' :
  separateParticles Math_sqrt s = Ok s' -> balanced (particles s) (particles s').
Proof.
  unfold separateParticles. intros Hb.
  apply bind_Ok in Hb as (invH & _ & Hb).
  apply bind_Ok in Hb as (fh & _ & Hb).
  apply bind_Ok in Hb as (np & _ & Hb).
  apply bind_Ok in Hb as ([fh' np'] & _ & Hb).
  apply bind_Ok in Hb as (ps & Hps & Hb). injection Hb as <-.
  cbn [particles set_particles].
  revert Hps. apply (forZM_inv (balanced (particles s))); [done|].
  intros _ l l' _ Hl.
  apply (forZM_inv (balanced (particles s))); [done|].
  intros i l1 l2 _ Hl1. unfold separate_particle. destruct (at_ l1 i); [|done].
  apply (forZM_inv (balanced (particles s))); [done|].
  intros nx l3 l4 _ Hl3.
  apply (forZM_inv (balanced (particles s))); [done|].
  intros ny l5 l6 _ Hl5. unfold visit_cell. case_decide; [by intros [= <-]|].
  destruct (at_ fh' _); [|done]. intros Hw%walk_balanced. by eapply balanced_trans.
Qed.
End Centroid.


(** ** Bounds of interpolated values *)

Lemma Qc_nonneg_mult (a b : Qc) : (0 <= a)%Qc -> (0 <= b)%Qc -> (0 <= a * b)%Qc.
Proof.
  intros Ha Hb. replace 0%Qc with (0 * b)%Qc by ring. by apply Qcmult_le_compat_r.
Qed.

Lemma bilinear_between (lo hi g00 g10 g01 g11 fx fy r : Qc) :
  (0 <= fx)%Qc -> (fx < 1)%Qc -> (0 <= fy)%Qc -> (fy < 1)%Qc ->
  (lo <= g00)%Qc /\ (g00 <= hi)%Qc -> (lo <= g10)%Qc /\ (g10 <= hi)%Qc ->
  (lo <= g01)%Qc /\ (g01 <= hi)%Qc -> (lo <= g11)%Qc /\ (g11 <= hi)%Qc ->
  r = (g00 * (1 - fx) * (1 - fy) + g10 * fx * (1 - fy) +
       g01 * (1 - fx) * fy + g11 * fx * fy)%Qc ->
  (lo <= r)%Qc /\ (r <= hi)%Qc.
Proof.
  intros Hx0 Hx1 Hy0 Hy1 [L00 U00] [L10 U10] [L01 U01] [L11 U11] Hr.
  assert (W00 : (0 <= (1 - fx) * (1 - fy))%Qc) by (apply Qc_nonneg_mult; qc_lra).
  assert (W10 : (0 <= fx * (1 - fy))%Qc) by (apply Qc_nonneg_mult; qc_lra).
  assert (W01 : (0 <= (1 - fx) * fy)%Qc) by (apply Qc_nonneg_mult; qc_lra).
  assert (W11 : (0 <= fx * fy)%Qc) by (apply Qc_nonneg_mult; qc_lra).
  assert (A1 : (0 <= (g00 - lo) * ((1 - fx) * (1 - fy)))%Qc) by (apply Qc_nonneg_mult; [qc_lra|done]).
  assert (A2 : (0 <= (g10 - lo) * (fx * (1 - fy)))%Qc) by (apply Qc_nonneg_mult; [qc_lra|done]).
  assert (A3 : (0 <= (g01 - lo) * ((1 - fx) * fy))%Qc) by (apply Qc_nonneg_mult; [qc_lra|done]).
  assert (A4 : (0 <= (g11 - lo) * (fx * fy))%Qc) by (apply Qc_nonneg_mult; [qc_lra|done]).
  assert (B1 : (0 <= (hi - g00) * ((1 - fx) * (1 - fy)))%Qc) by (apply Qc_nonneg_mult; [qc_lra|done]).
  assert (B2 : (0 <= (hi - g10) * (fx * (1 - fy)))%Qc) by (apply Qc_nonneg_mult; [qc_lra|done]).
  assert (B3 : (0 <= (hi - g01) * ((1 - fx) * fy))%Qc) by (apply Qc_nonneg_mult; [qc_lra|done]).
  assert (B4 : (0 <= (hi - g11) * (fx * fy))%Qc) by (apply Qc_nonneg_mult; [qc_lra|done]).
  assert (EL : (r - lo = (g00 - lo) * ((1 - fx) * (1 - fy)) + (g10 - lo) * (fx * (1 - fy)) +
                         (g01 - lo) * ((1 - fx) * fy) + (g11 - lo) * (fx * fy))%Qc)
    by (rewrite Hr; ring).
  assert (EH : (hi - r = (hi - g00) * ((1 - fx) * (1 - fy)) + (hi - g10) * (fx * (1 - fy)) +
                         (hi - g01) * ((1 - fx) * fy) + (hi - g11) * (fx * fy))%Qc)
    by (rewrite Hr; ring).
  clear Hr W00 W10 W01 W11.
  set (a1 := ((g00 - lo) * _)%Qc) in *. set (a2 := ((g10 - lo) * _)%Qc) in *.
  set (a3 := ((g01 - lo) * _)%Qc) in *. set (a4 := ((g11 - lo) * _)%Qc) in *.
  set (b1 := ((hi - g00) * _)%Qc) in *. set (b2 := ((hi - g10) * _)%Qc) in *.
  set (b3 := ((hi - g01) * _)%Qc) in *. set (b4 := ((hi - g11) * _)%Qc) in *.
  clearbody a1 a2 a3 a4 b1 b2 b3 b4.
  split; qc_lra.
Qed.

Lemma rd_Ok (a : list Qc) i x : rd a i = Ok x -> at_ a i = Some x.
Proof. unfold rd. destruct (at_ a i); [by intros [= ->]|done]. Qed.

Lemma sampleGrid_between s x0 y0 g ox oy cols rows r lo hi :
  entries_between lo hi g ->
  sampleGrid s x0 y0 g ox oy cols rows = Ok r ->
  (lo <= r)%Qc /\ (r <= hi)%Qc.
Proof.
  intros Hg. unfold sampleGrid. intros Hb.
  apply bind_Ok in Hb as (c & (_ & Hx0 & Hx1 & Hy0 & Hy1)%locate_Ok & Hb).
  apply bind_Ok in Hb as (g00 & H00%rd_Ok%Hg & Hb).
  apply bind_Ok in Hb as (g10 & H10%rd_Ok%Hg & Hb).
  apply bind_Ok in Hb as (g01 & H01%rd_Ok%Hg & Hb).
  apply bind_Ok in Hb as (g11 & H11%rd_Ok%Hg & Hb).
  injection Hb as Hr. symmetry in Hr.
  by apply (bilinear_between lo hi g00 g10 g01 g11 (st_fx c) (st_fy c)).
Qed.

(** *** The transfer averages *)

Lemma weighted_between_step lo hi g w k val c :
  (lo <= val)%Qc /\ (val <= hi)%Qc -> (0 <= c)%Qc ->
  weighted_between lo hi g w ->
  weighted_between lo hi (upd_at g k (fun x => x + val * c)%Qc)
                         (upd_at w k (fun x => x + c)%Qc).
Proof.
  intros [Hlo Hhi] Hc [Hlen Hb]. split; [by rewrite !length_upd_at|].
  intros j gj wj. rewrite !at_upd_at. case_decide as Hk; [|apply Hb].
  destruct (at_ g j) as [g0|] eqn:Eg; [|done].
  destruct (at_ w j) as [w0|] eqn:Ew; [|done].
  intros [= <-] [= <-]. destruct (Hb j g0 w0 Eg Ew) as (Hw & Hl & Hu).
  assert (A : (0 <= (val - lo) * c)%Qc) by (apply Qc_nonneg_mult; [qc_lra|done]).
  assert (B : (0 <= (hi - val) * c)%Qc) by (apply Qc_nonneg_mult; [qc_lra|done]).
  split_and!; qc_lra.
Qed.

Lemma splatToGrid_between lo hi s x0 y0 val g w ox oy cols rows g' w' :
  (lo <= val)%Qc /\ (val <= hi)%Qc ->
  weighted_between lo hi g w ->
  splatToGrid s x0 y0 val g w ox oy cols rows = Ok (g', w') ->
  weighted_between lo hi g' w'.
Proof.
  intros Hval Hb. unfold splatToGrid. intros Hr.
  apply bind_Ok in Hr as (c & (_ & Hx0 & Hx1 & Hy0 & Hy1)%locate_Ok & Hr).
  injection Hr as <- <-.
  repeat apply weighted_between_step; try done; apply Qc_nonneg_mult; qc_lra.
Qed.

Lemma splat_particle_between lo hi p s s' :
  velocity_between lo hi p ->
  weighted_between lo hi (u s) (uWeight s) ->
  weighted_between lo hi (v s) (vWeight s) ->
  splat_particle p s = Ok s' ->
  weighted_between lo hi (u s') (uWeight s') /\
  weighted_between lo hi (v s') (vWeight s').
Proof.
  intros [Hpu Hpv] Hu Hv. unfold splat_particle. intros Hb.
  apply bind_Ok in Hb as ([g1 w1] & H1 & Hb).
  apply bind_Ok in Hb as ([g2 w2] & H2 & Hb).
  injection Hb as <-. cbn in *.
  split; [by eapply splatToGrid_between, H1|by eapply splatToGrid_between, H2].
Qed.

Lemma splat_particles_between lo hi ps : forall s s',
  Forall (velocity_between lo hi) ps ->
  weighted_between lo hi (u s) (uWeight s) ->
  weighted_between lo hi (v s) (vWeight s) ->
  splat_particles ps s = Ok s' ->
  weighted_between lo hi (u s') (uWeight s') /\
  weighted_between lo hi (v s') (vWeight s').
Proof.
  induction ps as [|p ps IH]; intros s s' Hall Hu Hv; cbn [splat_particles].
  - by intros [= <-].
  - inversion Hall as [|? ? Hp Hps]; subst. intros Hb.
    apply bind_Ok in Hb as (s1 & H1 & Hb).
    destruct (splat_particle_between lo hi p s s1 Hp Hu Hv H1) as [Hu1 Hv1].
    by apply (IH s1 s').
Qed.

Lemma weighted_between_fill lo hi (g w : list Qc) :
  length g = length w -> weighted_between lo hi (fill g 0%Qc) (fill w 0%Qc).
Proof.
  intros Hl. split; [by rewrite !length_fill|].
  intros k gk wk ->%at_fill ->%at_fill. split_and!; qc_lra.
Qed.

Lemma normalized_between lo hi g w g' :
  weighted_between lo hi g w ->
  (forall k, at_ g' k = normalized g w k) ->
  zero_or_between lo hi g'.
Proof.
  intros [Hlen Hb] Hn k x. rewrite Hn. unfold normalized.
  destruct (at_ g k) as [gk|] eqn:Eg; [|done].
  destruct (at_ w k) as [wk|] eqn:Ew.
  2:{ exfalso. apply at_lt in Eg.
      destruct (at_is_Some w k) as [? Hw]; [lia|]. congruence. }
  destruct (Hb k gk wk Eg Ew) as (Hw & Hl & Hu).
  case_decide as Hpos; intros [= <-].
  - right. assert (Hne : wk <> 0%Qc) by (intros ->; by apply Qclt_not_eq in Hpos).
    assert (E : (gk / wk * wk = gk)%Qc).
    { unfold Qcdiv. rewrite <- Qcmult_assoc, (Qcmult_comm (/ wk)), Qcmult_inv_r by done.
      ring. }
    split; apply (Qcmult_lt_0_le_reg_r _ _ wk Hpos); by rewrite ?E.
  - left. assert (wk = 0%Qc) as -> by qc_lra. qc_lra.
Qed.

Lemma transfer_between lo hi s s' :
  length (uWeight s) = length (u s) -> length (vWeight s) = length (v s) ->
  Forall (velocity_between lo hi) (particles s) ->
  transferParticlesToGrid s = Ok s' ->
  zero_or_between lo hi (u s') /\ zero_or_between lo hi (v s').
Proof.
  intros Hlu Hlv Hall (s1 & gu & gv & H1 & H2 & H3 & ->)%transfer_Ok.
  apply splat_particles_between with (lo := lo) (hi := hi) in H1 as [Hu1 Hv1];
    [|done|apply weighted_between_fill; by symmetry..].
  destruct (normalize_spec (u s1) (uWeight s1)) as (gu' & Hgu & _ & Hatu).
  destruct (normalize_spec (v s1) (vWeight s1)) as (gv' & Hgv & _ & Hatv).
  assert (gu' = gu) as -> by congruence. assert (gv' = gv) as -> by congruence.
  pose proof (normalized_between lo hi _ _ _ Hu1 Hatu) as Hzu.
  pose proof (normalized_between lo hi _ _ _ Hv1 Hatv) as Hzv.
  destruct (enforceBoundaries_spec (set_v gv (set_u gu s1))) as (_ & _ & _ & [Eu Ev] & _).
  split; intros k x Hx.
  - destruct (Eu k) as [E|[E _]]; rewrite E in Hx.
    + by apply (Hzu k).
    + left. congruence.
  - destruct (Ev k) as [E|[E _]]; rewrite E in Hx.
    + by apply (Hzv k).
    + left. congruence.
Qed.


(** ** The effect of one relaxation *)

Lemma rd_upd_at (a : list Qc) k f i x :
  rd a i = Ok x -> rd (upd_at a k f) i = Ok (if decide (k = i) then f x else x).
Proof.
  unfold rd. rewrite at_upd_at. destruct (at_ a i) as [y|]; [|done].
  intros [= ->]. by case_decide.
Qed.

Lemma flux_sum (n : Z) (x flux : Qc) :
  n <> 0 -> flux = (x / Qc_of_Z n)%Qc -> (Qc_of_Z n * flux)%Qc = x.
Proof.
  intros Hn ->. apply Qc_of_Z_nonzero in Hn. unfold Qcdiv.
  rewrite (Qcmult_comm x), Qcmult_assoc, Qcmult_inv_r by done. ring.
Qed.

Lemma solve_cell_divergence j i s s' d :
  fNumX s <> 0 ->
  is_solid s (i + j * fNumX s) = false ->
  cell_divergence s i j = Ok d ->
  solve_cell j i s = Ok s' ->
  cell_divergence s' i j =
    Ok (if decide ((Math_abs d < epsilon)%Qc \/ open_neighbours s i j = 0)
        then d else ((1 - overRelaxation s) * d)%Qc).
Proof.
  intros HX Hc Hd. unfold solve_cell. rewrite Hc.
  unfold cell_divergence in Hd.
  destruct (rd (u s) (i + j * (fNumX s + 1))) as [uLeft|] eqn:EuL; [|done].
  destruct (rd (u s) (i + j * (fNumX s + 1) + 1)) as [uRight|] eqn:EuR; [|done].
  destruct (rd (v s) (i + j * fNumX s)) as [vBot|] eqn:EvB; [|done].
  destruct (rd (v s) (i + j * fNumX s + fNumX s)) as [vTop|] eqn:EvT; [|done].
  cbn [mbind outcome_bind] in Hd |- *.
  set (target := match at_ (pDensity s) (i + j * fNumX s) with
                 | Some density => _ | None => _ end) in *.
  injection Hd as Hd. rewrite Hd.
  assert (Hsame : cell_divergence s i j = Ok d).
  { unfold cell_divergence. rewrite EuL, EuR, EvB, EvT. cbn [mbind outcome_bind].
    fold target. by rewrite Hd. }
  unfold open_neighbours.
  destruct (decide (Math_abs d < epsilon)%Qc) as [He|He].
  { intros [= <-]. by rewrite decide_True by (by left). }
  set (sTot := open_flag s (i - 1 + j * fNumX s) + open_flag s (i + 1 + j * fNumX s) +
               open_flag s (i + (j - 1) * fNumX s) + open_flag s (i + (j + 1) * fNumX s)).
  destruct (decide (sTot = 0)) as [Hs|Hs].
  { intros [= <-]. by rewrite decide_True by (by right). }
  rewrite decide_False by (intros [?|?]; done).
  rewrite js_div_nonzero by (by apply Qc_of_Z_nonzero).
  cbn [mbind outcome_bind].
  set (flux := (- (d * overRelaxation s) / Qc_of_Z sTot)%Qc).
  pose proof (flux_sum sTot _ flux Hs eq_refl) as Hflux.
  clearbody flux. intros [= <-].
  unfold cell_divergence.
  revert Hs Hflux. subst sTot. unfold open_flag.
  destruct (is_solid s (i - 1 + j * fNumX s));
  destruct (is_solid s (i + 1 + j * fNumX s));
  destruct (is_solid s (i + (j - 1) * fNumX s));
  destruct (is_solid s (i + (j + 1) * fNumX s));
  cbn [Z.add Pos.add Pos.succ]; intros Hs Hflux; try done;
  repeat (first [rewrite decide_True by done | rewrite decide_False by done]);
  unfold set_u, set_v;
  cbn [density gravity overRelaxation fNumX fNumY h u v du dv uNew vNew
       uWeight vWeight pDensity cellType particles totalTime];
  fold target;
  repeat (first [rewrite (rd_upd_at _ _ _ _ _ EuL) | rewrite (rd_upd_at _ _ _ _ _ EuR)
                |rewrite (rd_upd_at _ _ _ _ _ EvB) | rewrite (rd_upd_at _ _ _ _ _ EvT)
                |erewrite rd_upd_at by (first [apply rd_upd_at; eassumption | eassumption])]);
  rewrite ?EuL, ?EuR, ?EvB, ?EvT;
  cbn [mbind outcome_bind];
  repeat (first [rewrite decide_True by lia | rewrite decide_False by lia]);
  f_equal;
  replace ((1 - overRelaxation s) * d)%Qc with (d - d * overRelaxation s)%Qc by ring;
  set (p := (d * overRelaxation s)%Qc) in *; clearbody p; clear -Hd Hflux;
  match type of Hflux with
  | context [Qc_of_Z ?n] => let k := eval cbv in n in change n with k in Hflux
  end;
  qc_lra.
Qed.


(** ** The classification of reachable states *)

Lemma same_setup_shaped s s' : same_setup s s' -> grid_shaped s -> grid_shaped s'.
Proof.
  unfold same_setup, grid_shaped.
  intros (?&?&EX&EY&?&Ec&?&?&?&?&?&?&?&?&?) (?&?&?&?&?&?&?&?).
  rewrite EX, EY, Ec. repeat split; congruence.
Qed.

Lemma same_setup_ring s s' : same_setup s s' -> ring_classified s -> ring_classified s'.
Proof.
  unfold same_setup, ring_classified, getCellIndex, ring_type.
  intros (?&?&EX&EY&?&Ec&?) Hr i j. rewrite EX, EY, Ec. apply Hr.
Qed.

Lemma construct_ring rnd fuel width height spacing s :
  construct rnd fuel width height spacing = Ok s ->
  grid_shaped s /\ ring_classified s.
Proof.
  intros (Hsp & Hu & Hv & Hc & Hinit)%construct_Ok.
  set (X := Math_floor (width / spacing)%Qc + 1) in *.
  set (Y := Math_floor (height / spacing)%Qc + 1) in *.
  pose proof (blank_shaped X Y spacing Hu Hv Hc) as Hb.
  destruct (initGrid_spec (blank X Y spacing)) as [Hfr Hring].
  { cbn. rewrite length_replicate. lia. }
  apply initParticles_Ok in Hinit as [Hpo _]. unfold particles_only in Hpo.
  split.
  - eapply particles_only_shaped; [exact Hpo|]. by eapply grid_frame_shaped.
  - destruct Hfr as [Hfr _]. rewrite Hpo.
    unfold ring_classified, getCellIndex, ring_type in *.
    cbn [fNumX fNumY cellType set_particles]. rewrite Hfr.
    cbn [fNumX fNumY set_cellType blank]. intros i j Hi Hj.
    specialize (Hring i j). cbn [fNumX fNumY blank] in Hring. by apply Hring.
Qed.

Section Ring.
Variable Math_sin : Qc -> Qc.
Variable Math_sqrt : Qc -> Qc.

Lemma reachable_ring s :
  reachable Math_sin Math_sqrt s -> grid_shaped s /\ ring_classified s.
Proof.
  induction 1 as [rnd fuel w hh sp s Hc|g s _ [IH1 IH2]|dt s s' _ [IH1 IH2] Hint
                 |x0 y0 vx vy r s s' _ [IH1 IH2] Hf|rnd fuel s s' _ [IH1 IH2] Hr].
  - by eapply construct_ring.
  - done.
  - apply (integrate_step_frame Math_sin Math_sqrt) in Hint as [Hf%step_frame_setup _].
    split; [by eapply same_setup_shaped|by eapply same_setup_ring].
  - apply addExternalForce_Ok in Hf as (Hpo & _). unfold particles_only in Hpo.
    rewrite Hpo. done.
  - apply reset_setup in Hr.
    split; [by eapply same_setup_shaped|by eapply same_setup_ring].
Qed.

(** *** The wave paddle *)

Lemma ceil_lt (j : Z) (q : Qc) : (Qc_of_Z j < q)%Qc <-> j < Math_ceil q.
Proof.
  unfold Math_ceil, Qclt, Qc_of_Z. cbn [this]. split.
  - intros Hlt. pose proof (Qle_ceiling q) as Hc.
    rewrite Zlt_Qlt. by eapply Qlt_le_trans.
  - intros Hlt. pose proof (Qceiling_lt q) as Hc.
    eapply Qle_lt_trans; [|exact Hc]. rewrite <- Zle_Qle. lia.
Qed.

Lemma apply_paddle_faces s j :
  Z.of_nat (length (u s)) = (fNumX s + 1) * fNumY s -> 1 <= fNumX s ->
  1 <= j -> (Qc_of_Z j < Qc_of_Z (fNumY s) * lit 7 10)%Qc ->
  at_ (u (apply_paddle Math_sin s)) (1 + j * (fNumX s + 1)) =
    Some (Qc_of_Z 400 * Math_sin (totalTime s * 1))%Qc.
Proof.
  intros Hlen HX Hj Hlt.
  assert (HjY : j < fNumY s).
  { destruct (decide (j < fNumY s)) as [|Hge]; [done|exfalso].
    assert (Hle : (Qc_of_Z (fNumY s) <= Qc_of_Z j)%Qc) by (apply Qc_of_Z_le; lia).
    assert (H1 : (Qc_of_Z 1 <= Qc_of_Z j)%Qc) by (apply Qc_of_Z_le; lia).
    qc_lra. }
  apply ceil_lt in Hlt. unfold apply_paddle.
  set (uForce := (Qc_of_Z 400 * Math_sin (totalTime s * 1))%Qc).
  set (top := Math_ceil (Qc_of_Z (fNumY s) * lit 7 10)%Qc) in *.
  cut ((fun k t0 => fNumX t0 = fNumX s /\ length (u t0) = length (u s) /\
          forall j0, 1 <= j0 < k -> j0 < fNumY s ->
            at_ (u t0) (1 + j0 * (fNumX s + 1)) = Some uForce)
       top (forZ 1 top (paddle_row uForce) s)).
  { intros (_ & _ & H). apply H; lia. }
  apply forZ_ind; [lia| |].
  - split; [done|]. split; [done|]. intros; lia.
  - intros k t0 Hk (EX & El & IH). unfold paddle_row. cbn [fNumX u set_u].
    rewrite length_wr, EX. split; [done|]. split; [done|].
    intros j0 Hj0 Hj0Y. rewrite at_wr. case_decide as Hd; [done|].
    destruct (decide (j0 = k)) as [->|]; [|apply IH; lia].
    exfalso. apply Hd. split; [done|]. rewrite El. nia.
Qed.

Lemma paddle_face_protected s j :
  ring_classified s -> 0 <= j < fNumY s -> 1 <= fNumX s ->
  u_protected s (1 + j * (fNumX s + 1)).
Proof.
  intros Hring Hj HX.
  apply (solid_face_u_protected s 1 j); [lia|]. left.
  split; [lia|]. split; [lia|]. unfold is_solid. apply bool_decide_eq_true_2.
  replace (1 - 1) with 0 by lia.
  rewrite (Hring 0 j) by lia. unfold ring_type. by rewrite bool_decide_eq_true_2 by (by left).
Qed.

Lemma integrate_paddle dt s s' j :
  grid_shaped s -> ring_classified s ->
  integrate Math_sin Math_sqrt dt s = Ok s' ->
  1 <= fNumX s -> 1 <= j -> (Qc_of_Z j < Qc_of_Z (fNumY s) * lit 7 10)%Qc ->
  at_ (u s') (getUIndex s 1 j) = Some (Qc_of_Z 400 * Math_sin (totalTime s + dt))%Qc.
Proof.
  intros Hshape Hring Hint HX Hj Hlt.
  apply integrate_Ok in Hint as (s1 & s2 & s3 & pre & post & H1 & H2 & H3 & H4 & H5 & H6).
  apply advectParticles_Ok in H1 as (Hpo1 & _). unfold particles_only in Hpo1.
  pose proof (transfer_shape _ _ H2) as (_ & _ & _ & Hs2 & _).
  apply transferParticlesToGrid_velocity_only in H2. unfold velocity_only in H2.
  apply calculateParticleDensity_Ok in H3.
  apply snapshot_Ok in H4 as (Hpre & _).
  apply solve_kept in H5 as (_ & Hku & _).
  apply transferGridToParticles_Ok in H6 as [Hpo6 _].
  assert (E2 : fNumX s2 = fNumX s /\ fNumY s2 = fNumY s /\ cellType s2 = cellType s /\
               totalTime s2 = (totalTime s + dt)%Qc /\ length (u s2) = length (u s)).
  { destruct Hs2 as (?&?&?&?&?&Hu&?). rewrite Hu. rewrite H2, Hpo1. done. }
  destruct E2 as (EX2 & EY2 & Ec2 & Et2 & Eu2).
  assert (E3 : fNumX s3 = fNumX s /\ fNumY s3 = fNumY s /\ cellType s3 = cellType s /\
               totalTime s3 = (totalTime s + dt)%Qc /\ u s3 = u s2).
  { rewrite H3. done. }
  destruct E3 as (EX3 & EY3 & Ec3 & Et3 & Eu3).
  destruct (apply_paddle_frame Math_sin s3) as [Hpad _].
  set (s4 := apply_paddle Math_sin s3) in *.
  assert (Hshape3 : Z.of_nat (length (u s3)) = (fNumX s3 + 1) * fNumY s3).
  { rewrite Eu3, Eu2, EX3, EY3. apply Hshape. }
  pose proof (apply_paddle_faces s3 j Hshape3) as Hface.
  rewrite EX3, EY3, Et3 in Hface. specialize (Hface HX Hj Hlt). fold s4 in Hface.
  assert (E4 : fNumX pre = fNumX s /\ fNumY pre = fNumY s /\ cellType pre = cellType s /\
               u pre = u s4).
  { rewrite Hpre. cbn [fNumX fNumY cellType u set_du set_dv]. rewrite Hpad.
    cbn [fNumX fNumY cellType u set_u]. done. }
  destruct E4 as (EX4 & EY4 & Ec4 & Eu4).
  assert (HjY : 0 <= j < fNumY s).
  { split; [lia|]. destruct (decide (j < fNumY s)) as [|Hge]; [done|exfalso].
    assert (Hle : (Qc_of_Z (fNumY s) <= Qc_of_Z j)%Qc) by (apply Qc_of_Z_le; lia).
    assert (H1 : (Qc_of_Z 1 <= Qc_of_Z j)%Qc) by (apply Qc_of_Z_le; lia).
    qc_lra. }
  assert (Hprot : u_protected pre (1 + j * (fNumX pre + 1))).
  { apply paddle_face_protected; [|lia..].
    unfold ring_classified, getCellIndex, ring_type. rewrite EX4, EY4, Ec4. apply Hring. }
  rewrite EX4 in Hprot. apply Hku in Hprot.
  rewrite Hpo6. cbn [u set_particles]. unfold getUIndex.
  rewrite Hprot, Eu4, Hface. by rewrite Qcmult_1_r.
Qed.
End Ring.


(** ** The wall clamp *)

Lemma clamp_inside (width height buffer : Qc) p :
  (buffer <= Particle.x p)%Qc -> (Particle.x p <= width - buffer)%Qc ->
  (buffer <= Particle.y p)%Qc -> (Particle.y p <= height - buffer)%Qc ->
  clamp width height buffer p = p.
Proof.
  intros H1 H2 H3 H4. unfold clamp.
  rewrite (decide_False (P := (Particle.x p < buffer)%Qc)) by qc_lra.
  rewrite (decide_False (P := (width - buffer < Particle.x p)%Qc)) by qc_lra.
  rewrite (decide_False (P := (height - buffer < Particle.y p)%Qc)) by qc_lra.
  rewrite (decide_False (P := (Particle.y p < buffer)%Qc)) by qc_lra.
  done.
Qed.

Lemma clamp_idempotent (width height buffer : Qc) p :
  (buffer <= width - buffer)%Qc -> (buffer <= height - buffer)%Qc ->
  clamp width height buffer (clamp width height buffer p) = clamp width height buffer p.
Proof.
  intros Hw Hh. destruct (clamp_bounds width height buffer p Hw Hh) as (?&?&?&?).
  by apply clamp_inside.
Qed.

Lemma clamp_x (width height buffer : Qc) p :
  (buffer <= width - buffer)%Qc ->
  let p' := clamp width height buffer p in
  Particle.x p' = Math_max buffer (Math_min (Particle.x p) (width - buffer)) /\
  Particle.u p' =
    (if decide (Particle.x p' = Particle.x p) then Particle.u p else 0%Qc).
Proof.
  intros Hw. destruct p as [x y u v]. unfold clamp.
  cbn [Particle.x Particle.y Particle.u Particle.v].
  destruct (decide (x < buffer)%Qc) as [H1|H1];
    cbn [Particle.x Particle.y Particle.u Particle.v];
  (destruct (decide (width - buffer < _)%Qc) as [H2|H2];
    cbn [Particle.x Particle.y Particle.u Particle.v]);
  (destruct (decide (height - buffer < _)%Qc) as [H3|H3];
    cbn [Particle.x Particle.y Particle.u Particle.v]);
  (destruct (decide (_ < buffer)%Qc) as [H4|H4];
    cbn [Particle.x Particle.y Particle.u Particle.v]);
  unfold Math_max, Math_min; clear H3 H4;
  repeat case_decide; split; try reflexivity; try qc_lra; exfalso; qc_lra.
Qed.

Lemma clamp_y (width height buffer : Qc) p :
  (buffer <= height - buffer)%Qc ->
  let p' := clamp width height buffer p in
  Particle.y p' = Math_max buffer (Math_min (Particle.y p) (height - buffer)) /\
  Particle.v p' =
    (if decide (Particle.y p' = Particle.y p) then Particle.v p else 0%Qc).
Proof.
  intros Hh. destruct p as [x y u v]. unfold clamp.
  cbn [Particle.x Particle.y Particle.u Particle.v].
  destruct (decide (x < buffer)%Qc) as [H1|H1];
    cbn [Particle.x Particle.y Particle.u Particle.v];
  (destruct (decide (width - buffer < _)%Qc) as [H2|H2];
    cbn [Particle.x Particle.y Particle.u Particle.v]);
  clear H1 H2;
  (destruct (decide (height - buffer < _)%Qc) as [H3|H3];
    cbn [Particle.x Particle.y Particle.u Particle.v]);
  (destruct (decide (_ < buffer)%Qc) as [H4|H4];
    cbn [Particle.x Particle.y Particle.u Particle.v]);
  unfold Math_max, Math_min;
  repeat case_decide; split; try reflexivity; try qc_lra; exfalso; qc_lra.
Qed.

(** ** addExternalForce *)

Section Force.
Variable Math_sqrt : Qc -> Qc.

Lemma push_spec x0 y0 vx vy radius p :
  exists p', push Math_sqrt x0 y0 vx vy radius p = Ok p' /\ pushed x0 y0 radius p p'.
Proof.
  unfold push, pushed. case_decide as Hin.
  - assert (Hr : radius <> 0%Qc).
    { intros ->. apply (Qclt_not_le _ _ Hin).
      set (dx := (Particle.x p - x0)%Qc). set (dy := (Particle.y p - y0)%Qc).
      assert (0 <= dx * dx)%Qc by (destruct (Qclt_le_dec dx 0);
        [replace (dx * dx)%Qc with ((- dx) * (- dx))%Qc by ring|];
        apply Qc_nonneg_mult; qc_lra).
      assert (0 <= dy * dy)%Qc by (destruct (Qclt_le_dec dy 0);
        [replace (dy * dy)%Qc with ((- dy) * (- dy))%Qc by ring|];
        apply Qc_nonneg_mult; qc_lra).
      set (a := (dx * dx)%Qc) in *. set (b := (dy * dy)%Qc) in *.
      clearbody a b. qc_lra. }
    rewrite js_div_nonzero by done. cbn [mbind outcome_bind].
    eexists; split; [done|]. cbn [Particle.x Particle.y].
    split; [done|]. split; [done|]. intros Hout. exfalso.
    by apply (Qclt_not_le _ _ Hin).
  - eexists; split; [done|]. done.
Qed.

Lemma eachM_spec {A} (f : A -> outcome A) (R : A -> A -> Prop) l :
  (forall a, exists a', f a = Ok a' /\ R a a') ->
  exists l', eachM f l = Ok l' /\ Forall2 R l l'.
Proof.
  intros Hf. induction l as [|a l (l' & IH & HR)]; cbn [eachM]; [eauto|].
  destruct (Hf a) as (a' & -> & Ha). rewrite IH. cbn [mbind outcome_bind].
  eexists; split; [done|]. by constructor.
Qed.

Lemma addExternalForce_spec x0 y0 vx vy radius s :
  exists s', addExternalForce Math_sqrt x0 y0 vx vy radius s = Ok s' /\
    s' = set_particles (particles s') s /\
    Forall2 (pushed x0 y0 radius) (particles s) (particles s').
Proof.
  unfold addExternalForce.
  destruct (eachM_spec (push Math_sqrt x0 y0 vx vy radius) (pushed x0 y0 radius)
              (particles s)) as (ps & -> & Hps); [apply push_spec|].
  cbn [mbind outcome_bind]. eexists; split; [done|]. done.
Qed.
End Force.

(** ** Grid indices *)

Lemma index_round_trip s i j :
  (0 <= i <= fNumX s ->
     getUIndex s i j mod (fNumX s + 1) = i /\ getUIndex s i j / (fNumX s + 1) = j) /\
  (0 <= i < fNumX s ->
     getCellIndex s i j mod fNumX s = i /\ getCellIndex s i j / fNumX s = j /\
     getVIndex s i j = getCellIndex s i j).
Proof.
  unfold getUIndex, getVIndex, getCellIndex. split; intros Hi.
  - rewrite Z.mod_add, Z.div_add by lia.
    rewrite Z.mod_small, Z.div_small by lia. lia.
  - rewrite Z.mod_add, Z.div_add by lia.
    rewrite Z.mod_small, Z.div_small by lia. lia.
Qed.

Lemma index_in_range s i j :
  grid_shaped s -> 0 <= j < fNumY s ->
  (0 <= i <= fNumX s -> is_Some (at_ (u s) (getUIndex s i j))) /\
  (0 <= i < fNumX s ->
     is_Some (at_ (v s) (getVIndex s i j)) /\
     is_Some (at_ (v s) (getVIndex s i (j + 1))) /\
     is_Some (at_ (cellType s) (getCellIndex s i j)) /\
     is_Some (at_ (pDensity s) (getCellIndex s i j))).
Proof.
  intros (Hu & Hv & _ & _ & _ & _ & Hp & Hc) Hj.
  unfold getUIndex, getVIndex, getCellIndex.
  split; intros Hi; [|split_and!]; apply at_is_Some; nia.
Qed.


(** ** Failures of the constructor *)

Section Failures.
Variable Math_random : nat -> Qc.

Lemma init_column_error fuel cell x0 maxH sp : forall y0 ps e,
  init_column Math_random fuel cell x0 maxH sp y0 ps = Err e -> e = Timeout.
Proof.
  induction fuel as [|fuel IH]; intros y0 ps e; cbn [init_column].
  - case_decide; [by intros [= <-]|done].
  - case_decide; [apply IH|done].
Qed.



(** With a non-positive step the outer seeding loop never leaves its
    range either. *)
Lemma init_rows_diverges fuel cell xEnd startY maxH sp : forall x0 ps,
  (sp <= 0)%Qc -> (x0 < xEnd)%Qc ->
  init_rows Math_random fuel cell xEnd startY maxH sp x0 ps = Err Timeout.
Proof.
  induction fuel as [|fuel IH]; intros x0 ps Hsp Hlt; cbn [init_rows];
    rewrite decide_True by done; [done|].
  destruct (init_column _ _ _ _ _ _ _ _) as [ps1|e1] eqn:Hc; cbn [mbind outcome_bind].
  - apply IH; [done|]. qc_lra.
  - f_equal. by eapply init_column_error.
Qed.

Lemma initParticles_diverges fuel s :
  (h s < 0)%Qc -> fNumX s < 4 -> initParticles Math_random fuel s = Err Timeout.
Proof.
  intros Hh HX. unfold initParticles.
  rewrite init_rows_diverges; [done|qc_lra|].
  assert (Hn : (0 < Qc_of_Z (4 - fNumX s))%Qc) by (apply Qc_of_Z_pos; lia).
  assert (Hp : (0 < Qc_of_Z (4 - fNumX s) * (- h s))%Qc)
    by (apply Qcmult_pos_pos; [done|qc_lra]).
  assert (E : (Qc_of_Z (fNumX s - 4) * h s = Qc_of_Z (4 - fNumX s) * (- h s))%Qc).
  { replace (Qc_of_Z (fNumX s - 4)) with (- Qc_of_Z (4 - fNumX s))%Qc; [ring|].
    apply Qc_is_canon. unfold Qc_of_Z. cbn [this Qcopp Q2Qc].
    rewrite Qred_correct. rewrite <- inject_Z_opp. f_equiv. lia. }
  rewrite E. set (w := (Qc_of_Z (4 - fNumX s) * - h s)%Qc) in *. clearbody w.
  clear -Hp. qc_lra.
Qed.


Lemma construct_diverges fuel width height spacing :
  let X := Math_floor (width / spacing)%Qc + 1 in
  let Y := Math_floor (height / spacing)%Qc + 1 in
  (spacing < 0)%Qc -> X < 4 ->
  0 <= (X + 1) * Y -> 0 <= X * (Y + 1) -> 0 <= X * Y ->
  construct Math_random fuel width height spacing = Err Timeout.
Proof.
  intros X Y Hsp HX Hu Hv Hc.
  assert (Hne : spacing <> 0%Qc) by (intros ->; by apply Qclt_not_eq in Hsp).
  rewrite (construct_unfold Math_random fuel width height spacing Hne Hu Hv Hc).
  fold X Y. destruct (initGrid_frame (blank X Y spacing)) as [Hfr _].
  apply initParticles_diverges; rewrite Hfr; done.
Qed.
End Failures.

(** ** Particles that do not overlap *)

Section Spaced.
Variable Math_sqrt : Qc -> Qc.



End Spaced.


(** ** The animation frame *)

Section Render.
Variable Math_sin : Qc -> Qc.
Variable Math_sqrt : Qc -> Qc.
Hypothesis sqrt_nonzero : forall a : Qc, (0 < a)%Qc -> Math_sqrt a <> 0%Qc.


End Render.

(** ** Seeding *)

Section Rest.
Variable Math_random : nat -> Qc.

Lemma init_column_rest fuel cell x0 maxH sp : forall y0 ps ps',
  Forall at_rest ps ->
  init_column Math_random fuel cell x0 maxH sp y0 ps = Ok ps' -> Forall at_rest ps'.
Proof.
  induction fuel as [|fuel IH]; intros y0 ps ps' Hps; cbn [init_column].
  - case_decide; [done|]. by intros [= <-].
  - case_decide; [|by intros [= <-]]. apply IH.
    apply Forall_app. split; [done|]. by repeat constructor.
Qed.

Lemma init_rows_rest fuel cell xEnd startY maxH sp : forall x0 ps ps',
  Forall at_rest ps ->
  init_rows Math_random fuel cell xEnd startY maxH sp x0 ps = Ok ps' -> Forall at_rest ps'.
Proof.
  induction fuel as [|fuel IH]; intros x0 ps ps' Hps; cbn [init_rows].
  - case_decide; [done|]. by intros [= <-].
  - case_decide; [|by intros [= <-]]. intros Hb.
    apply bind_Ok in Hb as (ps1 & H1 & Hb).
    eapply IH; [|exact Hb]. by eapply init_column_rest.
Qed.

Lemma initParticles_rest fuel s s' :
  initParticles Math_random fuel s = Ok s' -> Forall at_rest (particles s').
Proof.
  unfold initParticles. intros Hb.
  apply bind_Ok in Hb as (ps & Hps & Hb). injection Hb as <-.
  cbn [particles set_particles]. by eapply init_rows_rest.
Qed.

Lemma construct_rest fuel width height spacing s :
  construct Math_random fuel width height spacing = Ok s ->
  seeded s /\ Forall at_rest (particles s).
Proof.
  intros Hc. split; [by eapply construct_seeded|].
  apply construct_Ok in Hc as (_ & _ & _ & _ & Hinit). by eapply initParticles_rest.
Qed.
End Rest.

(** ** Runs used as instances *)


Lemma demo_well_formed : well_formed demo.
Proof. split; [exact demo_shaped|]. by vm_compute. Qed.

Lemma entries_between_Forall lo hi (a : list Qc) :
  Forall (fun x => (lo <= x)%Qc /\ (x <= hi)%Qc) a -> entries_between lo hi a.
Proof.
  intros Hall k x Hx. unfold at_ in Hx. case_decide; [|done].
  by apply (Forall_lookup_1 _ _ _ _ Hall Hx).
Qed.


(** * Further properties of the solver *)



(** X2. A completed step advances [totalTime] by [dt] and leaves the
    constants [density], [gravity] and [overRelaxation], the dimensions,
    the cell size, the classification and the arrays [uNew] and [vNew]
    as they were; the other arrays keep their lengths and the particle
    list its length. *)
Theorem integrate_frame_and_clock (Math_sin Math_sqrt : Qc -> Qc) dt s s' :
  integrate Math_sin Math_sqrt dt s = Ok s' ->
  totalTime s' = (totalTime s + dt)%Qc /\
  density s' = density s /\ gravity s' = gravity s /\
  overRelaxation s' = overRelaxation s /\
  fNumX s' = fNumX s /\ fNumY s' = fNumY s /\ h s' = h s /\
  cellType s' = cellType s /\ uNew s' = uNew s /\ vNew s' = vNew s /\
  length (u s') = length (u s) /\ length (v s') = length (v s) /\
  length (du s') = length (du s) /\ length (dv s') = length (dv s) /\
  length (uWeight s') = length (uWeight s) /\
  length (vWeight s') = length (vWeight s) /\
  length (pDensity s') = length (pDensity s) /\
  length (particles s') = length (particles s).
Proof. intros [Hf Ht]%integrate_step_frame. split; [exact Ht|exact Hf]. Qed.

Lemma integrate_frame_and_clock_witness :
  totalTime demo_fall = (totalTime demo_heavy + lit 1 10)%Qc /\
  density demo_fall = density demo_heavy /\ gravity demo_fall = gravity demo_heavy /\
  overRelaxation demo_fall = overRelaxation demo_heavy /\
  fNumX demo_fall = fNumX demo_heavy /\ fNumY demo_fall = fNumY demo_heavy /\
  h demo_fall = h demo_heavy /\
  cellType demo_fall = cellType demo_heavy /\ uNew demo_fall = uNew demo_heavy /\
  vNew demo_fall = vNew demo_heavy /\
  length (u demo_fall) = length (u demo_heavy) /\
  length (v demo_fall) = length (v demo_heavy) /\
  length (du demo_fall) = length (du demo_heavy) /\
  length (dv demo_fall) = length (dv demo_heavy) /\
  length (uWeight demo_fall) = length (uWeight demo_heavy) /\
  length (vWeight demo_fall) = length (vWeight demo_heavy) /\
  length (pDensity demo_fall) = length (pDensity demo_heavy) /\
  length (particles demo_fall) = length (particles demo_heavy).
Proof.
  apply (integrate_frame_and_clock demo_sin Qc_sqrt (lit 1 10) demo_heavy demo_fall).
  exact demo_fall_run.
Defined.

(** X3. [reset] undoes every step and splash: called with the random
    stream of the constructor on any state that evolved from a
    constructed state [s0], it returns [s0] again, except for the clock
    [totalTime] and an assigned [gravity], which it leaves as they
    are. *)
Theorem reset_restores_constructed_state (Math_sin Math_sqrt : Qc -> Qc)
    rnd fuel width height spacing s0 s :
  construct rnd fuel width height spacing = Ok s0 ->
  evolves Math_sin Math_sqrt s0 s ->
  reset rnd fuel s = Ok (set_gravity (gravity s) (set_totalTime (totalTime s) s0)).
Proof. intros Hc Hev. by eapply reset_restores_state. Qed.

Lemma reset_restores_constructed_state_witness :
  reset demo_random 10 demo_fall =
    Ok (set_gravity (gravity demo_fall) (set_totalTime (totalTime demo_fall) demo)).
Proof.
  apply (reset_restores_constructed_state demo_sin Qc_sqrt demo_random 10
           (lit 45 1) (lit 25 1) (lit 10 1) demo demo_fall).
  - exact demo_constructed.
  - eapply evolves_integrate; [|exact demo_fall_run].
    apply evolves_gravity, evolves_refl.
Defined.

(** X4. [calculateParticleDensity] conserves mass: on a well-formed state
    it completes, and the entries of [pDensity] then sum to the number of
    particles (each particle spreads exactly one unit over four cells,
    none of it lost at the border). *)
Theorem density_sums_to_particle_count s :
  well_formed s ->
  exists s', calculateParticleDensity s = Ok s' /\
    total (pDensity s') = Qc_of_nat (length (particles s)).
Proof.
  intros Hwf. destruct (calculateParticleDensity_total s Hwf) as (s' & Hs' & _).
  exists s'. split; [done|].
  destruct Hwf as ((_ & _ & _ & _ & _ & _ & Hp & _) & _ & HX & HY).
  unfold calculateParticleDensity in Hs'.
  apply bind_Ok in Hs' as (g & Hg & Hs'). injection Hs' as <-.
  cbn [pDensity set_pDensity].
  apply density_particles_sum in Hg; [|done|done|by rewrite length_fill].
  rewrite Hg, total_fill. ring.
Qed.

Lemma density_sums_to_particle_count_witness :
  exists s', calculateParticleDensity demo = Ok s' /\
    total (pDensity s') = Qc_of_nat (length (particles demo)).
Proof.
  apply (density_sums_to_particle_count demo). exact demo_well_formed.
Defined.

(** X5. After [transferParticlesToGrid] on a well-formed state the
    weights of either velocity grid sum to the number of particles: the
    four bilinear weights of a splat add up to one and the index clamp
    keeps all four inside the array. *)
Theorem transfer_weights_sum_to_particle_count s s' :
  well_formed s -> transferParticlesToGrid s = Ok s' ->
  total (uWeight s') = Qc_of_nat (length (particles s)) /\
  total (vWeight s') = Qc_of_nat (length (particles s)).
Proof. apply transfer_weights_sum. Qed.

Lemma transfer_weights_sum_to_particle_count_witness :
  total (uWeight demo_transfer) = Qc_of_nat (length (particles demo)) /\
  total (vWeight demo_transfer) = Qc_of_nat (length (particles demo)).
Proof.
  apply (transfer_weights_sum_to_particle_count demo demo_transfer).
  - exact demo_well_formed.
  - exact demo_transfer_run.
Defined.

(** X6. The separation pass moves particles in opposite pairs: it keeps
    the sum of the [x] coordinates and the sum of the [y] coordinates of
    all particles, and it changes no velocity. *)
Theorem separation_keeps_centroid_and_velocities (Math_sqrt : Qc -> Qc) s s' :
  separateParticles Math_sqrt s = Ok s' ->
  sum_x (particles s') = sum_x (particles s) /\
  sum_y (particles s') = sum_y (particles s) /\
  velocities (particles s') = velocities (particles s).
Proof. apply separateParticles_balanced. Qed.

Lemma pair_separated_run :
  separateParticles Qc_sqrt (pair_state (lit 10 1)) = Ok pair_separated.
Proof. decide_by_computation. Qed.

Lemma separation_keeps_centroid_and_velocities_witness :
  sum_x (particles pair_separated) = sum_x (particles (pair_state (lit 10 1))) /\
  sum_y (particles pair_separated) = sum_y (particles (pair_state (lit 10 1))) /\
  velocities (particles pair_separated) = velocities (particles (pair_state (lit 10 1))).
Proof.
  apply (separation_keeps_centroid_and_velocities Qc_sqrt (pair_state (lit 10 1))
           pair_separated).
  exact pair_separated_run.
Defined.

(** X7. A bilinear sample never overshoots: if every entry of the grid
    lies in [[lo, hi]], so does every value [sampleGrid] returns. *)
Theorem sample_stays_within_grid_values s x0 y0 g ox oy cols rows r lo hi :
  entries_between lo hi g ->
  sampleGrid s x0 y0 g ox oy cols rows = Ok r ->
  (lo <= r)%Qc /\ (r <= hi)%Qc.
Proof. apply sampleGrid_between. Qed.

Lemma middle_sample_run :
  sampleGrid middle_transfer (lit 27 1) (lit 32 1) (u middle_transfer) 0%Qc (lit 1 2)
    (fNumX middle_transfer + 1) (fNumY middle_transfer) = Ok (lit 21 10).
Proof. decide_by_computation. Qed.

Lemma sample_stays_within_grid_values_witness :
  (0 <= lit 21 10)%Qc /\ (lit 21 10 <= Qc_of_Z 3)%Qc.
Proof.
  apply (sample_stays_within_grid_values middle_transfer (lit 27 1) (lit 32 1)
           (u middle_transfer) 0%Qc (lit 1 2) (fNumX middle_transfer + 1)
           (fNumY middle_transfer) (lit 21 10) 0%Qc (Qc_of_Z 3)).
  - apply entries_between_Forall. decide_by_computation.
  - exact middle_sample_run.
Defined.

(** X8. The particle-to-grid transfer averages: if both velocity
    components of every particle lie in [[lo, hi]], then after
    [transferParticlesToGrid] every face of [u] and of [v] holds 0 (no
    particle nearby, or a face of a solid cell) or a value in
    [[lo, hi]]. *)
Theorem transfer_stays_within_particle_velocities lo hi s s' :
  length (uWeight s) = length (u s) -> length (vWeight s) = length (v s) ->
  Forall (velocity_between lo hi) (particles s) ->
  transferParticlesToGrid s = Ok s' ->
  zero_or_between lo hi (u s') /\ zero_or_between lo hi (v s').
Proof. apply transfer_between. Qed.

Lemma transfer_stays_within_particle_velocities_witness :
  zero_or_between (Qc_of_Z (-2)) (Qc_of_Z 3) (u middle_transfer) /\
  zero_or_between (Qc_of_Z (-2)) (Qc_of_Z 3) (v middle_transfer).
Proof.
  apply (transfer_stays_within_particle_velocities (Qc_of_Z (-2)) (Qc_of_Z 3)
           middle middle_transfer).
  - reflexivity.
  - reflexivity.
  - repeat constructor; by vm_compute.
  - exact middle_transfer_run.
Defined.

(** X9. One relaxation of a non-solid cell multiplies its divergence
    (less the density correction) by [1 - overRelaxation]: the flux
    [-div * overRelaxation / sTot] is added once for each of the [sTot]
    open neighbours.  Below the threshold [1e-5] and for a cell closed
    in by solid neighbours nothing changes. *)
Theorem relaxation_scales_divergence j i s s' d :
  fNumX s <> 0 ->
  is_solid s (i + j * fNumX s) = false ->
  cell_divergence s i j = Ok d ->
  solve_cell j i s = Ok s' ->
  cell_divergence s' i j =
    Ok (if decide ((Math_abs d < epsilon)%Qc \/ open_neighbours s i j = 0)
        then d else ((1 - overRelaxation s) * d)%Qc).
Proof. apply solve_cell_divergence. Qed.

Lemma middle_relaxed_run : solve_cell 3 2 middle_transfer = Ok middle_relaxed.
Proof. decide_by_computation. Qed.

Lemma middle_divergence : cell_divergence middle_transfer 2 3 = Ok (Qc_of_Z 3).
Proof. decide_by_computation. Qed.

Lemma relaxation_scales_divergence_witness :
  cell_divergence middle_relaxed 2 3 =
    Ok (if decide ((Math_abs (Qc_of_Z 3) < epsilon)%Qc \/
                   open_neighbours middle_transfer 2 3 = 0)
        then Qc_of_Z 3 else ((1 - overRelaxation middle_transfer) * Qc_of_Z 3)%Qc).
Proof.
  apply (relaxation_scales_divergence 3 2 middle_transfer middle_relaxed (Qc_of_Z 3)).
  - by vm_compute.
  - by vm_compute.
  - exact middle_divergence.
  - exact middle_relaxed_run.
Defined.

(** X10. In every state the public operations and assignments to
    [gravity] produce from a constructed one, the arrays have the
    constructor's sizes and the cells are classified as [initGrid] left
    them: the outermost ring of the grid solid, every other cell air (no
    cell is ever [FLUID]). *)
Theorem reachable_states_keep_the_solid_ring (Math_sin Math_sqrt : Qc -> Qc) s :
  reachable Math_sin Math_sqrt s ->
  grid_shaped s /\
  forall i j, 0 <= i < fNumX s -> 0 <= j < fNumY s ->
    at_ (cellType s) (getCellIndex s i j) =
      Some (if bool_decide (i = 0 \/ i = fNumX s - 1 \/ j = 0 \/ j = fNumY s - 1)
            then SOLID else AIR).
Proof. apply reachable_ring. Qed.

Lemma reachable_states_keep_the_solid_ring_witness :
  grid_shaped demo_fall /\
  forall i j, 0 <= i < fNumX demo_fall -> 0 <= j < fNumY demo_fall ->
    at_ (cellType demo_fall) (getCellIndex demo_fall i j) =
      Some (if bool_decide (i = 0 \/ i = fNumX demo_fall - 1 \/ j = 0 \/
                            j = fNumY demo_fall - 1)
            then SOLID else AIR).
Proof.
  apply (reachable_states_keep_the_solid_ring demo_sin Qc_sqrt demo_fall).
  eapply reach_integrate; [|exact demo_fall_run].
  apply reach_gravity. eapply reach_construct. exact demo_constructed.
Defined.

(** X11. The wave paddle survives the step: when [integrate] returns,
    the faces [u(1, j)] of the rows [1 <= j < 0.7 * fNumY] hold
    [400 * sin(totalTime)] for the advanced clock.  The pressure solve
    cannot have changed them, since the cell [(0, j)] behind each is
    solid; a solid cell thus keeps a non-zero face until the next
    transfer. *)
Theorem paddle_faces_after_integrate (Math_sin Math_sqrt : Qc -> Qc) dt s s' j :
  grid_shaped s -> ring_classified s ->
  integrate Math_sin Math_sqrt dt s = Ok s' ->
  1 <= fNumX s -> 1 <= j -> (Qc_of_Z j < Qc_of_Z (fNumY s) * lit 7 10)%Qc ->
  at_ (u s') (getUIndex s 1 j) = Some (Qc_of_Z 400 * Math_sin (totalTime s + dt))%Qc.
Proof. apply integrate_paddle. Qed.

Lemma paddle_faces_after_integrate_witness :
  at_ (u demo_fall) (getUIndex demo_heavy 1 2) =
    Some (Qc_of_Z 400 * demo_sin (totalTime demo_heavy + lit 1 10))%Qc.
Proof.
  apply (paddle_faces_after_integrate demo_sin Qc_sqrt (lit 1 10) demo_heavy demo_fall 2).
  - exact demo_shaped.
  - apply (construct_ring demo_random 10 (lit 45 1) (lit 25 1) (lit 10 1) demo
             demo_constructed).
  - exact demo_fall_run.
  - by vm_compute.
  - lia.
  - by vm_compute.
Defined.

(** X12. The wall clamp is the projection onto the box
    [[buffer, width - buffer] x [buffer, height - buffer]]: each
    coordinate moves to the nearest point of its interval, a velocity
    component is zeroed exactly when its coordinate moved, and clamping
    twice is clamping once. *)
Theorem wall_clamp_is_projection (width height buffer : Qc) p :
  (buffer <= width - buffer)%Qc -> (buffer <= height - buffer)%Qc ->
  let p' := clamp width height buffer p in
  Particle.x p' = Math_max buffer (Math_min (Particle.x p) (width - buffer)) /\
  Particle.y p' = Math_max buffer (Math_min (Particle.y p) (height - buffer)) /\
  Particle.u p' =
    (if decide (Particle.x p' = Particle.x p) then Particle.u p else 0%Qc) /\
  Particle.v p' =
    (if decide (Particle.y p' = Particle.y p) then Particle.v p else 0%Qc) /\
  clamp width height buffer p' = p'.
Proof.
  intros Hw Hh p'.
  destruct (clamp_x width height buffer p Hw) as [Hx Hu].
  destruct (clamp_y width height buffer p Hh) as [Hy Hv].
  split_and!; try done. by apply clamp_idempotent.
Qed.

Lemma wall_clamp_is_projection_witness :
  let p := Particle.mk (lit 5 1) (lit 40 1) (lit 7 1) (lit 9 1) in
  let p' := clamp (lit 50 1) (lit 30 1) (lit 11 1) p in
  Particle.x p' = Math_max (lit 11 1) (Math_min (Particle.x p) (lit 50 1 - lit 11 1)) /\
  Particle.y p' = Math_max (lit 11 1) (Math_min (Particle.y p) (lit 30 1 - lit 11 1)) /\
  Particle.u p' =
    (if decide (Particle.x p' = Particle.x p) then Particle.u p else 0%Qc) /\
  Particle.v p' =
    (if decide (Particle.y p' = Particle.y p) then Particle.v p else 0%Qc) /\
  clamp (lit 50 1) (lit 30 1) (lit 11 1) p' = p'.
Proof.
  apply (wall_clamp_is_projection (lit 50 1) (lit 30 1) (lit 11 1)
           (Particle.mk (lit 5 1) (lit 40 1) (lit 7 1) (lit 9 1))); by vm_compute.
Defined.

(** X13. [addExternalForce] never fails, whatever the radius: the
    division by [radius] is reached only inside the radius, which is
    then non-zero.  It changes the particle list only; every particle
    keeps its position, and a particle at distance [radius] or more from
    [(x, y)] keeps its velocity. *)
Theorem addExternalForce_is_total_and_local (Math_sqrt : Qc -> Qc) x0 y0 vx vy radius s :
  exists s', addExternalForce Math_sqrt x0 y0 vx vy radius s = Ok s' /\
    s' = set_particles (particles s') s /\
    Forall2 (fun p p' =>
               Particle.x p' = Particle.x p /\ Particle.y p' = Particle.y p /\
               ((radius * radius <=
                 (Particle.x p - x0) * (Particle.x p - x0) +
                 (Particle.y p - y0) * (Particle.y p - y0))%Qc -> p' = p))
      (particles s) (particles s').
Proof. apply addExternalForce_spec. Qed.

(** X14. The index helpers are row-major encodings that decode again: a
    [u] index splits by [fNumX + 1] into its column and row, a [v] or
    cell index by [fNumX]; on a grid-shaped state every face and cell of
    the grid has its slot in the arrays. *)
Theorem grid_indices_decode s i j :
  (0 <= i <= fNumX s ->
     getUIndex s i j mod (fNumX s + 1) = i /\ getUIndex s i j / (fNumX s + 1) = j) /\
  (0 <= i < fNumX s ->
     getCellIndex s i j mod fNumX s = i /\ getCellIndex s i j / fNumX s = j /\
     getVIndex s i j = getCellIndex s i j) /\
  (grid_shaped s -> 0 <= j < fNumY s ->
     (0 <= i <= fNumX s -> is_Some (at_ (u s) (getUIndex s i j))) /\
     (0 <= i < fNumX s ->
        is_Some (at_ (v s) (getVIndex s i j)) /\
        is_Some (at_ (v s) (getVIndex s i (j + 1))) /\
        is_Some (at_ (cellType s) (getCellIndex s i j)) /\
        is_Some (at_ (pDensity s) (getCellIndex s i j)))).
Proof.
  destruct (index_round_trip s i j) as [H1 H2].
  split; [done|]. split; [done|]. apply index_in_range.
Qed.



(** X16. With a negative spacing the constructor never returns once the
    arrays are allocated and [fNumX < 4]: the seeding loops step by
    [0.85 * spacing < 0] and their conditions stay true ([Timeout] for
    every amount of fuel).  [new FluidSim(45, 25, -10)] is such a
    call. *)
Theorem construct_loops_forever_on_negative_spacing
    (Math_random : nat -> Qc) fuel width height spacing :
  (spacing < 0)%Qc ->
  let X := Math_floor (width / spacing)%Qc + 1 in
  let Y := Math_floor (height / spacing)%Qc + 1 in
  X < 4 -> 0 <= (X + 1) * Y -> 0 <= X * (Y + 1) -> 0 <= X * Y ->
  construct Math_random fuel width height spacing = Err Timeout.
Proof. intros Hsp X Y. by apply construct_diverges. Qed.

Lemma construct_loops_forever_on_negative_spacing_witness :
  construct demo_random 1000 (lit 45 1) (lit 25 1) (lit (-10) 1) = Err Timeout.
Proof.
  apply (construct_loops_forever_on_negative_spacing demo_random 1000
           (lit 45 1) (lit 25 1) (lit (-10) 1)); by vm_compute.
Defined.






(** X19. The constructor seeds particles only into a grid of positive
    cell size with more than four columns and more than two rows (a
    smaller canvas gets none), and every seeded particle is at rest. *)
Theorem construct_seeds_large_grids_at_rest
    (Math_random : nat -> Qc) fuel width height spacing s :
  construct Math_random fuel width height spacing = Ok s ->
  (particles s = [] \/ ((0 < h s)%Qc /\ 4 < fNumX s /\ 2 < fNumY s)) /\
  Forall (fun p => Particle.u p = 0%Qc /\ Particle.v p = 0%Qc) (particles s).
Proof. apply construct_rest. Qed.

Lemma construct_seeds_large_grids_at_rest_witness :
  (particles demo = [] \/ ((0 < h demo)%Qc /\ 4 < fNumX demo /\ 2 < fNumY demo)) /\
  Forall (fun p => Particle.u p = 0%Qc /\ Particle.v p = 0%Qc) (particles demo).
Proof.
  apply (construct_seeds_large_grids_at_rest demo_random 10
           (lit 45 1) (lit 25 1) (lit 10 1) demo).
  exact demo_constructed.
Defined.



(** X21. [enforceBoundaries] writes nothing but zeros into [u] and [v]:
    every face keeps its value or is set to 0 as a face of a solid cell;
    the weights, the classification and every other field are
    untouched. *)
Theorem enforceBoundaries_only_zeroes_solid_faces s :
  let s' := enforceBoundaries s in
  s' = set_v (v s') (set_u (u s') s) /\
  (forall k, at_ (u s') k = at_ (u s) k \/
             (at_ (u s') k = Some 0%Qc /\ u_face_of_solid s k)) /\
  (forall k, at_ (v s') k = at_ (v s) k \/
             (at_ (v s') k = Some 0%Qc /\ v_face_of_solid s k)).
Proof.
  intros s'. subst s'.
  destruct (enforceBoundaries_spec s) as (_ & Hwu & Hwv & [Hu Hv] & _).
  split; [|done].
  pose proof (enforceBoundaries_velocity_only s) as Hvo. unfold velocity_only in Hvo.
  rewrite Hwu, Hwv in Hvo. rewrite Hvo at 1. by destruct s.
Qed.

(** X22. The pressure solve completes on every state whose [u] and [v]
    have the sizes of the grid: its reads stay inside the arrays and the
    neighbour count it divides by is not zero.  It writes [u] and [v]
    only, and keeps their lengths. *)
Theorem solve_completes_and_writes_faces_only s :
  Z.of_nat (length (u s)) = (fNumX s + 1) * fNumY s ->
  Z.of_nat (length (v s)) = fNumX s * (fNumY s + 1) ->
  exists s', solveIncompressibility s = Ok s' /\
    s' = set_v (v s') (set_u (u s') s) /\
    length (u s') = length (u s) /\ length (v s') = length (v s).
Proof.
  intros Hu Hv. destruct (solveIncompressibility_total s Hu Hv) as (s' & Hs' & Hf).
  exists s'. split; [done|]. split; [by apply solveIncompressibility_faces_only|].
  by destruct Hf as (_&_&_&_&_&_&_&_&_&?&?).
Qed.

Lemma solve_completes_and_writes_faces_only_witness :
  exists s', solveIncompressibility middle_transfer = Ok s' /\
    s' = set_v (v s') (set_u (u s') middle_transfer) /\
    length (u s') = length (u middle_transfer) /\
    length (v s') = length (v middle_transfer).
Proof.
  apply (solve_completes_and_writes_faces_only middle_transfer); reflexivity.
Defined.

(** X23. The bilinear stencil stays in the grid: for a grid of at least
    two columns and two rows the clamped position yields fractions in
    [[0, 1)] and a corner index whose three companions ([+1], [+cols],
    [+cols+1]) all lie inside an array of [cols * rows] entries. *)
Theorem stencil_stays_in_grid s x0 y0 ox oy cols rows c :
  2 <= cols -> 2 <= rows ->
  locate s x0 y0 ox oy cols rows = Ok c ->
  0 <= st_idx c /\ st_idx c + cols + 1 < cols * rows /\
  (0 <= st_fx c)%Qc /\ (st_fx c < 1)%Qc /\ (0 <= st_fy c)%Qc /\ (st_fy c < 1)%Qc.
Proof.
  intros Hc Hr Hloc.
  destruct (locate_range _ _ _ _ _ _ _ _ Hc Hr Hloc) as [H0 H1].
  apply locate_Ok in Hloc as (_ & ? & ? & ? & ?). done.
Qed.

Lemma far_stencil_run :
  locate middle (lit 1000 1) (lit (-50) 1) 0%Qc (lit 1 2) 7 6 = Ok (mkStencil 5 0%Qc 0%Qc).
Proof. decide_by_computation. Qed.

Lemma stencil_stays_in_grid_witness :
  0 <= st_idx (mkStencil 5 0%Qc 0%Qc) /\
  st_idx (mkStencil 5 0%Qc 0%Qc) + 7 + 1 < 7 * 6 /\
  (0 <= st_fx (mkStencil 5 0%Qc 0%Qc))%Qc /\ (st_fx (mkStencil 5 0%Qc 0%Qc) < 1)%Qc /\
  (0 <= st_fy (mkStencil 5 0%Qc 0%Qc))%Qc /\ (st_fy (mkStencil 5 0%Qc 0%Qc) < 1)%Qc.
Proof.
  apply (stencil_stays_in_grid middle (lit 1000 1) (lit (-50) 1) 0%Qc (lit 1 2) 7 6
           (mkStencil 5 0%Qc 0%Qc)).
  - lia.
  - lia.
  - exact far_stencil_run.
Defined.

